(** * Conflict-based search over a time-expanded grid

    A shallow embedding of [starter_ass2/search/algorithms.py]: the
    space-time [State], the constrained single-agent [AStar], the
    constraint-tree node [CBSState] and the [CBS] driver, together with
    the parts of the Python runtime the module leans on ([hash] of ints
    and tuples, [heapq], dictionaries, exceptions). *)

From Stdlib Require Import ZArith List Lia Bool.
From stdpp Require Import base option list gmap fin_maps.

Set Warnings "-register-all,-clear-no-such-hyp".

Open Scope Z_scope.

(** ** Outcomes of a Python call

    A call either returns, raises, or is still running when the fuel
    given to the model is used up. *)

Inductive exn : Type :=
  | IndexError
  | KeyError
  | TypeError.

Inductive outcome (A : Type) : Type :=
  | Done (a : A)
  | Raise (e : exn)
  | OutOfFuel.

Arguments Done {A} a.
Arguments Raise {A} e.
Arguments OutOfFuel {A}.

#[global] Instance outcome_ret : MRet outcome := fun _ a => Done a.

#[global] Instance outcome_bind : MBind outcome := fun _ _ k m =>
  match m with
  | Done a => k a
  | Raise e => Raise e
  | OutOfFuel => OutOfFuel
  end.

(** [d[key]] on a dictionary and [l[i]] on a list with [0 <= i]. *)
Definition dict_get `{Countable K} {V} (d : gmap K V) (key : K) : outcome V :=
  match d !! key with
  | Some v => Done v
  | None => Raise KeyError
  end.

Definition list_get {A} (l : list A) (i : nat) : outcome A :=
  match l !! i with
  | Some v => Done v
  | None => Raise IndexError
  end.

(** [l.clear()] and [d.clear()]: the same object, emptied. *)
Definition list_clear {A} (l : list A) : list A := [].

Definition dict_clear `{Countable K} {V} (d : gmap K V) : gmap K V := ∅.

(** [l[i]] for a Python int [i]: a negative index counts from the end. *)
Definition py_index {A} (l : list A) (i : Z) : outcome A :=
  if 0 <=? i then list_get l (Z.to_nat i)
  else if - Z.of_nat (length l) <=? i then list_get l (Z.to_nat (Z.of_nat (length l) + i))
  else Raise IndexError.

(** ** The built-in [hash] (64-bit CPython)

    [hash] of an int reduces its magnitude modulo the Mersenne prime
    [2^61 - 1], keeps the sign and never answers [-1]; [hash] of a tuple
    mixes the hashes of its items with the xxHash-style rounds of
    [tuplehash], in unsigned 64-bit arithmetic. *)

Module PyHash.

Definition modulus : Z := 2 ^ 61 - 1.
Definition u64 (z : Z) : Z := z mod 2 ^ 64.
Definition to_signed (z : Z) : Z := if z <? 2 ^ 63 then z else z - 2 ^ 64.

Definition XXPRIME_1 : Z := 11400714785074694791.
Definition XXPRIME_2 : Z := 14029467366897019727.
Definition XXPRIME_5 : Z := 2870177450012600261.

Definition XXROTATE (z : Z) : Z :=
  Z.lor (u64 (Z.shiftl z 31)) (Z.shiftr z 33).

Definition hash_int (n : Z) : Z :=
  let h := Z.sgn n * (Z.abs n mod modulus) in
  if h =? -1 then -2 else h.

Definition round (acc lane : Z) : Z :=
  u64 (XXROTATE (u64 (acc + lane * XXPRIME_2)) * XXPRIME_1).

Definition hash_tuple (lanes : list Z) : Z :=
  let acc := fold_left round (map u64 lanes) XXPRIME_5 in
  let acc := u64 (acc + Z.lxor (Z.of_nat (length lanes)) (Z.lxor XXPRIME_5 3527539)) in
  if acc =? 2 ^ 64 - 1 then 1546275796 else to_signed acc.

(** [hash((a, b))] for two ints. *)
Definition hash_pair (p : Z * Z) : Z :=
  hash_tuple [hash_int (fst p); hash_int (snd p)].

End PyHash.

(** ** State *)

Inductive State : Type := mkState {
  get_x : Z;
  get_y : Z;
  get_g : Z;
  get_cost : Z;
  get_parent : option State
}.

(** [State(x, y)] *)
Definition State_init (x y : Z) : State := mkState x y 0 0 None.

Definition set_g (s : State) (g : Z) : State :=
  mkState (get_x s) (get_y s) g (get_cost s) (get_parent s).

Definition set_cost (s : State) (cost : Z) : State :=
  mkState (get_x s) (get_y s) (get_g s) cost (get_parent s).

Definition set_parent (s : State) (p : option State) : State :=
  mkState (get_x s) (get_y s) (get_g s) (get_cost s) p.

(** [__lt__] *)
Definition State_lt (s other : State) : bool := get_cost s <? get_cost other.

(** The pair [__hash__] hands to the built-in [hash]; [map_width] is the
    class attribute [State.map_width]. *)
Definition State_key (map_width : Z) (s : State) : Z * Z :=
  (get_y s * map_width + get_x s, get_g s).

(** [__hash__] *)
Definition State_hash (map_width : Z) (s : State) : Z :=
  PyHash.hash_pair (State_key map_width s).

#[global] Arguments State_hash : simpl never.
#[global] Arguments PyHash.hash_pair : simpl never.

(** [__eq__] *)
Definition State_eq (s other : State) : bool :=
  (get_x s =? get_x other) && (get_y s =? get_y other) && (get_g s =? get_g other).

Definition is_goal (s goal : State) : bool :=
  (get_x s =? get_x goal) && (get_y s =? get_y goal).

Definition get_heuristic (s target_state : State) : Z :=
  let dist_x := Z.abs (get_x s - get_x target_state) in
  let dist_y := Z.abs (get_y s - get_y target_state) in
  dist_x + dist_y.

#[global] Instance State_inhabited : Inhabited State := populate (State_init 0 0).

(** ** heapq

    [heappush] and [heappop] of the standard library, on a Python list
    used as a binary min-heap under [<]. Both sift loops only visit
    positions inside the list, so the [None] branches of the list
    look-ups below are never taken; they leave the heap as it is. *)

Section heapq.
Context {A : Type} (lt : A -> A -> bool).

(** The [while pos > startpos] loop of [_siftdown]; [pos] at least
    halves in every round, so [pos] rounds are enough. *)
Fixpoint siftdown_loop (rounds : nat) (heap : list A) (startpos pos : nat)
    (newitem : A) : list A :=
  match rounds with
  | O => <[pos := newitem]> heap
  | S rounds' =>
      if decide (startpos < pos)%nat then
        let parentpos := ((pos - 1) / 2)%nat in
        match heap !! parentpos with
        | Some parent =>
            if lt newitem parent then
              siftdown_loop rounds' (<[pos := parent]> heap) startpos parentpos newitem
            else <[pos := newitem]> heap
        | None => <[pos := newitem]> heap
        end
      else <[pos := newitem]> heap
  end.

Definition _siftdown (heap : list A) (startpos pos : nat) : list A :=
  match heap !! pos with
  | Some newitem => siftdown_loop pos heap startpos pos newitem
  | None => heap
  end.

Definition heappush (heap : list A) (item : A) : list A :=
  _siftdown (heap ++ [item]) 0 (length heap).

(** [childpos] after "set childpos to index of smaller child": the
    right child when there is one and the left one is not below it. *)
Definition smaller_child (heap : list A) (childpos : nat) : nat :=
  let rightpos := (childpos + 1)%nat in
  match heap !! childpos, heap !! rightpos with
  | Some l, Some r => if negb (lt l r) then rightpos else childpos
  | _, _ => childpos
  end.

(** The [while childpos < endpos] loop of [_siftup], with [endpos] the
    length of the heap: the smaller child moves up until a leaf is
    reached; the answer is the heap and the position of the hole. *)
Fixpoint siftup_loop (rounds : nat) (heap : list A) (endpos pos : nat)
    : list A * nat :=
  match rounds with
  | O => (heap, pos)
  | S rounds' =>
      let childpos := (2 * pos + 1)%nat in
      if decide (childpos < endpos)%nat then
        let childpos := smaller_child heap childpos in
        match heap !! childpos with
        | Some c => siftup_loop rounds' (<[pos := c]> heap) endpos childpos
        | None => (heap, pos)
        end
      else (heap, pos)
  end.

Definition _siftup (heap : list A) (pos : nat) : list A :=
  match heap !! pos with
  | Some newitem =>
      let '(heap, hole) := siftup_loop (length heap) heap (length heap) pos in
      _siftdown (<[hole := newitem]> heap) pos hole
  | None => heap
  end.

(** [heappop]: [None] stands for the [IndexError] of popping an empty
    list. *)
Definition heappop (heap : list A) : option (A * list A) :=
  match last heap with
  | None => None
  | Some lastelt =>
      let heap := removelast heap in
      match heap with
      | [] => Some (lastelt, heap)
      | returnitem :: _ => Some (returnitem, _siftup (<[0%nat := lastelt]> heap) 0)
      end
  end.

End heapq.

(** ** Heap order

    The position above [i] in the heap; the heap order under a key; and
    what the two sift loops keep while an item is on its way. *)
Definition parent_of (i : nat) : nat := ((i - 1) / 2)%nat.

Section heap_order.
Context {A : Type} (key : A -> Z).

Definition heap_ok (h : list A) : Prop :=
  forall i x p, (0 < i)%nat -> h !! i = Some x -> h !! parent_of i = Some p -> key p <= key x.

(** Every item is at least the one above it, except maybe the one at
    [pos]; the items below [pos] are at least the one above [pos]. *)
Definition rising (h : list A) (pos : nat) : Prop :=
  (forall i x p, (0 < i)%nat -> i <> pos ->
     h !! i = Some x -> h !! parent_of i = Some p -> key p <= key x) /\
  (forall c x g, (0 < pos)%nat -> (0 < c)%nat -> parent_of c = pos ->
     h !! c = Some x -> h !! parent_of pos = Some g -> key g <= key x).

(** The same with a hole at [pos]: nothing is said of the item at [pos]. *)
Definition sinking (h : list A) (pos : nat) : Prop :=
  (forall i x p, (0 < i)%nat -> i <> pos -> parent_of i <> pos ->
     h !! i = Some x -> h !! parent_of i = Some p -> key p <= key x) /\
  (forall c x g, (0 < pos)%nat -> (0 < c)%nat -> parent_of c = pos ->
     h !! c = Some x -> h !! parent_of pos = Some g -> key g <= key x).

End heap_order.

(** ** The map

    An agent's constraints: a dictionary from a cell [(x, y)] to the set
    of timesteps at which the agent may not be there. *)
Abbreviation Constraints := (gmap (Z * Z) (gset Z)).

(** The search uses one method of the map object,
    [successors(node, constraints)]. *)
Record Map : Type := { successors : State -> option Constraints -> list State }.

(** [(cell, t)] is forbidden by [constraints]. *)
Definition forbidden (constraints : option Constraints) (cell : Z * Z) (t : Z) : bool :=
  match constraints with
  | Some cs =>
      match cs !! cell with
      | Some ts => bool_decide (t ∈ ts)
      | None => false
      end
  | None => false
  end.

(** Modelled from the spec: the map module ([successors], [isBlocked],
    [bounds]) is not among the sources. Following the expansion rule of
    the constrained pathfinder, the successors of a state at time [g] are
    the four cardinal moves and the wait action, each a fresh state at
    time [g + 1], without those whose cell is out of bounds, blocked, or
    forbidden to the agent at [g + 1]. *)
Definition gridded_moves : list (Z * Z) := [(1, 0); (-1, 0); (0, 1); (0, -1); (0, 0)].

Definition gridded_successors (width height : Z) (is_blocked : Z -> Z -> bool)
    (node : State) (constraints : option Constraints) : list State :=
  let g := get_g node + 1 in
  let keep (cell : Z * Z) : bool :=
    (0 <=? cell.1) && (cell.1 <? width) && (0 <=? cell.2) && (cell.2 <? height)
    && negb (is_blocked cell.1 cell.2) && negb (forbidden constraints cell g) in
  let cells := filter (fun cell => keep cell = true)
                 ((fun d : Z * Z => (get_x node + d.1, get_y node + d.2)) <$> gridded_moves) in
  (fun cell : Z * Z => set_g (State_init cell.1 cell.2) g) <$> cells.

Definition gridded_map (width height : Z) (is_blocked : Z -> Z -> bool) : Map :=
  {| successors := gridded_successors width height is_blocked |}.

(** ** AStar *)

Module AStar.

Record t : Type := mk {
  map : Map;
  OPEN : list State;
  CLOSED : gmap Z State;
  start : option State;
  goal : option State
}.

(** [__init__] *)
Definition init (gridded_map : Map) : t := mk gridded_map [] ∅ None None.

(** [compute_cost], with [self.goal] as [goal]. *)
Definition compute_cost (goal state : State) : State :=
  set_cost state (get_g state + get_heuristic state goal).

(** The list [_recover_path] builds before reversing it: the node,
    its parent, ..., up to the node without a parent. *)
Fixpoint parents (node : State) : list State :=
  match node with
  | mkState _ _ _ _ (Some p) => node :: parents p
  | mkState _ _ _ _ None => [node]
  end.

Definition _recover_path (node : State) : list State := reverse (parents node).

Section search.
(** The class attribute [State.map_width]. *)
Variable map_width : Z.

(** The body of [for child in children]. *)
Definition expand_child (goal node : State) (oc : list State * gmap Z State)
    (child : State) : list State * gmap Z State :=
  let '(OPEN, CLOSED) := oc in
  let hash_value := State_hash map_width child in
  let child := compute_cost goal child in
  let child := set_parent child (Some node) in
  let '(OPEN, CLOSED) :=
    match CLOSED !! hash_value with
    | None => (heappush State_lt OPEN child, <[hash_value := child]> CLOSED)
    | Some _ => (OPEN, CLOSED)
    end in
  match CLOSED !! hash_value with
  | Some reached =>
      if get_g child <? get_g reached then
        (heappush State_lt OPEN child, <[hash_value := child]> CLOSED)
      else (OPEN, CLOSED)
  | None => (OPEN, CLOSED)
  end.

Definition expand (m : Map) (goal : State) (constraints : option Constraints)
    (node : State) (oc : list State * gmap Z State) : list State * gmap Z State :=
  fold_left (expand_child goal node) (successors m node constraints) oc.

(** The [while len(self.OPEN) > 0] loop; one unit of fuel per pop. *)
Fixpoint search_loop (fuel : nat) (m : Map) (goal : State)
    (constraints : option Constraints) (OPEN : list State) (CLOSED : gmap Z State)
    : outcome ((Z * option (list State)) * (list State * gmap Z State)) :=
  match fuel with
  | O => OutOfFuel
  | S fuel' =>
      match heappop State_lt OPEN with
      | None => Done ((-1, None), (OPEN, CLOSED))
      | Some (node, OPEN) =>
          if is_goal node goal then
            Done ((get_g node, Some (_recover_path node)), (OPEN, CLOSED))
          else
            let '(OPEN, CLOSED) := expand m goal constraints node (OPEN, CLOSED) in
            search_loop fuel' m goal constraints OPEN CLOSED
      end
  end.

(** The loop as a step relation: [expands m goal cs oc nodes oc'] when,
    from the queue and the reached mapping [oc], the loop pops and
    expands exactly [nodes], in this order and none of them on the
    goal cell, and arrives at [oc']. *)
Inductive expands (m : Map) (goal : State) (constraints : option Constraints)
    : list State * gmap Z State -> list State -> list State * gmap Z State -> Prop :=
  | expands_nil oc : expands m goal constraints oc [] oc
  | expands_cons OPEN CLOSED node OPEN' nodes oc' :
      heappop State_lt OPEN = Some (node, OPEN') ->
      is_goal node goal = false ->
      expands m goal constraints (expand m goal constraints node (OPEN', CLOSED)) nodes oc' ->
      expands m goal constraints (OPEN, CLOSED) (node :: nodes) oc'.

(** The queue and the reached mapping when the loop is entered. *)
Definition entry (start goal : State) : list State * gmap Z State :=
  let start := compute_cost goal start in
  (heappush State_lt [] start, <[State_hash map_width start := start]> ∅).

(** [search]: the cost written on the start object is recomputed at
    the entry of every search, before anything reads it. *)
Definition search (fuel : nat) (self : t) (start goal : State)
    (constraints : option Constraints)
    : outcome ((Z * option (list State)) * t) :=
  let start := compute_cost goal start in
  let OPEN := list_clear (OPEN self) in
  let CLOSED := dict_clear (CLOSED self) in
  let OPEN := heappush State_lt OPEN start in
  let CLOSED := <[State_hash map_width start := start]> CLOSED in
  '(result, (OPEN, CLOSED)) ← search_loop fuel (map self) goal constraints OPEN CLOSED;
  mret (result, mk (map self) OPEN CLOSED (Some start) (Some goal)).

End search.

(** What the caller of a method gets back, without the instance the
    call leaves behind. *)
Definition returned {R} (o : outcome (R * t)) : outcome R :=
  '(r, _) ← o; mret r.

(** [step m goal constraints a b]: the search moves from [a] to [b],
    a successor the map yields for [a], with its cost set and its
    parent link pointing at [a]. *)
Definition step (m : Map) (goal : State) (constraints : option Constraints)
    (a b : State) : Prop :=
  exists child, child ∈ successors m a constraints /\
                b = set_parent (compute_cost goal child) (Some a).

(** The states a search from [start] can hold: the start with its cost
    set, and every successor the map yields for a state already held,
    with its cost set and its parent link pointing at that state. *)
Inductive generated (m : Map) (goal : State) (constraints : option Constraints)
    (start : State) : State -> Prop :=
  | generated_start : generated m goal constraints start (compute_cost goal start)
  | generated_child parent child :
      generated m goal constraints start parent ->
      child ∈ successors m parent constraints ->
      generated m goal constraints start
        (set_parent (compute_cost goal child) (Some parent)).

End AStar.

(** ** CBSState *)

(** [self._paths]: agent index to the path the search returned for it,
    [None] when the search found none. *)
Abbreviation Paths := (gmap nat (option (list State))).

Module CBSState.

Record t : Type := mk {
  cost : Z;
  constraints : gmap nat Constraints;
  map : Map;
  starts : list State;
  goals : list State;
  k : nat;
  paths : Paths
}.

Definition set_paths (self : t) (ps : Paths) : t :=
  mk (cost self) (constraints self) (map self) (starts self) (goals self) (k self) ps.

Definition set_cost (self : t) (c : Z) : t :=
  mk c (constraints self) (map self) (starts self) (goals self) (k self) (paths self).

Definition set_constraints (self : t) (cs : gmap nat Constraints) : t :=
  mk (cost self) cs (map self) (starts self) (goals self) (k self) (paths self).

(** [__init__]: one empty dictionary of constraints per agent. *)
Definition init (m : Map) (starts goals : list State) : outcome t :=
  let k := length starts in
  let constraints :=
    fold_left (fun cs i => <[i := (∅ : Constraints)]> cs) (seq 0 k) ∅ in
  mret (mk 0 constraints m starts goals k ∅).

(** [len(self._paths[i])] needs the entry to be there and to be a list. *)
Definition path_of (self : t) (i : nat) : outcome (list State) :=
  path ← dict_get (paths self) i;
  match path with
  | Some p => mret p
  | None => Raise TypeError
  end.

Section with_map_width.
Variable map_width : Z.

(** The body of [for i in range(0, self._k)] in [compute_cost]. *)
Definition compute_cost_agent (fuel : nat) (acc : AStar.t * t) (i : nat)
    : outcome (AStar.t * t) :=
  let '(astar, self) := acc in
  start ← list_get (starts self) i;
  goal ← list_get (goals self) i;
  cs ← dict_get (constraints self) i;
  '((c, path), astar) ← AStar.search map_width fuel astar start goal (Some cs);
  let self := set_paths self (<[i := path]> (paths self)) in
  let self := set_cost self (cost self + c) in
  mret (astar, self).

Fixpoint compute_cost_loop (fuel : nat) (agents : list nat) (acc : AStar.t * t)
    : outcome (AStar.t * t) :=
  match agents with
  | [] => mret acc
  | i :: agents' =>
      acc ← compute_cost_agent fuel acc i;
      compute_cost_loop fuel agents' acc
  end.

(** [compute_cost]: the returned pair and the node as the call leaves
    it; every single-agent search may pop [fuel] states. *)
Definition compute_cost (fuel : nat) (self : t) : outcome ((Paths * Z) * t) :=
  let astar := AStar.init (map self) in
  '(_, self) ← compute_cost_loop fuel (seq 0 (k self)) (astar, self);
  mret ((paths self, cost self), self).

End with_map_width.

(** [current_state in step_set]: the set finds an element with the same
    hash that is [==] to the state; states that are [==] hash alike. *)
Definition in_step_set (current_state : State) (step_set : list State) : bool :=
  existsb (fun s => State_eq s current_state) step_set.

Record scan : Type := mkScan {
  step_set : list State;
  agents_finished : nat;
  valid_solution : bool;
  conflict_tuple : option (State * Z)
}.

(** The body of [for i in range(0, self._k)] in [is_solution]. *)
Definition is_solution_agent (self : t) (time_step : nat) (sc : scan) (i : nat)
    : outcome scan :=
  path ← path_of self i;
  if decide (time_step < length path)%nat then
    current_state ← list_get path time_step;
    if in_step_set current_state (step_set sc) then
      mret (mkScan (step_set sc) (agents_finished sc) false
              (Some (current_state, get_g current_state)))
    else
      mret (mkScan (current_state :: step_set sc) (agents_finished sc)
              (valid_solution sc) (conflict_tuple sc))
  else
    mret (mkScan (step_set sc) (S (agents_finished sc))
            (valid_solution sc) (conflict_tuple sc)).

Fixpoint is_solution_agents (self : t) (time_step : nat) (agents : list nat) (sc : scan)
    : outcome scan :=
  match agents with
  | [] => mret sc
  | i :: agents' =>
      sc ← is_solution_agent self time_step sc i;
      is_solution_agents self time_step agents' sc
  end.

(** The [while agents_finished < self._k] loop, entered with the
    condition true; one unit of fuel per timestep. *)
Fixpoint is_solution_loop (fuel : nat) (self : t) (time_step : nat)
    (valid_solution : bool) (conflict_tuple : option (State * Z))
    : outcome (bool * option (State * Z)) :=
  match fuel with
  | O => OutOfFuel
  | S fuel' =>
      sc ← is_solution_agents self time_step (seq 0 (k self))
              (mkScan [] 0 valid_solution conflict_tuple);
      if decide (agents_finished sc < k self)%nat then
        is_solution_loop fuel' self (S time_step) (CBSState.valid_solution sc)
          (CBSState.conflict_tuple sc)
      else mret (CBSState.valid_solution sc, CBSState.conflict_tuple sc)
  end.

Definition is_solution (fuel : nat) (self : t) : outcome (bool * option (State * Z)) :=
  if decide (0 < k self)%nat then is_solution_loop fuel self 0 true None
  else mret (true, None).

(** [set_constraint] *)
Definition set_constraint (self : t) (conflict_state : State) (conflict_time : Z)
    (agent : nat) : outcome t :=
  let cell := (get_x conflict_state, get_y conflict_state) in
  cs ← dict_get (constraints self) agent;
  let cs := match cs !! cell with
            | None => <[cell := (∅ : gset Z)]> cs
            | Some _ => cs
            end in
  times ← dict_get cs cell;
  let cs := <[cell := {[conflict_time]} ∪ times]> cs in
  mret (set_constraints self (<[agent := cs]> (constraints self))).

(** The body of the loop of [successors] that collects the agents in
    the conflict. *)
Definition conflicting_agent (self : t) (conflict_state : State) (conflict_time : Z)
    (agents : list nat) (i : nat) : outcome (list nat) :=
  path ← path_of self i;
  if conflict_time <? Z.of_nat (length path) then
    s ← py_index path conflict_time;
    if State_eq s conflict_state then mret (agents ++ [i]) else mret agents
  else mret agents.

Fixpoint conflicting_agents (self : t) (conflict_state : State) (conflict_time : Z)
    (range : list nat) (agents : list nat) : outcome (list nat) :=
  match range with
  | [] => mret agents
  | i :: range' =>
      agents ← conflicting_agent self conflict_state conflict_time agents i;
      conflicting_agents self conflict_state conflict_time range' agents
  end.

(** A child of [self]: a new node on the same map, starts and goals,
    with a deep copy of the constraints of [self] and one more
    constraint for [agent]. *)
Definition child (self : t) (conflict_state : State) (conflict_time : Z) (agent : nat)
    : outcome t :=
  c ← init (map self) (starts self) (goals self);
  let c := set_constraints c (constraints self) in
  set_constraint c conflict_state conflict_time agent.

(** [successors] *)
Definition successors (fuel : nat) (self : t) : outcome (list t) :=
  '(valid, conflict_tuple) ← is_solution fuel self;
  match conflict_tuple with
  | Some (conflict_state, conflict_time) =>
      if negb valid then
        agents ← conflicting_agents self conflict_state conflict_time (seq 0 (k self)) [];
        match agents with
        | a0 :: a1 :: _ =>
            c1 ← child self conflict_state conflict_time a0;
            c2 ← child self conflict_state conflict_time a1;
            mret [c1; c2]
        | _ => mret []
        end
      else mret []
  | None => mret []
  end.

End CBSState.

(** ** CBS *)

Module CBS.

(** [search]: returns the pair [None, None]. *)
Definition search (start : CBSState.t) : outcome (option Paths * option Z) :=
  mret (None, None).

End CBS.

(** ** Instances

    A corridor of three cells in a row, used to run the model. *)
Definition corridor : Map := gridded_map 3 1 (fun _ _ => false).

(** [(0, 0)] is forbidden at time 0; at time 1 both [(0, 0)] and
    [(1, 0)] are; [(1, 0)] alone is forbidden at time 1. *)
Definition forbid_origin_now : Constraints := {[ (0, 0) := {[ 0 ]} ]}.
Definition forbid_first_moves : Constraints := {[ (0, 0) := {[ 1 ]}; (1, 0) := {[ 1 ]} ]}.
Definition forbid_next_cell : Constraints := {[ (1, 0) := {[ 1 ]} ]}.

(** A path shown as its [(x, y, g)] triples, and a search result shown
    that way. *)
Definition waypoints (path : list State) : list (Z * Z * Z) :=
  (fun s => (get_x s, get_y s, get_g s)) <$> path.

Definition summary (o : outcome (Z * option (list State)))
    : outcome (Z * option (list (Z * Z * Z))) :=
  match o with
  | Done (c, Some path) => Done (c, Some (waypoints path))
  | Done (c, None) => Done (c, None)
  | Raise e => Raise e
  | OutOfFuel => OutOfFuel
  end.

(** ** Vocabulary of the statements *)

(** The sum of the costs [result j].1 over the agents [js]. *)
Definition total_cost (result : nat -> Z * option (list State)) (js : list nat) : Z :=
  foldr (fun j acc => (result j).1 + acc) 0 js.

(** [extends parent child agent cell t]: [child] is a new node on the
    map, starts and goals of [parent] whose constraints are those of
    [parent] with [(cell, t)] added to what is forbidden to [agent]. *)
Definition extends (parent child : CBSState.t) (agent : nat) (cell : Z * Z) (t : Z) : Prop :=
  CBSState.map child = CBSState.map parent /\
  CBSState.starts child = CBSState.starts parent /\
  CBSState.goals child = CBSState.goals parent /\
  CBSState.k child = length (CBSState.starts parent) /\
  CBSState.cost child = 0 /\ CBSState.paths child = ∅ /\
  (forall j, j <> agent ->
     CBSState.constraints child !! j = CBSState.constraints parent !! j) /\
  exists cs cs',
    CBSState.constraints parent !! agent = Some cs /\
    CBSState.constraints child !! agent = Some cs' /\
    forall cell' t',
      forbidden (Some cs') cell' t' = true <->
      forbidden (Some cs) cell' t' = true \/ (cell' = cell /\ t' = t).

(** Agent [i] is at the conflict: its path is long enough and holds, at
    index [t], a state [==] to [s]. *)
Definition at_conflict (self : CBSState.t) (s : State) (t : Z) (i : nat) : Prop :=
  exists p s',
    CBSState.paths self !! i = Some (Some p) /\ t < Z.of_nat (length p) /\
    py_index p t = Done s' /\ State_eq s' s = true.

(** The state agent [i] holds at index [t] of its path, if any. *)
Definition path_state (self : CBSState.t) (i t : nat) : option State :=
  match CBSState.paths self !! i with
  | Some (Some p) => p !! t
  | _ => None
  end.

(** Every agent of the node has a path, shorter than [bound]. *)
Definition has_paths (self : CBSState.t) (bound : nat) : Prop :=
  forall i, (i < CBSState.k self)%nat ->
    exists p, CBSState.paths self !! i = Some (Some p) /\ (length p < bound)%nat.

(** Paths as the pathfinder returns them from a start at time 0: the
    state at index [t] carries [g = t]. *)
Definition timed (self : CBSState.t) : Prop :=
  forall i t s, path_state self i t = Some s -> get_g s = Z.of_nat t.

(** A vertex conflict: two different agents on the same cell at the same
    timestep. *)
Definition vertex_conflict (self : CBSState.t) (t : nat) (cell : Z * Z) : Prop :=
  exists i j si sj,
    i <> j /\ (i < CBSState.k self)%nat /\ (j < CBSState.k self)%nat /\
    path_state self i t = Some si /\ path_state self j t = Some sj /\
    (get_x si, get_y si) = cell /\ (get_x sj, get_y sj) = cell.

(** What the scan of [is_solution] detects at index [t] when it comes to
    agent [j]: a state [==] to the one of an agent before [j]. *)
Definition collides (self : CBSState.t) (t j : nat) : Prop :=
  exists i si sj,
    (i < j)%nat /\ path_state self i t = Some si /\ path_state self j t = Some sj /\
    State_eq si sj = true.

(** ** Regular maps, walks and the states within a horizon *)

(** What the expansion rule promises of a map, for the constraints
    [cs] of one agent: states that are [==] have [==] successors, a
    move takes one timestep and goes to the same or a neighbouring
    cell, inside the map. *)
Record regular (m : Map) (width height : Z) (cs : option Constraints) : Prop := {
  regular_eq : forall a a' child,
    State_eq a a' = true -> child ∈ successors m a cs ->
    exists child', child' ∈ successors m a' cs /\ State_eq child child' = true;
  regular_g : forall a child,
    child ∈ successors m a cs -> get_g child = get_g a + 1;
  regular_move : forall a child,
    child ∈ successors m a cs ->
    Z.abs (get_x child - get_x a) + Z.abs (get_y child - get_y a) <= 1;
  regular_box : forall a child,
    child ∈ successors m a cs ->
    0 <= get_x child < width /\ 0 <= get_y child < height
}.

(** [reaches m cs a n b]: [n] moves the map offers lead from [a] to a
    state [==] to [b]. *)
Inductive reaches (m : Map) (cs : option Constraints) : State -> nat -> State -> Prop :=
  | reaches_O a b : State_eq a b = true -> reaches m cs a 0 b
  | reaches_S a child n b :
      child ∈ successors m a cs -> reaches m cs child n b -> reaches m cs a (S n) b.

(** The states of the time-expanded grid from time [g0] up to [horizon]
    steps later, and the pairs [__hash__] encodes them by. *)
Definition in_box (width height g0 : Z) (horizon : nat) (s : State) : Prop :=
  0 <= get_x s < width /\ 0 <= get_y s < height /\
  g0 <= get_g s <= g0 + Z.of_nat horizon.

Definition box_keys (width height g0 : Z) (horizon : nat) : list (Z * Z) :=
  x ← seqZ 0 width; y ← seqZ 0 height; g ← seqZ g0 (Z.of_nat horizon + 1);
  [(y * width + x, g)].

(** No two of these states have the same hash. *)
Definition collision_free (width height g0 : Z) (horizon : nat) : Prop :=
  NoDup (PyHash.hash_pair <$> box_keys width height g0 horizon).

(** ** Loop invariants *)

(** The search holds [n]: in the queue, or among the expanded [E]. *)
Definition held (OPEN E : list State) (n : State) : Prop := n ∈ OPEN \/ n ∈ E.

Definition priced (width height : Z) (goal start : State) (horizon : nat) (n : State)
    : Prop :=
  get_cost n = get_g n + get_heuristic n goal /\
  in_box width height (get_g start) horizon n.

(** What the loop of [AStar.search] keeps, with [E] the states expanded
    so far: the queue is a heap of priced states, the reached mapping
    files held states under their own hash, the start is held, every
    successor of an expanded state is held up to [==], and no expanded
    state is on the goal cell. *)
Definition frontier_ok (map_width height : Z) (m : Map) (goal : State)
    (cs : option Constraints) (start : State)
    (oc : list State * gmap Z State) (E : list State) : Prop :=
  heap_ok get_cost oc.1 /\
  (forall n, held oc.1 E n -> priced map_width height goal start (length E) n) /\
  (forall k r, oc.2 !! k = Some r -> State_hash map_width r = k /\ held oc.1 E r) /\
  held oc.1 E (AStar.compute_cost goal start) /\
  (forall e child, e ∈ E -> child ∈ successors m e cs ->
     exists n, held oc.1 E n /\ State_eq n child = true) /\
  Forall (fun e => is_goal e goal = false) E.


(** What the scan of one timestep knows after the agents below [n]. *)
Definition scanned (self : CBSState.t) (t n : nat) (v : bool) (c : option (State * Z)) (sc : CBSState.scan)
    : Prop :=
  (forall s, CBSState.in_step_set s (CBSState.step_set sc) = true <->
             exists i si, (i < n)%nat /\ path_state self i t = Some si /\
                          State_eq si s = true) /\
  (CBSState.agents_finished sc <= n)%nat /\
  (CBSState.agents_finished sc = n <-> forall i, (i < n)%nat -> path_state self i t = None) /\
  (((forall j, (j < n)%nat -> ~ collides self t j) /\
    CBSState.valid_solution sc = v /\ CBSState.conflict_tuple sc = c) \/
   (exists j s, (j < n)%nat /\ collides self t j /\ path_state self j t = Some s /\
                CBSState.conflict_tuple sc = Some (s, get_g s) /\
                CBSState.valid_solution sc = false)).

(** What the loop knows when it comes to timestep [t]: nothing was
    detected below [t], or the tuple is the last detection below [t]. *)
Definition swept (self : CBSState.t) (t : nat) (v : bool) (c : option (State * Z)) : Prop :=
  (v = true /\ c = None /\
   forall t' j, (t' < t)%nat -> (j < CBSState.k self)%nat -> ~ collides self t' j) \/
  (v = false /\
   exists t0 j s, (t0 < t)%nat /\ (j < CBSState.k self)%nat /\ collides self t0 j /\
                  path_state self j t0 = Some s /\ c = Some (s, get_g s) /\
                  forall t' j', (t0 < t')%nat -> (t' < t)%nat ->
                                (j' < CBSState.k self)%nat -> ~ collides self t' j').

(** What the loop knows when it returns: [swept], for every timestep. *)
Definition swept_all (self : CBSState.t) (v : bool) (c : option (State * Z)) : Prop :=
  (v = true /\ c = None /\
   forall t' j, (j < CBSState.k self)%nat -> ~ collides self t' j) \/
  (v = false /\
   exists t0 j s, (j < CBSState.k self)%nat /\ collides self t0 j /\
                  path_state self j t0 = Some s /\ c = Some (s, get_g s) /\
                  forall t' j', (t0 < t')%nat -> (j' < CBSState.k self)%nat ->
                                ~ collides self t' j').

(** Agent [j] of [self] has a start, a goal and constraints, and its
    search on a fresh instance returns [result j]. *)
Definition searched (map_width : Z) (fuel : nat) (result : nat -> Z * option (list State))
    (self : CBSState.t) (j : nat) : Prop :=
  exists start goal cs,
    CBSState.starts self !! j = Some start /\
    CBSState.goals self !! j = Some goal /\
    CBSState.constraints self !! j = Some cs /\
    AStar.returned (AStar.search map_width fuel (AStar.init (CBSState.map self))
                      start goal (Some cs)) = Done (result j).

(** Two paths that share the cells [(1, 0)] at time 1 and [(2, 0)] at
    time 2. *)
Definition at_time (x y g : Z) : State := set_g (State_init x y) g.

Definition two_conflicts : CBSState.t :=
  CBSState.mk 5 {[ 0%nat := ∅; 1%nat := ∅ ]} (gridded_map 4 2 (fun x y => (x =? 2) && (y =? 1)))
    [State_init 0 0; State_init 1 1] [State_init 3 0; State_init 2 0] 2
    {[ 0%nat := Some [at_time 0 0 0; at_time 1 0 1; at_time 2 0 2; at_time 3 0 3];
       1%nat := Some [at_time 1 1 0; at_time 1 0 1; at_time 2 0 2] ]}.

(** Three agents on the corridor: agent 0 goes from [(0, 0)] to
    [(2, 0)], agent 1 the other way, agent 2 from [(1, 0)] to [(0, 0)].
    [crowded_child] is the first child of the root: agent 0 may not be on
    [(1, 0)] at time 1. *)
Definition crowded_starts : list State := [State_init 0 0; State_init 2 0; State_init 1 0].
Definition crowded_goals : list State := [State_init 2 0; State_init 0 0; State_init 0 0].

Definition crowded_child : CBSState.t :=
  CBSState.mk 0 {[ 0%nat := forbid_next_cell; 1%nat := ∅; 2%nat := ∅ ]} corridor
    crowded_starts crowded_goals 3 ∅.

(** The [i]-th node of a list of children, with its cost computed. *)
Definition costed_child (map_width : Z) (fuel : nat) (children : list CBSState.t) (i : nat)
    : outcome CBSState.t :=
  c ← list_get children i;
  r ← CBSState.compute_cost map_width fuel c;
  mret r.2.

(** The paths of a node shown as [(x, y, g)] triples. *)
Definition shown_paths (self : CBSState.t) : gmap nat (option (list (Z * Z * Z))) :=
  (fun p : option (list State) => waypoints <$> p) <$> CBSState.paths self.

(** ** Vocabulary of the further properties *)

(** What the search of agent [j] of [self] returns on a fresh instance,
    [(-1, None)] standing in where the call does not return. *)
Definition result_of (map_width : Z) (fuel : nat) (self : CBSState.t) (j : nat)
    : Z * option (list State) :=
  match CBSState.starts self !! j, CBSState.goals self !! j,
        CBSState.constraints self !! j with
  | Some start, Some goal, Some cs =>
      match AStar.returned (AStar.search map_width fuel (AStar.init (CBSState.map self))
                              start goal (Some cs)) with
      | Done r => r
      | _ => (-1, None)
      end
  | _, _, _ => (-1, None)
  end.

(** The map offers no more under more constraints: a move it permits
    under [cs'] it permits, up to [==], under every [cs] that forbids no
    more than [cs']. *)
Definition monotone (m : Map) : Prop :=
  forall (cs cs' : Constraints) (a child : State),
    (forall cell t, forbidden (Some cs) cell t = true -> forbidden (Some cs') cell t = true) ->
    child ∈ successors m a (Some cs') ->
    exists child2, child2 ∈ successors m a (Some cs) /\ State_eq child child2 = true.

(** Two agents that swap the ends of the corridor, as [__init__] leaves
    the node; the same node with agent 0 walled in at time 1; and a node
    with a goal for agent 0 only. *)
Definition head_on : CBSState.t :=
  CBSState.mk 0 {[ 0%nat := ∅; 1%nat := ∅ ]} corridor
    [State_init 0 0; State_init 2 0] [State_init 2 0; State_init 0 0] 2 ∅.

Definition walled_in : CBSState.t :=
  CBSState.mk 0 {[ 0%nat := forbid_first_moves; 1%nat := ∅ ]} corridor
    [State_init 0 0; State_init 2 0] [State_init 2 0; State_init 0 0] 2 ∅.

Definition short_of_goals : CBSState.t :=
  CBSState.mk 0 {[ 0%nat := ∅; 1%nat := ∅ ]} corridor
    [State_init 0 0; State_init 2 0] [State_init 2 0] 2 ∅.

(** The node a call of [compute_cost] leaves, and the first child of a
    node, the node itself standing in where there is none. *)
Definition costed (map_width : Z) (fuel : nat) (self : CBSState.t) : CBSState.t :=
  match CBSState.compute_cost map_width fuel self with
  | Done (_, self') => self'
  | _ => self
  end.

Definition first_child (fuel : nat) (self : CBSState.t) : CBSState.t :=
  match CBSState.successors fuel self with
  | Done (c :: _) => c
  | _ => self
  end.

(** The call returned, and returned a list that is not empty. *)
Definition is_done {A} (o : outcome A) : bool :=
  match o with Done _ => true | _ => false end.

Definition is_done_cons {A} (o : outcome (list A)) : bool :=
  match o with Done (_ :: _) => true | _ => false end.

(** The moves of the path filed for agent [j]: its length minus one,
    and [-1] where no path is filed. *)
Definition moves (self : CBSState.t) (j : nat) : Z :=
  match CBSState.paths self !! j with
  | Some (Some p) => Z.of_nat (length p) - 1
  | _ => -1
  end.

(** * Properties *)

(** The model of [hash] agrees with CPython on sample pairs. *)
Example hash_pair_0_0 : PyHash.hash_pair (0, 0) = -8458139203682520985.
Proof. vm_compute. reflexivity. Qed.

Example hash_pair_3_5 : PyHash.hash_pair (3, 5) = 7586885779985432798.
Proof. vm_compute. reflexivity. Qed.

Example hash_pair_m1_0 : PyHash.hash_pair (-1, 0) = 2575514064802888272.
Proof. vm_compute. reflexivity. Qed.

(** ** heapq keeps the heap's elements *)

Section heapq_facts.
Context {A : Type} (lt : A -> A -> bool) (P : A -> Prop).

#[local] Arguments Nat.div : simpl never.

Lemma siftdown_loop_Forall rounds : forall heap startpos pos newitem,
  Forall P heap -> P newitem ->
  Forall P (siftdown_loop lt rounds heap startpos pos newitem).
Proof.
  induction rounds as [|rounds IH]; intros heap startpos pos newitem Hh Hn; simpl.
  - by apply Forall_insert.
  - case_decide; [|by apply Forall_insert].
    destruct (heap !! ((pos - 1) / 2)%nat) as [parent|] eqn:Hp; [|by apply Forall_insert].
    destruct (lt newitem parent); [|by apply Forall_insert].
    apply IH; [|done]. apply Forall_insert; [done|].
    by eapply Forall_lookup_1.
Qed.

Lemma _siftdown_Forall heap startpos pos :
  Forall P heap -> Forall P (_siftdown lt heap startpos pos).
Proof.
  intros Hh. unfold _siftdown.
  destruct (heap !! pos) as [newitem|] eqn:Hp; [|done].
  apply siftdown_loop_Forall; [done|]. by eapply Forall_lookup_1.
Qed.

Lemma heappush_Forall heap item :
  Forall P heap -> P item -> Forall P (heappush lt heap item).
Proof.
  intros Hh Hi. apply _siftdown_Forall, Forall_app. by split; [|constructor].
Qed.

Lemma siftup_loop_Forall rounds : forall heap endpos pos,
  Forall P heap -> Forall P (siftup_loop lt rounds heap endpos pos).1.
Proof.
  induction rounds as [|rounds IH]; intros heap endpos pos Hh; [done|].
  cbn [siftup_loop]. case_decide; [|done].
  destruct (heap !! smaller_child lt heap (2 * pos + 1)) as [c|] eqn:Hc; [|done].
  apply IH, Forall_insert; [done|]. by eapply Forall_lookup_1.
Qed.

Lemma _siftup_Forall heap pos : Forall P heap -> Forall P (_siftup lt heap pos).
Proof.
  intros Hh. unfold _siftup.
  destruct (heap !! pos) as [newitem|] eqn:Hp; [|done].
  pose proof (siftup_loop_Forall (length heap) heap (length heap) pos Hh) as Hu.
  destruct (siftup_loop lt (length heap) heap (length heap) pos) as [heap' hole].
  simpl in Hu. apply _siftdown_Forall, Forall_insert; [done|].
  exact (Forall_lookup_1 _ _ _ _ Hh Hp).
Qed.

Lemma heappop_None heap : heappop lt heap = None <-> heap = [].
Proof.
  unfold heappop. split.
  - destruct (last heap) eqn:Hl.
    + by destruct (removelast heap).
    + intros _. by apply last_None.
  - by intros ->.
Qed.

Lemma heappop_Forall heap item heap' :
  heappop lt heap = Some (item, heap') -> Forall P heap -> P item /\ Forall P heap'.
Proof.
  unfold heappop. intros Hpop Hh.
  destruct (last heap) as [lastelt|] eqn:Hl; [|done].
  assert (Hsplit : heap = removelast heap ++ [lastelt]).
  { destruct (last_Some heap lastelt) as [Hx _]. destruct (Hx Hl) as [l' ->].
    by rewrite removelast_last. }
  rewrite Hsplit in Hh. apply Forall_app in Hh as [Hinit Hlast].
  apply Forall_cons_1 in Hlast as [Hlast _].
  destruct (removelast heap) as [|returnitem rest] eqn:Hr.
  - injection Hpop as <- <-. by split.
  - injection Hpop as <- <-. apply Forall_cons_1 in Hinit as [Hret Hrest].
    split; [done|]. apply _siftup_Forall. by constructor.
Qed.

End heapq_facts.

(** ** heapq keeps the heap order *)

Lemma parent_of_cases (i : nat) :
  (0 < i)%nat -> i = (2 * parent_of i + 1)%nat \/ i = (2 * parent_of i + 2)%nat.
Proof.
  intros Hi. unfold parent_of. pose proof (Nat.div_mod_eq (i - 1) 2) as Hd.
  pose proof (Nat.mod_upper_bound (i - 1) 2 ltac:(lia)) as Hm. lia.
Qed.

Lemma parent_of_lt (i : nat) : (0 < i)%nat -> (parent_of i < i)%nat.
Proof. intros Hi. destruct (parent_of_cases i Hi); lia. Qed.

Lemma parent_of_child (pos c : nat) :
  c = (2 * pos + 1)%nat \/ c = (2 * pos + 2)%nat -> parent_of c = pos.
Proof.
  intros Hc. assert (Hpos : (0 < c)%nat) by lia.
  destruct (parent_of_cases c Hpos); lia.
Qed.

Section heap_order_facts.
Context {A : Type} (key : A -> Z).

Local Abbreviation lt := (fun a b : A => key a <? key b).

Lemma rising_heap_ok (h : list A) (pos : nat) :
  rising key h pos ->
  (pos = 0%nat \/
   forall x p, h !! pos = Some x -> h !! parent_of pos = Some p -> key p <= key x) ->
  heap_ok key h.
Proof.
  intros [Hedges _] Hpos i x p Hi Hx Hp.
  destruct (decide (i = pos)) as [->|Hne]; [|by eapply Hedges].
  destruct Hpos as [->|Hpos]; [lia|by eapply Hpos].
Qed.

Lemma rising_step (heap : list A) (pos : nat) (newitem parent : A) :
  (0 < pos)%nat -> (pos < length heap)%nat ->
  heap !! parent_of pos = Some parent ->
  key newitem < key parent ->
  rising key (<[pos := newitem]> heap) pos ->
  rising key (<[parent_of pos := newitem]> (<[pos := parent]> heap)) (parent_of pos).
Proof.
  intros Hpos Hlen Hparent Hlt [Hedges Hbelow].
  pose proof (parent_of_lt pos Hpos) as Hpp.
  assert (Hup : <[pos := newitem]> heap !! parent_of pos = Some parent)
    by (rewrite list_lookup_insert_ne by lia; done).
  assert (Hat : <[pos := newitem]> heap !! pos = Some newitem)
    by (by apply list_lookup_insert_eq).
  assert (Hkeep : forall i x, i <> pos -> i <> parent_of pos ->
            <[parent_of pos := newitem]> (<[pos := parent]> heap) !! i = Some x ->
            <[pos := newitem]> heap !! i = Some x).
  { intros i x H1 H2. by rewrite !list_lookup_insert_ne by done. }
  assert (Hnew_pp : forall x,
            <[parent_of pos := newitem]> (<[pos := parent]> heap) !! parent_of pos = Some x ->
            x = newitem).
  { intros x. rewrite list_lookup_insert_eq by (rewrite length_insert; lia). congruence. }
  assert (Hnew_pos : forall x,
            <[parent_of pos := newitem]> (<[pos := parent]> heap) !! pos = Some x ->
            x = parent).
  { intros x. rewrite list_lookup_insert_ne by lia.
    rewrite list_lookup_insert_eq by lia. congruence. }
  split.
  - intros i x p Hi Hne Hx Hp.
    destruct (decide (i = pos)) as [->|Hnpos].
    + apply Hnew_pos in Hx as ->. apply Hnew_pp in Hp as ->. lia.
    + apply Hkeep in Hx; [|done|done].
      destruct (decide (parent_of i = pos)) as [Hpi|Hnpi].
      * rewrite Hpi in Hp. apply Hnew_pos in Hp as ->.
        by eapply (Hbelow i x parent).
      * destruct (decide (parent_of i = parent_of pos)) as [Hpi'|Hnpi'].
        -- rewrite Hpi' in Hp. apply Hnew_pp in Hp as ->.
           assert (key parent <= key x); [|lia].
           eapply (Hedges i x parent); [done|done|done|]. by rewrite Hpi'.
        -- apply Hkeep in Hp; [|done|done]. by eapply Hedges.
  - intros c x g Hpp0 Hc Hpc Hx Hg.
    pose proof (parent_of_lt (parent_of pos) Hpp0) as Hgp.
    apply Hkeep in Hg; [|lia|lia].
    assert (Hpg : key g <= key parent).
    { eapply (Hedges (parent_of pos) parent g); [done|lia|done|done]. }
    destruct (decide (c = pos)) as [->|Hnpos].
    + apply Hnew_pos in Hx as ->. done.
    + assert (c <> parent_of pos) by (pose proof (parent_of_lt c Hc); lia).
      apply Hkeep in Hx; [|done|done].
      assert (key parent <= key x); [|lia].
      eapply (Hedges c x parent); [done|done|done|]. by rewrite Hpc.
Qed.

Lemma siftdown_loop_spec (rounds : nat) : forall (heap : list A) (pos : nat) (newitem : A),
  (pos <= rounds)%nat -> (pos < length heap)%nat ->
  rising key (<[pos := newitem]> heap) pos ->
  heap_ok key (siftdown_loop lt rounds heap 0 pos newitem) /\
  siftdown_loop lt rounds heap 0 pos newitem ≡ₚ <[pos := newitem]> heap.
Proof.
  induction rounds as [|rounds IH]; intros heap pos newitem Hr Hlen Hrise; cbn [siftdown_loop].
  - split; [|done]. eapply rising_heap_ok; [done|left; lia].
  - case_decide as Hpos; [|split; [|done]; eapply rising_heap_ok; [done|left; lia]].
    pose proof (parent_of_lt pos Hpos) as Hpp. fold (parent_of pos).
    destruct (lookup_lt_is_Some_2 heap (parent_of pos) ltac:(lia)) as [parent Hparent].
    rewrite Hparent. destruct (key newitem <? key parent) eqn:Hlt.
    + apply Z.ltb_lt in Hlt.
      destruct (IH (<[pos := parent]> heap) (parent_of pos) newitem) as [Hok Hperm].
      * lia.
      * rewrite length_insert. lia.
      * by apply rising_step.
      * split; [done|]. rewrite Hperm.
        rewrite <- (list_insert_insert_eq heap pos parent newitem).
        apply Permutation_insert_swap.
        -- by apply list_lookup_insert_eq.
        -- rewrite list_lookup_insert_ne by lia. done.
    + apply Z.ltb_ge in Hlt. split; [|done].
      eapply rising_heap_ok; [done|]. right. intros x p Hx Hp.
      rewrite list_lookup_insert_eq in Hx by done.
      rewrite list_lookup_insert_ne in Hp by lia. congruence.
Qed.

Lemma heappush_spec (heap : list A) (item : A) :
  heap_ok key heap ->
  heap_ok key (heappush lt heap item) /\ heappush lt heap item ≡ₚ item :: heap.
Proof.
  intros Hok. unfold heappush, _siftdown.
  rewrite list_lookup_middle by done.
  destruct (siftdown_loop_spec (length heap) (heap ++ [item]) (length heap) item) as [H1 H2].
  - done.
  - rewrite length_app. simpl. lia.
  - rewrite list_insert_id by (by apply list_lookup_middle). split.
    + intros i x p Hi Hne Hx Hp.
      assert (Hlt : (i < length heap)%nat).
      { apply lookup_lt_Some in Hx. rewrite length_app in Hx. simpl in Hx. lia. }
      rewrite lookup_app_l in Hx by done.
      rewrite lookup_app_l in Hp by (pose proof (parent_of_lt i Hi); lia).
      by eapply Hok.
    + intros c x g _ Hc Hpc Hx _.
      apply lookup_lt_Some in Hx. rewrite length_app in Hx. simpl in Hx.
      destruct (parent_of_cases c Hc); lia.
  - split; [done|]. rewrite H2.
    rewrite list_insert_id by (by apply list_lookup_middle).
    by rewrite Permutation_app_comm.
Qed.

Lemma smaller_child_cases (heap : list A) (pos : nat) :
  smaller_child lt heap (2 * pos + 1) = (2 * pos + 1)%nat \/
  smaller_child lt heap (2 * pos + 1) = (2 * pos + 2)%nat /\
  (2 * pos + 2 < length heap)%nat.
Proof.
  unfold smaller_child.
  destruct (heap !! (2 * pos + 1)%nat) as [l|]; [|by left].
  destruct (heap !! (2 * pos + 1 + 1)%nat) as [r|] eqn:Hr; [|by left].
  destruct (negb (key l <? key r)); [|by left].
  right. split; [lia|]. apply lookup_lt_Some in Hr. lia.
Qed.

Lemma smaller_child_le (heap : list A) (pos c : nat) (x y : A) :
  c = (2 * pos + 1)%nat \/ c = (2 * pos + 2)%nat ->
  heap !! c = Some x ->
  heap !! smaller_child lt heap (2 * pos + 1) = Some y ->
  key y <= key x.
Proof.
  unfold smaller_child. intros Hc Hx.
  replace (2 * pos + 2)%nat with (2 * pos + 1 + 1)%nat in Hc by lia.
  destruct (heap !! (2 * pos + 1)%nat) as [l|] eqn:Hl.
  - destruct (heap !! (2 * pos + 1 + 1)%nat) as [r|] eqn:Hr.
    + destruct (key l <? key r) eqn:Hlr; cbn [negb].
      * apply Z.ltb_lt in Hlr. rewrite Hl. intros [= <-].
        destruct Hc as [->| ->]; assert (Some x = Some l \/ Some x = Some r) as [[= ->]|[= ->]]
          by (rewrite <- Hx; auto); lia || congruence.
      * apply Z.ltb_ge in Hlr. rewrite Hr. intros [= <-].
        destruct Hc as [->| ->]; assert (Some x = Some l \/ Some x = Some r) as [[= ->]|[= ->]]
          by (rewrite <- Hx; auto); lia || congruence.
    + rewrite Hl. intros [= <-]. destruct Hc as [->| ->]; [|congruence].
      assert (x = l) by congruence. subst. lia.
  - rewrite Hl. done.
Qed.

Lemma sinking_step (heap : list A) (pos : nat) (c : A) :
  let cp := smaller_child lt heap (2 * pos + 1) in
  heap !! cp = Some c ->
  sinking key heap pos ->
  sinking key (<[pos := c]> heap) cp.
Proof.
  intros cp Hc [Hedges Hbelow].
  assert (Hcp : cp = (2 * pos + 1)%nat \/ cp = (2 * pos + 2)%nat)
    by (destruct (smaller_child_cases heap pos) as [?|[? _]]; [by left|by right]).
  assert (Hpcp : parent_of cp = pos) by by apply parent_of_child.
  assert (Hlen : (pos < length heap)%nat) by (apply lookup_lt_Some in Hc; lia).
  split.
  - intros i x p Hi Hne Hnp Hx Hp.
    destruct (decide (i = pos)) as [->|Hnpos].
    + rewrite list_lookup_insert_eq in Hx by done. injection Hx as <-.
      rewrite list_lookup_insert_ne in Hp by (pose proof (parent_of_lt pos Hi); lia).
      eapply (Hbelow cp c p); [done|lia|done|done|done].
    + rewrite list_lookup_insert_ne in Hx by done.
      destruct (decide (parent_of i = pos)) as [Hpi|Hnpi].
      * rewrite Hpi, list_lookup_insert_eq in Hp by done. injection Hp as <-.
        eapply (smaller_child_le heap pos i x c); [|done|done].
        destruct (parent_of_cases i Hi); lia.
      * rewrite list_lookup_insert_ne in Hp by done. by eapply Hedges.
  - intros d x g Hcp0 Hd Hpd Hx Hg.
    rewrite Hpcp, list_lookup_insert_eq in Hg by done. injection Hg as <-.
    assert (d <> pos) by (pose proof (parent_of_lt d Hd); lia).
    rewrite list_lookup_insert_ne in Hx by done.
    eapply (Hedges d x c); [done|done|lia|done|by rewrite Hpd].
Qed.

Lemma siftup_loop_spec (rounds : nat) : forall (heap : list A) (pos : nat) (newitem : A),
  (length heap <= rounds + pos)%nat -> (pos < length heap)%nat ->
  sinking key heap pos ->
  let '(heap', hole) := siftup_loop lt rounds heap (length heap) pos in
  sinking key heap' hole /\ (hole < length heap')%nat /\
  (length heap' <= 2 * hole + 1)%nat /\
  <[hole := newitem]> heap' ≡ₚ <[pos := newitem]> heap.
Proof.
  induction rounds as [|rounds IH]; intros heap pos newitem Hr Hlen Hsink;
    cbn [siftup_loop]; [lia|].
  case_decide as Hchild; [|split; [done|]; split; [done|]; split; [lia|done]].
  pose proof (smaller_child_cases heap pos) as Hcp.
  pose proof (sinking_step heap pos) as Hstep. cbv zeta in Hstep.
  remember (smaller_child lt heap (2 * pos + 1)) as cp eqn:Hcpdef.
  assert (Hcplt : (cp < length heap)%nat) by lia.
  destruct (lookup_lt_is_Some_2 heap cp Hcplt) as [c Hc]. rewrite Hc.
  pose proof (IH (<[pos := c]> heap) cp newitem) as Hnext.
  rewrite length_insert in Hnext.
  destruct (siftup_loop lt rounds (<[pos := c]> heap) (length heap) cp) as [heap' hole].
  destruct Hnext as (H1 & H2 & H3 & H4); [lia|lia|by apply Hstep|].
  split; [done|]. split; [done|]. split; [done|]. rewrite H4.
  rewrite <- (list_insert_insert_eq heap pos c newitem).
  apply Permutation_insert_swap.
  - by apply list_lookup_insert_eq.
  - rewrite list_lookup_insert_ne by lia. done.
Qed.

Lemma _siftup_spec (heap : list A) :
  (0 < length heap)%nat -> sinking key heap 0 ->
  heap_ok key (_siftup lt heap 0) /\ _siftup lt heap 0 ≡ₚ heap.
Proof.
  intros Hlen Hsink. unfold _siftup.
  destruct (lookup_lt_is_Some_2 heap 0 Hlen) as [newitem Hnew]. rewrite Hnew.
  pose proof (siftup_loop_spec (length heap) heap 0 newitem ltac:(lia) Hlen Hsink) as Hdown.
  destruct (siftup_loop lt (length heap) heap (length heap) 0) as [heap' hole].
  destruct Hdown as ([Hedges Hbelow] & Hhole & Hleaf & Hperm).
  unfold _siftdown. rewrite list_lookup_insert_eq by done.
  destruct (siftdown_loop_spec hole (<[hole := newitem]> heap') hole newitem) as [Hok Hperm'].
  - done.
  - by rewrite length_insert.
  - rewrite list_insert_insert_eq. split.
    + intros i x p Hi Hne Hx Hp.
      assert (Hnp : parent_of i <> hole).
      { intros Hpi. apply lookup_lt_Some in Hx. rewrite length_insert in Hx.
        destruct (parent_of_cases i Hi); lia. }
      rewrite list_lookup_insert_ne in Hx by done.
      rewrite list_lookup_insert_ne in Hp by done. by eapply Hedges.
    + intros c x g _ Hc Hpc Hx _.
      apply lookup_lt_Some in Hx. rewrite length_insert in Hx.
      destruct (parent_of_cases c Hc); lia.
  - split; [done|]. rewrite Hperm', list_insert_insert_eq, Hperm.
    by rewrite list_insert_id.
Qed.

Lemma heap_ok_root (h : list A) (root : A) :
  heap_ok key h -> h !! 0%nat = Some root ->
  forall i x, h !! i = Some x -> key root <= key x.
Proof.
  intros Hok Hroot i. induction (lt_wf i) as [i _ IH]. intros x Hx.
  destruct (decide (i = 0%nat)) as [->|Hne]; [assert (x = root) by congruence; subst; lia|].
  pose proof (parent_of_lt i ltac:(lia)) as Hlt.
  destruct (lookup_lt_is_Some_2 h (parent_of i)) as [p Hp].
  { apply lookup_lt_Some in Hx. lia. }
  pose proof (IH (parent_of i) Hlt p Hp).
  pose proof (Hok i x p ltac:(lia) Hx Hp). lia.
Qed.

Lemma heappop_spec (heap : list A) (item : A) (heap' : list A) :
  heap_ok key heap ->
  heappop lt heap = Some (item, heap') ->
  heap_ok key heap' /\ heap ≡ₚ item :: heap' /\
  forall x, x ∈ heap -> key item <= key x.
Proof.
  intros Hok. unfold heappop.
  destruct (last heap) as [lastelt|] eqn:Hl; [|done].
  assert (Hsplit : heap = removelast heap ++ [lastelt]).
  { destruct (last_Some heap lastelt) as [Hx _]. destruct (Hx Hl) as [l' ->].
    by rewrite removelast_last. }
  destruct (removelast heap) as [|returnitem rest] eqn:Hr.
  - intros [= <- <-]. rewrite Hsplit. split; [by intros i x p Hi Hx|].
    split; [done|]. intros x Hx. apply list_elem_of_singleton in Hx as ->. lia.
  - intros [= <- <-]. cbn [insert list_insert].
    assert (Hmin : forall x, x ∈ heap -> key returnitem <= key x).
    { intros x [i Hi]%list_elem_of_lookup.
      apply (heap_ok_root heap returnitem Hok) with (i := i); [|done].
      by rewrite Hsplit. }
    destruct (_siftup_spec (lastelt :: rest)) as [Hok' Hperm].
    + simpl. lia.
    + split; [|intros c x g Hpos; lia].
      intros i x p Hi _ Hnp Hx Hp.
      assert (Hpi : (0 < parent_of i)%nat) by lia.
      assert (Hlen : (i < length (returnitem :: rest))%nat)
        by (apply lookup_lt_Some in Hx; simpl in *; lia).
      apply (Hok i x p Hi); rewrite Hsplit.
      * rewrite lookup_app_l by done. destruct i; [lia|done].
      * rewrite lookup_app_l by (pose proof (parent_of_lt i Hi); lia).
        destruct (parent_of i); [lia|done].
    + split; [done|]. split; [|done].
      rewrite Hperm, Hsplit. simpl. constructor. by rewrite Permutation_app_comm.
Qed.

End heap_order_facts.

(** ** The single-agent search *)

Section astar_facts.
Variable map_width : Z.
Variables (m : Map) (goal : State) (cs : option Constraints).

Let loop := fun fuel (oc : list State * gmap Z State) =>
  AStar.search_loop map_width fuel m goal cs oc.1 oc.2.


Lemma search_loop_reached oc nodes OPEN' CLOSED' node OPEN'' fuel :
  AStar.expands map_width m goal cs oc nodes (OPEN', CLOSED') ->
  heappop State_lt OPEN' = Some (node, OPEN'') ->
  is_goal node goal = true ->
  (length nodes < fuel)%nat ->
  loop fuel oc
  = Done ((get_g node, Some (AStar._recover_path node)), (OPEN'', CLOSED')).
Proof.
  intros Hex. revert fuel. remember (OPEN', CLOSED') as oc' eqn:Hoc'.
  induction Hex as [oc|OPEN CLOSED n OPEN1 nodes oc' Hpop Hgoal Hex IH];
    intros fuel Hpop' Hgoal' Hfuel; (destruct fuel as [|fuel]; [simpl in Hfuel; lia|]);
    subst loop; simpl in *.
  - subst oc. simpl. by rewrite Hpop', Hgoal'.
  - rewrite Hpop, Hgoal.
    destruct (AStar.expand map_width m goal cs n (OPEN1, CLOSED)) as [O C] eqn:He.
    apply (IH Hoc' fuel); [done|done|lia].
Qed.

Lemma search_loop_Done fuel : forall oc r oc',
  loop fuel oc = Done (r, oc') ->
  exists nodes OPEN' CLOSED',
    AStar.expands map_width m goal cs oc nodes (OPEN', CLOSED') /\
    (length nodes < fuel)%nat /\
    ((OPEN' = [] /\ r = (-1, None) /\ oc' = ([], CLOSED')) \/
     (exists node OPEN'',
        heappop State_lt OPEN' = Some (node, OPEN'') /\
        is_goal node goal = true /\
        r = (get_g node, Some (AStar._recover_path node)) /\
        oc' = (OPEN'', CLOSED'))).
Proof.
  subst loop. induction fuel as [|fuel IH]; intros [OPEN CLOSED] r oc' Hrun;
    simpl in *; [done|].
  destruct (heappop State_lt OPEN) as [[node OPEN1]|] eqn:Hpop.
  - destruct (is_goal node goal) eqn:Hgoal.
    + injection Hrun as <- <-. exists [], OPEN, CLOSED.
      split; [constructor|]. split; [simpl; lia|]. right. by exists node, OPEN1.
    + destruct (AStar.expand map_width m goal cs node (OPEN1, CLOSED)) as [O C] eqn:He.
      destruct (IH (O, C) r oc' Hrun) as (nodes & O' & C' & Hex & Hlen & Hres).
      exists (node :: nodes), O', C'. split; [|split; [simpl; lia|done]].
      econstructor; [done|done|]. by rewrite He.
  - injection Hrun as <- <-. apply heappop_None in Hpop as ->.
    exists [], [], CLOSED. split; [constructor|]. split; [simpl; lia|]. by left.
Qed.

(** Everything in the queue was generated from the start. *)
Variable start : State.

Let gen := AStar.generated m goal cs start.

Lemma expand_child_generated node OPEN CLOSED child :
  gen node -> child ∈ successors m node cs -> Forall gen OPEN ->
  Forall gen (AStar.expand_child map_width goal node (OPEN, CLOSED) child).1.
Proof.
  intros Hnode Hchild Hopen. unfold AStar.expand_child.
  set (c := set_parent (AStar.compute_cost goal child) (Some node)).
  assert (Hc : gen c) by by apply AStar.generated_child.
  destruct (CLOSED !! State_hash map_width child) as [reached|] eqn:Hlook.
  - rewrite Hlook. destruct (_ <? _); [|done]. by apply heappush_Forall.
  - rewrite lookup_insert_eq, Z.ltb_irrefl. by apply heappush_Forall.
Qed.

Lemma expand_generated node OPEN CLOSED :
  gen node -> Forall gen OPEN ->
  Forall gen (AStar.expand map_width m goal cs node (OPEN, CLOSED)).1.
Proof.
  intros Hnode. unfold AStar.expand.
  assert (Hsub : forall c, c ∈ successors m node cs -> c ∈ successors m node cs) by done.
  revert OPEN CLOSED Hsub.
  generalize (successors m node cs) at 1 3 as children.
  induction children as [|child children IH]; intros OPEN CLOSED Hsub Hopen; [done|].
  cbn [fold_left].
  pose proof (expand_child_generated node OPEN CLOSED child Hnode
                (Hsub child (list_elem_of_here _ _)) Hopen) as Hstep.
  destruct (AStar.expand_child map_width goal node (OPEN, CLOSED) child) as [O C].
  apply IH; [|done]. intros c Hc. apply Hsub. by apply list_elem_of_further.
Qed.

Lemma expands_generated oc nodes oc' :
  AStar.expands map_width m goal cs oc nodes oc' ->
  Forall gen oc.1 -> Forall gen oc'.1 /\ Forall gen nodes.
Proof.
  induction 1 as [oc|OPEN CLOSED node OPEN' nodes oc' Hpop Hgoal Hex IH]; intros Hopen.
  - by split.
  - simpl in Hopen. destruct (heappop_Forall _ _ _ _ _ Hpop Hopen) as [Hnode Hrest].
    destruct IH as [Hfinal Hnodes].
    + by apply expand_generated.
    + split; [done|]. by constructor.
Qed.

Lemma entry_generated : Forall gen (AStar.entry map_width start goal).1.
Proof.
  unfold AStar.entry. simpl. apply heappush_Forall; [constructor|].
  apply AStar.generated_start.
Qed.

End astar_facts.

(** ** Paths recovered from generated states *)

Section generated_facts.
Variables (m : Map) (goal : State) (cs : option Constraints) (start : State).

Let gen := AStar.generated m goal cs start.
Local Abbreviation start' := (AStar.compute_cost goal start).

Lemma parents_head node : head (AStar.parents node) = Some node.
Proof. by destruct node as [? ? ? ? [p|]]. Qed.

Lemma parents_set_parent s p :
  AStar.parents (set_parent s (Some p)) = set_parent s (Some p) :: AStar.parents p.
Proof. done. Qed.

Lemma parents_start : get_parent start = None -> AStar.parents start' = [start'].
Proof. destruct start as [? ? ? ? [p|]]; [done|]. by intros _. Qed.

Lemma generated_last node :
  get_parent start = None -> gen node -> last (AStar.parents node) = Some start'.
Proof.
  intros Hp. induction 1 as [|parent child Hgen IH Hchild].
  - by rewrite parents_start.
  - rewrite parents_set_parent.
    destruct (AStar.parents parent) as [|a l] eqn:Hl; [done|].
    by rewrite last_cons_cons.
Qed.

Lemma generated_steps node :
  get_parent start = None -> gen node ->
  forall i a b,
    AStar.parents node !! S i = Some a -> AStar.parents node !! i = Some b ->
    AStar.step m goal cs a b.
Proof.
  intros Hp. induction 1 as [|parent child Hgen IH Hchild]; intros i a b Ha Hb.
  - by rewrite parents_start in Ha.
  - rewrite parents_set_parent in Ha, Hb. destruct i as [|i]; simpl in *.
    + pose proof (parents_head parent) as Hh. rewrite head_lookup, Ha in Hh.
      simplify_eq. by exists child.
    + by eapply IH.
Qed.

Lemma generated_g node :
  (forall n child, child ∈ successors m n cs -> get_g child = get_g n + 1) ->
  get_parent start = None -> gen node ->
  get_g node = get_g start + Z.of_nat (length (AStar.parents node)) - 1.
Proof.
  intros Hg Hp. induction 1 as [|parent child Hgen IH Hchild].
  - rewrite parents_start by done. simpl. lia.
  - rewrite parents_set_parent. cbn [length]. simpl get_g.
    rewrite (Hg _ _ Hchild), IH. lia.
Qed.

Lemma generated_permitted node :
  (forall n child, child ∈ successors m n cs ->
     forbidden cs (get_x child, get_y child) (get_g child) = false) ->
  gen node ->
  node = start' \/ forbidden cs (get_x node, get_y node) (get_g node) = false.
Proof.
  intros Hr. destruct 1 as [|parent child Hgen Hchild]; [by left|].
  right. exact (Hr parent child Hchild).
Qed.

(** The recovered path, read from the start. *)
Lemma recover_path_facts node :
  get_parent start = None -> gen node ->
  let path := AStar._recover_path node in
  head path = Some start' /\ last path = Some node /\
  forall i a b, path !! i = Some a -> path !! S i = Some b -> AStar.step m goal cs a b.
Proof.
  intros Hp Hgen path. subst path. unfold AStar._recover_path.
  rewrite head_reverse, last_reverse, parents_head.
  split; [by apply generated_last|]. split; [done|].
  intros i a b Ha Hb.
  assert (Hi : (S i < length (AStar.parents node))%nat).
  { apply lookup_lt_Some in Hb. by rewrite length_reverse in Hb. }
  rewrite reverse_lookup in Ha by lia. rewrite reverse_lookup in Hb by lia.
  apply (generated_steps node Hp Hgen (length (AStar.parents node) - S (S i))); [|done].
  rewrite <- Ha. f_equal. lia.
Qed.

End generated_facts.

(** ** The map modelled on the expansion rule *)

Section gridded_facts.
Variables (width height : Z) (is_blocked : Z -> Z -> bool).

Lemma gridded_successors_inv node cs child :
  child ∈ gridded_successors width height is_blocked node cs ->
  get_g child = get_g node + 1 /\ get_parent child = None /\
  forbidden cs (get_x child, get_y child) (get_g child) = false /\
  0 <= get_x child < width /\ 0 <= get_y child < height /\
  is_blocked (get_x child) (get_y child) = false.
Proof.
  unfold gridded_successors. intros Hin.
  apply list_elem_of_fmap in Hin as ([cx cy] & -> & Hin).
  apply list_elem_of_filter in Hin as [Hkeep _]. simpl in *.
  repeat (apply andb_prop in Hkeep as [Hkeep ?]).
  repeat match goal with H : negb _ = true |- _ => apply negb_true_iff in H end.
  repeat split; try done; lia.
Qed.

Lemma gridded_successors_g node cs child :
  child ∈ successors (gridded_map width height is_blocked) node cs ->
  get_g child = get_g node + 1.
Proof. intros Hin. by apply gridded_successors_inv in Hin as (? & _). Qed.

Lemma gridded_successors_permitted node cs child :
  child ∈ successors (gridded_map width height is_blocked) node cs ->
  forbidden cs (get_x child, get_y child) (get_g child) = false.
Proof. intros Hin. by apply gridded_successors_inv in Hin as (_ & _ & ? & _). Qed.

End gridded_facts.

(** ** What [AStar.search] returns *)

Section search_facts.
Variable map_width : Z.

Lemma search_unfold fuel self start goal cs :
  AStar.search map_width fuel self start goal cs
  = '(result, (OPEN, CLOSED)) ←
      AStar.search_loop map_width fuel (AStar.map self) goal cs
        (AStar.entry map_width start goal).1 (AStar.entry map_width start goal).2;
    mret (result, AStar.mk (AStar.map self) OPEN CLOSED
                    (Some (AStar.compute_cost goal start)) (Some goal)).
Proof. done. Qed.

Lemma returned_search fuel self start goal cs r :
  AStar.returned (AStar.search map_width fuel self start goal cs) = Done r <->
  exists oc, AStar.search_loop map_width fuel (AStar.map self) goal cs
               (AStar.entry map_width start goal).1 (AStar.entry map_width start goal).2
             = Done (r, oc).
Proof.
  rewrite search_unfold. unfold AStar.returned.
  destruct (AStar.search_loop _ _ _ _ _ _ _) as [[r' [O C]]|e|]; simpl.
  - split; [intros [= ->]; by eexists|intros [oc [= -> _]]; done].
  - split; [done|by intros [? ?]].
  - split; [done|by intros [? ?]].
Qed.

Lemma search_map fuel self start goal cs r self' :
  AStar.search map_width fuel self start goal cs = Done (r, self') ->
  AStar.map self' = AStar.map self.
Proof.
  rewrite search_unfold.
  destruct (AStar.search_loop _ _ _ _ _ _ _) as [[r' [O C]]|e|]; simpl; [|done|done].
  by intros [= _ <-].
Qed.


(** The goal enters the search through its cell only. *)
Lemma compute_cost_goal_cell goal goal' s :
  get_x goal = get_x goal' -> get_y goal = get_y goal' ->
  AStar.compute_cost goal s = AStar.compute_cost goal' s.
Proof. unfold AStar.compute_cost, get_heuristic. by intros -> ->. Qed.

Lemma expand_goal_cell m goal goal' cs node oc :
  get_x goal = get_x goal' -> get_y goal = get_y goal' ->
  AStar.expand map_width m goal cs node oc = AStar.expand map_width m goal' cs node oc.
Proof.
  intros Hx Hy. unfold AStar.expand. revert oc.
  induction (successors m node cs) as [|child children IH]; intros oc; [done|].
  cbn [fold_left]. rewrite IH. f_equal. destruct oc as [O C].
  unfold AStar.expand_child. by rewrite (compute_cost_goal_cell goal goal').
Qed.

Lemma search_loop_goal_cell m goal goal' cs fuel : forall OPEN CLOSED,
  get_x goal = get_x goal' -> get_y goal = get_y goal' ->
  AStar.search_loop map_width fuel m goal cs OPEN CLOSED
  = AStar.search_loop map_width fuel m goal' cs OPEN CLOSED.
Proof.
  induction fuel as [|fuel IH]; intros OPEN CLOSED Hx Hy; [done|]. simpl.
  destruct (heappop State_lt OPEN) as [[node O]|]; [|done].
  unfold is_goal. rewrite <- Hx, <- Hy.
  destruct (_ && _); [done|].
  rewrite <- (expand_goal_cell m goal goal') by done.
  destruct (AStar.expand map_width m goal cs node (O, CLOSED)) as [O' C'].
  by apply IH.
Qed.

Lemma returned_search_goal_g fuel self start goal cs t :
  AStar.returned (AStar.search map_width fuel self start (set_g goal t) cs)
  = AStar.returned (AStar.search map_width fuel self start goal cs).
Proof.
  rewrite !search_unfold. unfold AStar.entry.
  rewrite (compute_cost_goal_cell (set_g goal t) goal) by done.
  rewrite (search_loop_goal_cell _ (set_g goal t) goal) by done.
  unfold AStar.returned.
  by destruct (AStar.search_loop _ _ _ _ _ _ _) as [[r' [O C]]|e|].
Qed.

End search_facts.


(** C4 (amended). The search succeeds exactly when the state it pops is
    on the goal's cell, whatever the state's timestep and whatever the
    goal's own [g]. A state the map generated is never on a cell
    forbidden at its time, so the search keeps going until a permitted
    arrival is popped; only the start, which is queued without being
    checked against the constraints, can end a returned path on a
    forbidden (cell, time). *)
Theorem search_goal_test
    (map_width : Z) (self : AStar.t) (start goal : State) (cs : option Constraints) :
  (forall n child, child ∈ successors (AStar.map self) n cs ->
     forbidden cs (get_x child, get_y child) (get_g child) = false) ->
  let m := AStar.map self in
  let oc0 := AStar.entry map_width start goal in
  let run fuel := AStar.returned (AStar.search map_width fuel self start goal cs) in
  (forall nodes OPEN' CLOSED' node OPEN'' fuel,
     AStar.expands map_width m goal cs oc0 nodes (OPEN', CLOSED') ->
     heappop State_lt OPEN' = Some (node, OPEN'') ->
     get_x node = get_x goal -> get_y node = get_y goal ->
     (length nodes < fuel)%nat ->
     run fuel = Done (get_g node, Some (AStar._recover_path node))) /\
  (forall fuel c p,
     run fuel = Done (c, Some p) ->
     exists nodes OPEN' CLOSED' node OPEN'',
       AStar.expands map_width m goal cs oc0 nodes (OPEN', CLOSED') /\
       heappop State_lt OPEN' = Some (node, OPEN'') /\
       get_x node = get_x goal /\ get_y node = get_y goal /\
       c = get_g node /\ last p = Some node /\
       (forbidden cs (get_x node, get_y node) (get_g node) = true ->
        node = AStar.compute_cost goal start)) /\
  (forall fuel t,
     AStar.returned (AStar.search map_width fuel self start (set_g goal t) cs) = run fuel).
Proof.
  intros Hperm m oc0 run. subst run. split; [|split].
  - intros nodes OPEN' CLOSED' node OPEN'' fuel Hex Hpop Hx Hy Hfuel. apply returned_search.
    eexists. apply (search_loop_reached map_width m goal cs oc0 nodes OPEN' CLOSED' node
                      OPEN'' fuel Hex Hpop); [|done].
    unfold is_goal. rewrite Hx, Hy, !Z.eqb_refl. done.
  - intros fuel c p Hrun. apply returned_search in Hrun as [oc' Hrun].
    apply (search_loop_Done map_width m goal cs fuel oc0) in Hrun
      as (nodes & OPEN' & CLOSED' & Hex & Hlen & Hres).
    destruct Hres as [(_ & [=] & _)|(node & OPEN'' & Hpop & Hgoal & [= -> ->] & _)].
    destruct (expands_generated map_width m goal cs start oc0 nodes _ Hex
                (entry_generated map_width m goal cs start)) as [Hopen _].
    destruct (heappop_Forall _ _ _ _ _ Hpop Hopen) as [Hnode _].
    exists nodes, OPEN', CLOSED', node, OPEN''.
    unfold is_goal in Hgoal. apply andb_prop in Hgoal as [Hx%Z.eqb_eq Hy%Z.eqb_eq].
    repeat split; try done.
    + unfold AStar._recover_path. by rewrite last_reverse, parents_head.
    + intros Hforb.
      destruct (generated_permitted m goal cs start node Hperm Hnode) as [->|Hfree]; [done|].
      congruence.
  - intros fuel t. apply returned_search_goal_g.
Qed.

(** C9. A search does not depend on what earlier searches left in the
    instance: two instances on the same map give the same outcome for
    the same arguments, that outcome is the one of a fresh instance, and
    so is the outcome of a search run on the instance an earlier search
    left behind; [OPEN] and [CLOSED] are cleared on entry. *)
Theorem search_ignores_leftovers
    (map_width : Z) (fuel : nat) (a1 a2 : AStar.t) (start goal : State)
    (cs : option Constraints) :
  AStar.map a1 = AStar.map a2 ->
  AStar.search map_width fuel a1 start goal cs = AStar.search map_width fuel a2 start goal cs /\
  AStar.search map_width fuel a1 start goal cs
  = AStar.search map_width fuel (AStar.init (AStar.map a1)) start goal cs /\
  (forall fuel0 start0 goal0 cs0 r0 a1',
     AStar.search map_width fuel0 a1 start0 goal0 cs0 = Done (r0, a1') ->
     AStar.search map_width fuel a1' start goal cs
     = AStar.search map_width fuel (AStar.init (AStar.map a1)) start goal cs).
Proof.
  intros Hmap. rewrite !search_unfold. split; [by rewrite Hmap|]. split; [done|].
  intros fuel0 start0 goal0 cs0 r0 a1' Hprior.
  apply search_map in Hprior. rewrite !search_unfold. by rewrite Hprior.
Qed.


(** C4, as stated, fails where the start already stands on the goal cell
    at a forbidden time: the search returns the one-state path at once,
    and that path ends on a forbidden (cell, time). *)
Lemma search_returns_forbidden_start :
  let start := State_init 0 0 in
  let cs := Some forbid_origin_now in
  AStar.returned (AStar.search 3 5 (AStar.init corridor) start start cs)
  = Done (0, Some [AStar.compute_cost start start]) /\
  forbidden cs (get_x start, get_y start) (get_g start) = true.
Proof. split; vm_compute; reflexivity. Defined.

(** On the corridor, with the goal cell [(1, 0)] forbidden at time 1, the
    search waits one step and arrives at time 2. *)
Lemma search_goal_test_witness :
  let self := AStar.init corridor in
  let start := State_init 0 0 in
  let goal := State_init 1 0 in
  let cs := Some forbid_next_cell in
  summary (AStar.returned (AStar.search 3 5 self start goal cs))
  = Done (2, Some [(0, 0, 0); (0, 0, 1); (1, 0, 2)]) /\
  forbidden cs (1, 0) 1 = true /\
  exists p node,
    AStar.returned (AStar.search 3 5 self start goal cs) = Done (2, Some p) /\
    last p = Some node /\ get_x node = get_x goal /\ get_y node = get_y goal /\
    (forbidden cs (get_x node, get_y node) (get_g node) = true ->
     node = AStar.compute_cost goal start).
Proof.
  intros self start goal cs.
  destruct (search_goal_test 3 self start goal cs
              (fun n child => gridded_successors_permitted 3 1 _ n cs child))
    as (_ & Hsome & _).
  assert (Hsum : summary (AStar.returned (AStar.search 3 5 self start goal cs))
                 = Done (2, Some [(0, 0, 0); (0, 0, 1); (1, 0, 2)]))
    by (vm_compute; reflexivity).
  split; [exact Hsum|]. split; [vm_compute; reflexivity|].
  destruct (AStar.returned (AStar.search 3 5 self start goal cs))
    as [[c [p|]]| |] eqn:Hrun; try discriminate Hsum.
  injection Hsum as -> _.
  destruct (Hsome 5%nat 2 p Hrun)
    as (_ & _ & _ & node & _ & _ & _ & Hx & Hy & _ & Hlast & Hforb).
  exists p, node. repeat split; assumption.
Defined.

(** An instance with a stale state in [OPEN] and in [CLOSED] answers as a
    fresh one. *)
Lemma search_ignores_leftovers_witness :
  let fresh := AStar.init corridor in
  let stale := AStar.mk corridor [State_init 2 0] {[ 7 := State_init 2 0 ]}
                 (Some (State_init 2 0)) (Some (State_init 0 0)) in
  let start := State_init 0 0 in
  let goal := State_init 2 0 in
  AStar.map stale = AStar.map fresh /\
  AStar.search 3 5 stale start goal None = AStar.search 3 5 fresh start goal None /\
  summary (AStar.returned (AStar.search 3 5 stale start goal None))
  = Done (2, Some [(0, 0, 0); (1, 0, 1); (2, 0, 2)]).
Proof.
  intros fresh stale start goal.
  assert (Hmap : AStar.map stale = AStar.map fresh) by reflexivity.
  split; [exact Hmap|].
  split; [exact (proj1 (search_ignores_leftovers 3 5 stale fresh start goal None Hmap))|].
  vm_compute. reflexivity.
Defined.

(** ** The dedup key *)

(** States with in-bounds [x] that [__hash__] encodes by the same pair
    [(y * map_width + x, g)] agree in [x], [y] and [g]. *)
Lemma State_key_inj (map_width : Z) (s1 s2 : State) :
  0 <= get_x s1 < map_width -> 0 <= get_x s2 < map_width ->
  State_key map_width s1 = State_key map_width s2 ->
  get_x s1 = get_x s2 /\ get_y s1 = get_y s2 /\ get_g s1 = get_g s2.
Proof.
  unfold State_key. intros H1 H2 [= Hcell Hg].
  assert (get_y s1 = get_y s2) by nia.
  repeat split; [nia|done|done].
Qed.

(** C8. The key is not collision-free, against the docstring of
    [__hash__] ("no two states will have the same hash value"): on a
    one-cell map, the in-bounds states at [(0, 0)] with [g = 0] and
    [g = 2^61 - 1] differ in [g], are not [==] and are encoded by
    different pairs, yet have the same hash, since
    [hash(2**61 - 1) == hash(0)]; with the first filed in [CLOSED], the
    child loop of [search] takes the second for reached already and
    drops it. *)
Theorem State_hash_collision :
  let s1 := State_init 0 0 in
  let s2 := set_g (State_init 0 0) (2 ^ 61 - 1) in
  let CLOSED : gmap Z State := {[ State_hash 1 s1 := s1 ]} in
  (0 <= get_x s1 < 1 /\ 0 <= get_y s1 < 1) /\
  (0 <= get_x s2 < 1 /\ 0 <= get_y s2 < 1) /\
  get_g s1 <> get_g s2 /\ State_eq s1 s2 = false /\
  State_key 1 s1 <> State_key 1 s2 /\
  State_hash 1 s1 = State_hash 1 s2 /\
  AStar.expand_child 1 (State_init 0 0) s1 ([], CLOSED) s2 = ([], CLOSED).
Proof.
  intros s1 s2 CLOSED. split; [simpl; lia|]. split; [simpl; lia|].
  split; [discriminate|]. split; [reflexivity|]. split; [discriminate|].
  split; vm_compute; reflexivity.
Qed.

(** ** The driver and the constructor *)

Lemma init_constraints_lookup (range : list nat) (acc : gmap nat Constraints) (i : nat) :
  fold_left (fun cs j => <[j := (∅ : Constraints)]> cs) range acc !! i
  = if decide (i ∈ range) then Some ∅ else acc !! i.
Proof.
  revert acc. induction range as [|j range IH]; intros acc; cbn [fold_left].
  - by rewrite decide_False by apply not_elem_of_nil.
  - rewrite IH. destruct (decide (i ∈ range)) as [Hin|Hnin].
    + by rewrite decide_True by by apply list_elem_of_further.
    + destruct (decide (i = j)) as [->|Hne].
      * rewrite lookup_insert_eq. by rewrite decide_True by apply list_elem_of_here.
      * rewrite lookup_insert_ne by done.
        rewrite decide_False; [done|]. by intros [?|?]%elem_of_cons.
Qed.

(** C1. [CBS.search] returns the pair [None, None] for every node. On the
    corridor, one agent going from [(0, 0)] to [(2, 0)] is a solvable
    instance: the root node has a path of cost 2 and no conflict, and the
    driver still returns no plan and no cost. *)
Theorem CBS_search_returns_nothing :
  (forall start : CBSState.t, CBS.search start = Done (None, None)) /\
  (root ← CBSState.init corridor [State_init 0 0] [State_init 2 0];
   '(_, root) ← CBSState.compute_cost 3 5 root;
   sol ← CBSState.is_solution 5 root;
   r ← CBS.search root;
   mret (sol, CBSState.cost root, r))
  = Done ((true, None), 2, (None, None)).
Proof. split; [done|]. vm_compute. reflexivity. Qed.

(** C7 (amended). Nothing is validated: for every map and every starts
    and goals, of equal length or not, in bounds or not, the constructor
    returns a node with one agent per start, an empty dictionary of
    constraints for each, cost 0 and no paths, and the driver returns
    [None, None] for it. *)
Theorem init_accepts_every_input (m : Map) (starts goals : list State) :
  exists node,
    CBSState.init m starts goals = Done node /\
    CBSState.k node = length starts /\
    CBSState.starts node = starts /\ CBSState.goals node = goals /\
    CBSState.map node = m /\
    CBSState.cost node = 0 /\ CBSState.paths node = ∅ /\
    (forall i, CBSState.constraints node !! i
               = if decide (i < length starts)%nat then Some ∅ else None) /\
    CBS.search node = Done (None, None).
Proof.
  eexists. split; [reflexivity|]. simpl. repeat split.
  intros i. rewrite init_constraints_lookup, lookup_empty.
  destruct (decide (i < length starts)%nat) as [Hlt|Hge].
  - rewrite decide_True; [done|]. apply list_elem_of_lookup. exists i.
    apply lookup_seq. by split.
  - rewrite decide_False; [done|]. intros Hin%list_elem_of_lookup.
    destruct Hin as [j Hj]. apply lookup_seq in Hj. lia.
Qed.

(** C7, as stated, fails: a start outside the corridor and no goal at
    all are accepted by the constructor and by the driver; the missing
    goal only shows when [compute_cost] indexes [goals]. *)
Lemma init_accepts_malformed_input :
  let starts := [State_init 5 5] in
  let goals := [] in
  (get_x (State_init 5 5) <? 3) = false /\ length starts <> length goals /\
  (node ← CBSState.init corridor starts goals;
   r ← CBS.search node;
   mret (CBSState.k node, r)) = Done (1%nat, (None, None)) /\
  (node ← CBSState.init corridor starts goals;
   CBSState.compute_cost 3 5 node) = Raise IndexError.
Proof.
  intros starts goals. split; [reflexivity|]. split; [discriminate|].
  split; vm_compute; reflexivity.
Defined.

(** ** [compute_cost] *)

Lemma fold_insert_lookup {V} (f : nat -> V) (js : list nat) (acc : gmap nat V) (i : nat) :
  fold_left (fun ps j => <[j := f j]> ps) js acc !! i
  = if decide (i ∈ js) then Some (f i) else acc !! i.
Proof.
  revert acc. induction js as [|j js IH]; intros acc; cbn [fold_left].
  - by rewrite decide_False by apply not_elem_of_nil.
  - rewrite IH. destruct (decide (i ∈ js)) as [Hin|Hnin].
    + by rewrite decide_True by by apply list_elem_of_further.
    + destruct (decide (i = j)) as [->|Hne].
      * rewrite lookup_insert_eq. by rewrite decide_True by apply list_elem_of_here.
      * rewrite lookup_insert_ne by done.
        rewrite decide_False; [done|]. by intros [?|?]%elem_of_cons.
Qed.

Lemma returned_Done {R} (o : outcome (R * AStar.t)) (r : R) :
  AStar.returned o = Done r -> exists a, o = Done (r, a).
Proof. destruct o as [[r' a]| |]; [|done|done]. intros [= ->]. by exists a. Qed.

Section compute_cost_facts.
Variables (map_width : Z) (fuel : nat).
Variable result : nat -> Z * option (list State).


Lemma compute_cost_loop_spec (agents : list nat) : forall astar self,
  AStar.map astar = CBSState.map self ->
  (forall j, j ∈ agents -> searched map_width fuel result self j) ->
  exists astar' self',
    CBSState.compute_cost_loop map_width fuel agents (astar, self) = Done (astar', self') /\
    self' = CBSState.mk (CBSState.cost self + total_cost result agents)
              (CBSState.constraints self) (CBSState.map self) (CBSState.starts self)
              (CBSState.goals self) (CBSState.k self)
              (fold_left (fun ps j => <[j := (result j).2]> ps) agents (CBSState.paths self)).
Proof.
  induction agents as [|i agents IH]; intros astar self Hmap Hall.
  - exists astar, self. split; [done|]. destruct self; simpl. f_equal. lia.
  - destruct (Hall i (list_elem_of_here _ _)) as (start & goal & cs & Hs & Hg & Hc & Hrun).
    apply returned_Done in Hrun as [a Hrun].
    assert (Hrun' : AStar.search map_width fuel astar start goal (Some cs)
                    = Done (result i, AStar.mk (AStar.map astar) (AStar.OPEN a) (AStar.CLOSED a)
                                        (AStar.start a) (AStar.goal a))).
    { rewrite search_unfold in Hrun |- *. rewrite Hmap.
      destruct (AStar.search_loop _ _ _ _ _ _ _) as [[r' [O C]]|e|]; [|done|done].
      simpl in *. by injection Hrun as -> <-. }
    set (self1 := CBSState.mk (CBSState.cost self + (result i).1)
              (CBSState.constraints self) (CBSState.map self) (CBSState.starts self)
              (CBSState.goals self) (CBSState.k self)
              (<[i := (result i).2]> (CBSState.paths self))).
    destruct (IH (AStar.mk (AStar.map astar) (AStar.OPEN a) (AStar.CLOSED a)
                    (AStar.start a) (AStar.goal a)) self1) as (astar' & self' & Hloop & Hself').
    { done. }
    { intros j Hj. destruct (Hall j (list_elem_of_further _ _ _ Hj))
        as (s' & g' & c' & ? & ? & ? & ?). by exists s', g', c'. }
    exists astar', self'. split.
    + cbn [CBSState.compute_cost_loop]. unfold CBSState.compute_cost_agent.
      unfold list_get, dict_get. rewrite Hs, Hg, Hc. simpl.
      rewrite Hrun'. simpl. destruct (result i) as [c path] eqn:Hr. simpl.
      subst self1. simpl in Hloop. exact Hloop.
    + rewrite Hself'. subst self1. simpl. f_equal. lia.
Qed.

End compute_cost_facts.

(** C10. When the single-agent search of agent [i] fails, returning
    [(-1, None)], [compute_cost] raises nothing: it returns, with [None]
    stored as the path of agent [i] and [-1] added into the total next
    to the costs of the other agents; every agent's entry is what its
    search returned. *)
Theorem compute_cost_folds_failure
    (map_width : Z) (fuel : nat) (self : CBSState.t)
    (result : nat -> Z * option (list State)) (i : nat) :
  (forall j, (j < CBSState.k self)%nat -> searched map_width fuel result self j) ->
  (i < CBSState.k self)%nat ->
  result i = (-1, None) ->
  exists self',
    CBSState.compute_cost map_width fuel self
    = Done ((CBSState.paths self', CBSState.cost self'), self') /\
    CBSState.paths self' !! i = Some None /\
    CBSState.cost self'
    = CBSState.cost self + total_cost result (seq 0 i) + -1
      + total_cost result (seq (S i) (CBSState.k self - S i)) /\
    (forall j, (j < CBSState.k self)%nat -> CBSState.paths self' !! j = Some (result j).2) /\
    CBSState.constraints self' = CBSState.constraints self.
Proof.
  intros Hall Hi Hfail.
  destruct (compute_cost_loop_spec map_width fuel result (seq 0 (CBSState.k self))
              (AStar.init (CBSState.map self)) self) as (astar' & self' & Hloop & Hself').
  { done. }
  { intros j Hj. apply Hall. apply elem_of_seq in Hj. lia. }
  assert (Hpaths : forall j, (j < CBSState.k self)%nat ->
                             CBSState.paths self' !! j = Some (result j).2).
  { intros j Hj. rewrite Hself'. simpl. rewrite fold_insert_lookup.
    rewrite decide_True; [done|]. apply elem_of_seq. lia. }
  exists self'. split; [|split; [|split; [|split]]].
  - unfold CBSState.compute_cost. by rewrite Hloop.
  - rewrite (Hpaths i Hi). by rewrite Hfail.
  - rewrite Hself'. simpl.
    replace (seq 0 (CBSState.k self))
      with (seq 0 i ++ i :: seq (S i) (CBSState.k self - S i)).
    + unfold total_cost. rewrite foldr_app. simpl. rewrite Hfail. simpl.
      generalize (seq (S i) (CBSState.k self - S i)) as rest. intros rest.
      generalize (foldr (fun j acc => (result j).1 + acc) 0 rest) as tail. intros tail.
      induction (seq 0 i) as [|j js IHjs]; simpl; lia.
    + change (i :: seq (S i) (CBSState.k self - S i))
        with (seq i (S (CBSState.k self - S i))).
      rewrite <- seq_app. f_equal. lia.
  - exact Hpaths.
  - by rewrite Hself'.
Qed.

Lemma compute_cost_folds_failure_witness :
  let self := CBSState.mk 0 {[ 0%nat := forbid_first_moves; 1%nat := ∅ ]} corridor
                [State_init 0 0; State_init 2 0] [State_init 2 0; State_init 0 0] 2 ∅ in
  exists self',
    CBSState.compute_cost 3 5 self
    = Done ((CBSState.paths self', CBSState.cost self'), self') /\
    CBSState.paths self' !! 0%nat = Some None /\
    CBSState.cost self' = 1.
Proof.
  intros self.
  set (run := fun start goal cs =>
         match AStar.returned (AStar.search 3 5 (AStar.init corridor) start goal (Some cs)) with
         | Done r => r
         | _ => (0, None)
         end).
  set (result := fun j : nat =>
         match j with
         | O => run (State_init 0 0) (State_init 2 0) forbid_first_moves
         | _ => run (State_init 2 0) (State_init 0 0) ∅
         end).
  assert (Hall : forall j, (j < CBSState.k self)%nat -> searched 3 5 result self j).
  { intros [|[|j]] Hj; [| |simpl in Hj; lia].
    - exists (State_init 0 0), (State_init 2 0), forbid_first_moves.
      repeat split; vm_compute; reflexivity.
    - exists (State_init 2 0), (State_init 0 0), ∅.
      repeat split; vm_compute; reflexivity. }
  assert (Hi : (0 < CBSState.k self)%nat) by (simpl; lia).
  assert (Hfail : result 0%nat = (-1, None)) by (vm_compute; reflexivity).
  destruct (compute_cost_folds_failure 3 5 self result 0 Hall Hi Hfail)
    as (self' & Hrun & Hpath & Hcost & _).
  exists self'. split; [exact Hrun|]. split; [exact Hpath|].
  rewrite Hcost. vm_compute. reflexivity.
Defined.

(** ** [set_constraint] and [successors] *)

Lemma set_constraint_spec (self : CBSState.t) (s : State) (t : Z) (agent : nat)
    (cs : Constraints) :
  CBSState.constraints self !! agent = Some cs ->
  exists cs',
    CBSState.set_constraint self s t agent
    = Done (CBSState.set_constraints self (<[agent := cs']> (CBSState.constraints self))) /\
    forall cell' t',
      forbidden (Some cs') cell' t' = true <->
      forbidden (Some cs) cell' t' = true \/ (cell' = (get_x s, get_y s) /\ t' = t).
Proof.
  intros Hcs. unfold CBSState.set_constraint, dict_get. rewrite Hcs. simpl.
  set (cell := (get_x s, get_y s)).
  destruct (cs !! cell) as [times|] eqn:Hcell.
  - rewrite Hcell. simpl. eexists. split; [reflexivity|].
    intros cell' t'. unfold forbidden. destruct (decide (cell' = cell)) as [->|Hne].
    + rewrite lookup_insert_eq, Hcell, !bool_decide_eq_true. set_solver.
    + rewrite lookup_insert_ne by done.
      destruct (cs !! cell'); [rewrite !bool_decide_eq_true|]; naive_solver.
  - rewrite lookup_insert_eq. simpl. eexists. split; [reflexivity|].
    intros cell' t'. unfold forbidden. destruct (decide (cell' = cell)) as [->|Hne].
    + rewrite lookup_insert_eq, Hcell, !bool_decide_eq_true. set_solver.
    + rewrite !lookup_insert_ne by done.
      destruct (cs !! cell'); [rewrite !bool_decide_eq_true|]; naive_solver.
Qed.

Lemma child_spec (self : CBSState.t) (s : State) (t : Z) (agent : nat) :
  is_Some (CBSState.constraints self !! agent) ->
  exists c, CBSState.child self s t agent = Done c /\
            extends self c agent (get_x s, get_y s) t.
Proof.
  intros [cs Hcs]. unfold CBSState.child. simpl.
  set (c0 := CBSState.set_constraints _ _).
  destruct (set_constraint_spec c0 s t agent cs Hcs) as (cs' & Hset & Hforb).
  eexists. split; [exact Hset|]. unfold extends. simpl.
  repeat split; try done.
  - intros j Hj. by rewrite lookup_insert_ne.
  - exists cs, cs'. split; [done|]. split; [by rewrite lookup_insert_eq|done].
Qed.

Lemma conflicting_agents_spec (self : CBSState.t) (s : State) (t : Z) (range : list nat) :
  forall acc agents,
    CBSState.conflicting_agents self s t range acc = Done agents ->
    exists found, agents = acc ++ found /\ found `sublist_of` range /\
                  Forall (at_conflict self s t) found.
Proof.
  induction range as [|i range IH]; intros acc agents Hrun; simpl in Hrun.
  - injection Hrun as <-. exists []. by rewrite app_nil_r.
  - unfold CBSState.conflicting_agent, CBSState.path_of, dict_get in Hrun.
    destruct (CBSState.paths self !! i) as [[p|]|] eqn:Hp; simpl in Hrun; try done.
    destruct (t <? Z.of_nat (length p)) eqn:Hlen; simpl in Hrun.
    + destruct (py_index p t) as [s'| |] eqn:Hidx; simpl in Hrun; try done.
      destruct (State_eq s' s) eqn:Heq; simpl in Hrun.
      * destruct (IH _ _ Hrun) as (found & -> & Hsub & Hall).
        exists (i :: found). rewrite <- app_assoc. split; [done|].
        split; [by apply sublist_skip|]. constructor; [|done].
        exists p, s'. repeat split; try done. by apply Z.ltb_lt.
      * destruct (IH _ _ Hrun) as (found & -> & Hsub & Hall).
        exists found. split; [done|]. split; [by apply sublist_cons|done].
    + destruct (IH _ _ Hrun) as (found & -> & Hsub & Hall).
      exists found. split; [done|]. split; [by apply sublist_cons|done].
Qed.


(** ** [is_solution] *)

Lemma State_eq_spec (a b : State) :
  State_eq a b = true <-> get_x a = get_x b /\ get_y a = get_y b /\ get_g a = get_g b.
Proof. unfold State_eq. rewrite !andb_true_iff, !Z.eqb_eq. tauto. Qed.

Lemma State_eq_refl (a : State) : State_eq a a = true.
Proof. by apply State_eq_spec. Qed.

Lemma State_eq_sym (a b : State) : State_eq a b = true -> State_eq b a = true.
Proof. rewrite !State_eq_spec. naive_solver. Qed.

Lemma State_eq_trans (a b c : State) :
  State_eq a b = true -> State_eq b c = true -> State_eq a c = true.
Proof. rewrite !State_eq_spec. naive_solver congruence. Qed.

Lemma in_step_set_spec (cur : State) (set : list State) :
  CBSState.in_step_set cur set = true <-> exists s, s ∈ set /\ State_eq s cur = true.
Proof.
  unfold CBSState.in_step_set. rewrite existsb_exists.
  split; intros (s & Hin & Heq); exists s; by rewrite ?list_elem_of_In in *.
Qed.

Lemma is_solution_agents_app (self : CBSState.t) (t : nat) (l1 l2 : list nat) :
  forall sc,
    CBSState.is_solution_agents self t (l1 ++ l2) sc
    = (sc' ← CBSState.is_solution_agents self t l1 sc;
       CBSState.is_solution_agents self t l2 sc').
Proof.
  induction l1 as [|i l1 IH]; intros sc; simpl; [done|].
  destruct (CBSState.is_solution_agent self t sc i) as [sc'| |]; simpl; [|done|done].
  apply IH.
Qed.

Section is_solution_facts.
Variable self : CBSState.t.

Lemma path_state_Some i t s :
  path_state self i t = Some s ->
  exists p, CBSState.paths self !! i = Some (Some p) /\ p !! t = Some s.
Proof.
  unfold path_state. destruct (CBSState.paths self !! i) as [[p|]|]; [|done|done].
  intros Hs. by exists p.
Qed.


Lemma scanned_step t n v c sc p :
  CBSState.paths self !! n = Some (Some p) ->
  scanned self t n v c sc ->
  exists sc', CBSState.is_solution_agent self t sc n = Done sc' /\ scanned self t (S n) v c sc'.
Proof.
  intros Hp (Hset & Hle & Hfin & Hhit).
  assert (Hps : path_state self n t = p !! t) by (unfold path_state; by rewrite Hp).
  unfold CBSState.is_solution_agent, CBSState.path_of, dict_get. rewrite Hp. simpl.
  destruct (decide (t < length p)%nat) as [Hlt|Hge].
  - destruct (lookup_lt_is_Some_2 p t Hlt) as [cur Hcur].
    unfold list_get. rewrite Hcur. simpl. rewrite Hcur in Hps.
    destruct (CBSState.in_step_set cur (CBSState.step_set sc)) eqn:Hin; simpl.
    + eexists. split; [reflexivity|]. unfold scanned. simpl.
      apply Hset in Hin as (i & si & Hi & Hsi & Heq).
      split; [|split; [lia|split]].
      * intros s. rewrite Hset. split.
        -- intros (i' & si' & ? & ? & ?). exists i', si'. split; [lia|done].
        -- intros (i' & si' & Hi' & Hsi' & Heq').
           destruct (decide (i' = n)) as [->|Hne].
           ++ rewrite Hps in Hsi'. injection Hsi' as <-.
              exists i, si. split; [done|]. split; [done|]. by eapply State_eq_trans.
           ++ exists i', si'. split; [lia|done].
      * split; [lia|]. intros Hall. specialize (Hall n ltac:(lia)). congruence.
      * right. exists n, cur. split; [lia|]. split; [|done].
        exists i, si, cur. done.
    + eexists. split; [reflexivity|]. unfold scanned. simpl.
      assert (Hfree : ~ collides self t n).
      { intros (i & si & sj & Hi & Hsi & Hsj & Heq). rewrite Hps in Hsj. injection Hsj as <-.
        assert (CBSState.in_step_set cur (CBSState.step_set sc) = true); [|congruence].
        apply Hset. by exists i, si. }
      split; [|split; [lia|split]].
      * intros s. rewrite orb_true_iff, Hset. split.
        -- intros [Heq|(i' & si' & ? & ? & ?)].
           ++ exists n, cur. split; [lia|done].
           ++ exists i', si'. split; [lia|done].
        -- intros (i' & si' & Hi' & Hsi' & Heq').
           destruct (decide (i' = n)) as [->|Hne].
           ++ left. rewrite Hps in Hsi'. by injection Hsi' as <-.
           ++ right. exists i', si'. split; [lia|done].
      * split; [lia|]. intros Hall. specialize (Hall n ltac:(lia)). congruence.
      * destruct Hhit as [(Hnone & Hv & Hc)|(j & s & Hj & Hcol & Hs & Hc & Hv)].
        -- left. split; [|done]. intros j Hj.
           destruct (decide (j = n)) as [->|Hne]; [done|]. apply Hnone. lia.
        -- right. exists j, s. split; [lia|done].
  - eexists. split; [reflexivity|]. unfold scanned. simpl.
    assert (Hnone : path_state self n t = None).
    { rewrite Hps. apply lookup_ge_None. lia. }
    assert (Hfree : ~ collides self t n).
    { intros (i & si & sj & _ & _ & Hsj & _). congruence. }
    split; [|split; [lia|split]].
    + intros s. rewrite Hset. split.
      * intros (i' & si' & ? & ? & ?). exists i', si'. split; [lia|done].
      * intros (i' & si' & Hi' & Hsi' & Heq').
        destruct (decide (i' = n)) as [->|Hne]; [congruence|].
        exists i', si'. split; [lia|done].
    + split.
      * intros Heq i Hi. destruct (decide (i = n)) as [->|Hne]; [done|].
        apply Hfin; lia.
      * intros Hall. f_equal. apply Hfin. intros i Hi. apply Hall. lia.
    + destruct Hhit as [(Hnone' & Hv & Hc)|(j & s & Hj & Hcol & Hs & Hc & Hv)].
      * left. split; [|done]. intros j Hj.
        destruct (decide (j = n)) as [->|Hne]; [done|]. apply Hnone'. lia.
      * right. exists j, s. split; [lia|done].
Qed.

End is_solution_facts.

Section is_solution_loop_facts.
Variables (self : CBSState.t) (bound : nat).
Hypothesis Hpaths : forall i, (i < CBSState.k self)%nat ->
  exists p, CBSState.paths self !! i = Some (Some p) /\ (length p <= bound)%nat.

Lemma scanned_agents t v c n :
  (n <= CBSState.k self)%nat ->
  exists sc,
    CBSState.is_solution_agents self t (seq 0 n) (CBSState.mkScan [] 0 v c) = Done sc /\
    scanned self t n v c sc.
Proof.
  induction n as [|n IH]; intros Hn.
  - eexists. split; [reflexivity|]. unfold scanned. simpl.
    split; [|split; [lia|split]].
    + intros s. split; [done|]. intros (i & _ & Hi & _). lia.
    + split; [intros _ i Hi; lia|done].
    + left. split; [|done]. intros j Hj. lia.
  - destruct IH as (sc & Hrun & Hsc); [lia|].
    destruct (Hpaths n ltac:(lia)) as (p & Hp & _).
    destruct (scanned_step self t n v c sc p Hp Hsc) as (sc' & Hstep & Hsc').
    exists sc'. split; [|done].
    rewrite seq_S, is_solution_agents_app, Hrun. simpl. by rewrite Hstep.
Qed.

Lemma path_state_short i t :
  (i < CBSState.k self)%nat -> (bound <= t)%nat -> path_state self i t = None.
Proof.
  intros Hi Ht. destruct (Hpaths i Hi) as (p & Hp & Hlen).
  unfold path_state. rewrite Hp. apply lookup_ge_None. lia.
Qed.

Lemma collides_lt t j : collides self t j -> (j < CBSState.k self)%nat -> (t < bound)%nat.
Proof.
  intros (i & si & sj & _ & _ & Hsj & _) Hj.
  destruct (decide (t < bound)%nat) as [|Hge]; [done|].
  rewrite path_state_short in Hsj by lia. done.
Qed.


Lemma swept_next t v c sc :
  swept self t v c -> scanned self t (CBSState.k self) v c sc ->
  swept self (S t) (CBSState.valid_solution sc) (CBSState.conflict_tuple sc).
Proof.
  intros Hsw (_ & _ & _ & Hhit).
  destruct Hhit as [(Hnone & -> & ->)|(j & s & Hj & Hcol & Hs & -> & ->)].
  - destruct Hsw as [(-> & -> & Hfree)|(-> & t0 & j & s & Ht0 & Hj & Hcol & Hs & -> & Hfree)].
    + left. split; [done|]. split; [done|]. intros t' j Ht' Hj.
      destruct (decide (t' = t)) as [->|Hne]; [by apply Hnone|apply Hfree; [lia|done]].
    + right. split; [done|]. exists t0, j, s. split; [lia|]. repeat (split; [done|]).
      intros t' j' Hlo Hhi Hj'.
      destruct (decide (t' = t)) as [->|Hne]; [by apply Hnone|apply Hfree; [done|lia|done]].
  - right. split; [done|]. exists t, j, s. split; [lia|]. repeat (split; [done|]).
    intros t' j' Hlo Hhi Hj'. lia.
Qed.


Lemma path_state_None_later i t t' :
  (i < CBSState.k self)%nat -> path_state self i t = None -> (t <= t')%nat ->
  path_state self i t' = None.
Proof.
  intros Hi Hnone Ht. destruct (Hpaths i Hi) as (p & Hp & _).
  unfold path_state in *. rewrite Hp in *. apply lookup_ge_None in Hnone.
  apply lookup_ge_None. lia.
Qed.

Lemma swept_final t v c :
  swept self (S t) v c ->
  (forall i, (i < CBSState.k self)%nat -> path_state self i t = None) ->
  swept_all self v c.
Proof.
  intros Hsw Hnone.
  assert (Hlate : forall t' j, (t < t')%nat -> (j < CBSState.k self)%nat ->
                               ~ collides self t' j).
  { intros t' j Ht' Hj (i & si & sj & _ & _ & Hsj & _).
    rewrite (path_state_None_later j t t') in Hsj; [done|done|by apply Hnone|lia]. }
  destruct Hsw as [(-> & -> & Hfree)|(-> & t0 & j & s & Ht0 & Hj & Hcol & Hs & -> & Hfree)].
  - left. split; [done|]. split; [done|]. intros t' j Hj.
    destruct (decide (t' < S t)%nat); [by apply Hfree|apply Hlate; [lia|done]].
  - right. split; [done|]. exists t0, j, s. repeat (split; [done|]).
    intros t' j' Hlo Hj'.
    destruct (decide (t' < S t)%nat); [by apply Hfree|apply Hlate; [lia|done]].
Qed.

Lemma is_solution_loop_spec d : forall t v c fuel,
  (bound <= t + d)%nat -> (d < fuel)%nat ->
  swept self t v c ->
  exists v' c',
    CBSState.is_solution_loop fuel self t v c = Done (v', c') /\ swept_all self v' c'.
Proof.
  induction d as [|d IH]; intros t v c fuel Hbound Hfuel Hsw;
    (destruct fuel as [|fuel]; [lia|]); cbn [CBSState.is_solution_loop];
    destruct (scanned_agents t v c (CBSState.k self) ltac:(lia)) as (sc & Hrun & Hsc);
    rewrite Hrun; simpl;
    pose proof (swept_next t v c sc Hsw Hsc) as Hnext;
    destruct Hsc as (_ & Hle & Hfin & _).
  - assert (Hall : CBSState.agents_finished sc = CBSState.k self).
    { apply Hfin. intros i Hi. apply path_state_short; [done|lia]. }
    rewrite decide_False by lia.
    exists (CBSState.valid_solution sc), (CBSState.conflict_tuple sc).
    split; [done|]. apply (swept_final t); [done|]. by apply Hfin.
  - case_decide as Hcont.
    + destruct (decide (bound <= t)%nat) as [Hdone|Hmore].
      * exfalso. assert (CBSState.agents_finished sc = CBSState.k self); [|lia].
        apply Hfin. intros i Hi. by apply path_state_short.
      * apply IH; [lia|lia|done].
    + exists (CBSState.valid_solution sc), (CBSState.conflict_tuple sc).
      split; [done|]. apply (swept_final t); [done|]. apply Hfin. lia.
Qed.

End is_solution_loop_facts.

Lemma vertex_conflict_collides (self : CBSState.t) (t : nat) (cell : Z * Z) :
  timed self -> vertex_conflict self t cell ->
  exists j, (j < CBSState.k self)%nat /\ collides self t j.
Proof.
  intros Htimed (i & j & si & sj & Hne & Hi & Hj & Hsi & Hsj & Hci & Hcj).
  assert (Heq : State_eq si sj = true).
  { apply State_eq_spec. rewrite (Htimed _ _ _ Hsi), (Htimed _ _ _ Hsj).
    subst cell. by injection Hcj as -> ->. }
  destruct (decide (i < j)%nat) as [Hlt|Hge].
  - exists j. split; [done|]. by exists i, si, sj.
  - exists i. split; [done|]. exists j, sj, si.
    split; [lia|]. split; [done|]. split; [done|]. by apply State_eq_sym.
Qed.

Lemma collides_vertex_conflict (self : CBSState.t) (t j : nat) (s : State) :
  (j < CBSState.k self)%nat -> collides self t j -> path_state self j t = Some s ->
  vertex_conflict self t (get_x s, get_y s).
Proof.
  intros Hj (i & si & sj & Hi & Hsi & Hsj & Heq) Hs.
  rewrite Hs in Hsj. injection Hsj as <-.
  apply State_eq_spec in Heq as (Hx & Hy & _).
  exists i, j, si, s. split; [lia|]. split; [lia|]. split; [done|].
  split; [done|]. split; [done|]. by rewrite Hx, Hy.
Qed.

Lemma has_paths_le (self : CBSState.t) (fuel : nat) :
  has_paths self fuel ->
  forall i, (i < CBSState.k self)%nat ->
    exists p, CBSState.paths self !! i = Some (Some p) /\ (length p <= fuel - 1)%nat.
Proof. intros Hp i Hi. destruct (Hp i Hi) as (p & ? & ?). exists p. split; [done|lia]. Qed.

Lemma is_solution_spec (fuel : nat) (self : CBSState.t) :
  has_paths self fuel ->
  exists v c, CBSState.is_solution fuel self = Done (v, c) /\
              (CBSState.k self = 0%nat /\ v = true /\ c = None \/
               (0 < CBSState.k self)%nat /\ swept_all self v c).
Proof.
  intros Hp. unfold CBSState.is_solution.
  case_decide as Hk; [|exists true, None; split; [done|left; split; [lia|done]]].
  destruct (Hp 0%nat Hk) as (p0 & _ & Hlen0).
  destruct (is_solution_loop_spec self (fuel - 1) (has_paths_le self fuel Hp)
              (fuel - 1) 0 true None fuel) as (v & c & Hrun & Hfinal).
  - lia.
  - lia.
  - left. split; [done|]. split; [done|]. intros t' j Ht'. lia.
  - exists v, c. split; [done|]. by right.
Qed.

(** C2 (amended). For per-agent paths as the pathfinder returns them
    (the state at index [t] carries [g = t]) in which some vertex
    conflict exists, [is_solution] returns [False] with a state and a
    timestep: the state is the path entry of one of two different agents
    that occupy the same cell at that timestep, and the timestep is the
    largest one at which any two agents occupy the same cell, since the
    scan goes on after a detection and a later one overwrites the tuple. *)
Theorem is_solution_reports_last_conflict (fuel : nat) (self : CBSState.t) :
  has_paths self fuel ->
  timed self ->
  (exists t cell, vertex_conflict self t cell) ->
  exists s t,
    CBSState.is_solution fuel self = Done (false, Some (s, Z.of_nat t)) /\
    vertex_conflict self t (get_x s, get_y s) /\
    (exists j, (j < CBSState.k self)%nat /\ path_state self j t = Some s) /\
    (forall t' cell', vertex_conflict self t' cell' -> (t' <= t)%nat).
Proof.
  intros Hp Htimed (t1 & cell1 & Hconf).
  destruct (vertex_conflict_collides self t1 cell1 Htimed Hconf) as (j1 & Hj1 & Hcol1).
  destruct (is_solution_spec fuel self Hp) as (v & c & Hrun & [(Hk & _)|(Hk & Hfinal)]);
    [lia|].
  destruct Hfinal as [(_ & _ & Hfree)|(-> & t0 & j & s & Hj & Hcol & Hs & -> & Hfree)].
  - by destruct (Hfree t1 j1 Hj1).
  - exists s, t0. rewrite Hrun, (Htimed _ _ _ Hs). split; [done|].
    split; [by eapply collides_vertex_conflict|]. split; [by exists j|].
    intros t' cell' Hconf'.
    destruct (vertex_conflict_collides self t' cell' Htimed Hconf') as (j' & Hj' & Hcol').
    destruct (decide (t' <= t0)%nat) as [|Hgt]; [done|].
    destruct (Hfree t' j' ltac:(lia) Hj' Hcol').
Qed.

(** The paths of [two_conflicts] are the ones the search finds for two
    agents going from [(0, 0)] to [(3, 0)] and from [(1, 1)] to [(2, 0)]
    on a 4 x 2 map with [(2, 1)] blocked. *)
Example two_conflicts_from_search :
  (root ← CBSState.init (CBSState.map two_conflicts) (CBSState.starts two_conflicts)
            (CBSState.goals two_conflicts);
   r ← CBSState.compute_cost 4 6 root;
   mret (shown_paths r.2, CBSState.cost r.2))
  = Done (shown_paths two_conflicts, CBSState.cost two_conflicts).
Proof. vm_compute. reflexivity. Qed.

Lemma two_conflicts_paths : has_paths two_conflicts 5.
Proof.
  intros [|[|i]] Hi; [| |simpl in Hi; lia]; eexists; (split; [reflexivity|simpl; lia]).
Qed.

Lemma two_conflicts_timed : timed two_conflicts.
Proof.
  intros [|[|i]] t s.
  - destruct t as [|[|[|[|t]]]]; [| | | |done]; by intros [= <-].
  - destruct t as [|[|[|t]]]; [| | |done]; by intros [= <-].
  - unfold path_state, two_conflicts. simpl.
    rewrite lookup_insert_ne by done. by rewrite lookup_singleton_ne.
Qed.

Lemma two_conflicts_at_1 : vertex_conflict two_conflicts 1 (1, 0).
Proof.
  exists 0%nat, 1%nat, (at_time 1 0 1), (at_time 1 0 1).
  split; [done|]. split; [simpl; lia|]. split; [simpl; lia|]. done.
Qed.

(** C2, as stated, fails when the paths conflict at more than one
    timestep: in [two_conflicts] the agents share [(1, 0)] at time 1 and
    [(2, 0)] at time 2, and [is_solution] reports the later one. *)
Lemma is_solution_reports_later_conflict :
  vertex_conflict two_conflicts 1 (1, 0) /\
  CBSState.is_solution 5 two_conflicts = Done (false, Some (at_time 2 0 2, 2)) /\
  (1 < 2)%nat.
Proof.
  split; [exact two_conflicts_at_1|]. split; [vm_compute; reflexivity|lia].
Defined.

Lemma is_solution_reports_last_conflict_witness :
  has_paths two_conflicts 5 /\ timed two_conflicts /\
  vertex_conflict two_conflicts 1 (1, 0) /\
  exists s,
    CBSState.is_solution 5 two_conflicts = Done (false, Some (s, Z.of_nat 2)) /\
    vertex_conflict two_conflicts 2 (get_x s, get_y s) /\
    (forall t' cell', vertex_conflict two_conflicts t' cell' -> (t' <= 2)%nat).
Proof.
  split; [exact two_conflicts_paths|]. split; [exact two_conflicts_timed|].
  split; [exact two_conflicts_at_1|].
  destruct (is_solution_reports_last_conflict 5 two_conflicts two_conflicts_paths
              two_conflicts_timed (ex_intro _ 1%nat (ex_intro _ (1, 0) two_conflicts_at_1)))
    as (s & t & Hrun & Hconf & _ & Hlast).
  assert (Hval : CBSState.is_solution 5 two_conflicts = Done (false, Some (at_time 2 0 2, 2)))
    by (vm_compute; reflexivity).
  rewrite Hval in Hrun. injection Hrun as <- Ht.
  assert (t = 2%nat) as -> by lia.
  exists (at_time 2 0 2). split; [exact Hval|]. split; [exact Hconf|exact Hlast].
Defined.

(** C3. On the corridor with three agents, the first child of the root
    ([crowded_child]) costs 6 once computed; its own first child forbids
    agent 0 both cells it could be on at time 1, the search of agent 0
    fails, [None] and [-1] are folded in, and the child's total is 2,
    below its parent's 6. *)
Theorem child_cost_below_parent_cost :
  (root ← CBSState.init corridor crowded_starts crowded_goals;
   r ← CBSState.compute_cost 3 5 root;
   children ← CBSState.successors 5 r.2;
   c ← list_get children 0;
   mret (CBSState.cost r.2, CBSState.constraints c, CBSState.starts c, CBSState.goals c,
         CBSState.k c, CBSState.cost c, CBSState.paths c))
  = Done (5, CBSState.constraints crowded_child, crowded_starts, crowded_goals, 3%nat, 0, ∅) /\
  (r ← CBSState.compute_cost 3 5 crowded_child;
   let parent := r.2 in
   children ← CBSState.successors 5 parent;
   child ← costed_child 3 5 children 0;
   mret (CBSState.cost parent, length children, CBSState.cost child,
         CBSState.paths child !! 0%nat))
  = Done (6, 2%nat, 2, Some None).
Proof. split; vm_compute; reflexivity. Qed.


(** ** Further properties *)

(** For paths as the pathfinder returns them, [is_solution] answers
    [(True, None)] exactly when no two agents ever occupy the same cell
    at the same timestep. *)
Theorem is_solution_true_iff_conflict_free (fuel : nat) (self : CBSState.t) :
  has_paths self fuel ->
  timed self ->
  (CBSState.is_solution fuel self = Done (true, None) <->
   ~ exists t cell, vertex_conflict self t cell).
Proof.
  intros Hp Htimed.
  destruct (is_solution_spec fuel self Hp) as (v & c & Hrun & Hcases). rewrite Hrun.
  destruct Hcases as [(Hk & -> & ->)|(Hk & Hfinal)].
  - split; [|done]. intros _ (t & cell & i & j & _ & _ & _ & Hi & _). lia.
  - destruct Hfinal as [(-> & -> & Hfree)|(-> & t0 & j & s & Hj & Hcol & Hs & -> & _)].
    + split; [|done]. intros _ (t & cell & Hconf).
      destruct (vertex_conflict_collides self t cell Htimed Hconf) as (j & Hj & Hcol).
      by destruct (Hfree t j Hj).
    + split; [done|]. intros Hnone. exfalso. apply Hnone.
      exists t0, (get_x s, get_y s). by eapply collides_vertex_conflict.
Qed.

Lemma is_solution_true_iff_conflict_free_witness :
  let self :=
    CBSState.set_paths two_conflicts
      {[ 0%nat := Some [at_time 0 0 0; at_time 1 0 1];
         1%nat := Some [at_time 1 1 0; at_time 0 1 1; at_time 0 0 2] ]} in
  CBSState.is_solution 5 self = Done (true, None) /\
  ~ exists t cell, vertex_conflict self t cell.
Proof.
  intros self.
  assert (Hp : has_paths self 5).
  { intros [|[|i]] Hi; [| |simpl in Hi; lia]; eexists; (split; [reflexivity|simpl; lia]). }
  assert (Htimed : timed self).
  { intros [|[|i]] t s.
    - destruct t as [|[|t]]; [| |done]; by intros [= <-].
    - destruct t as [|[|[|t]]]; [| | |done]; by intros [= <-].
    - unfold path_state, self. simpl.
      rewrite lookup_insert_ne by done. by rewrite lookup_singleton_ne. }
  assert (Hrun : CBSState.is_solution 5 self = Done (true, None)) by (vm_compute; reflexivity).
  split; [exact Hrun|].
  exact (proj1 (is_solution_true_iff_conflict_free 5 self Hp Htimed) Hrun).
Defined.

(** A returned path respects the agent's constraints at every state
    after the first: no state of it is on a cell at a time forbidden to
    the agent, as long as the map never offers such a move. *)
Theorem returned_path_respects_constraints
    (map_width : Z) (fuel : nat) (self : AStar.t) (start goal : State)
    (cs : option Constraints) (c : Z) (p : list State) :
  (forall n child, child ∈ successors (AStar.map self) n cs ->
     forbidden cs (get_x child, get_y child) (get_g child) = false) ->
  get_parent start = None ->
  AStar.returned (AStar.search map_width fuel self start goal cs) = Done (c, Some p) ->
  head p = Some (AStar.compute_cost goal start) /\
  forall i s, p !! S i = Some s -> forbidden cs (get_x s, get_y s) (get_g s) = false.
Proof.
  intros Hperm Hparent Hrun. apply returned_search in Hrun as [oc' Hrun].
  apply (search_loop_Done map_width (AStar.map self) goal cs fuel
           (AStar.entry map_width start goal)) in Hrun
    as (nodes & OPEN' & CLOSED' & Hex & Hlen & Hres).
  destruct Hres as [(_ & [=] & _)|(node & OPEN'' & Hpop & Hgoal & [= -> ->] & _)].
  destruct (expands_generated map_width (AStar.map self) goal cs start _ nodes _ Hex
              (entry_generated map_width (AStar.map self) goal cs start)) as [Hopen _].
  destruct (heappop_Forall _ _ _ _ _ Hpop Hopen) as [Hnode _].
  destruct (recover_path_facts (AStar.map self) goal cs start node Hparent Hnode)
    as (Hhd & _ & Hsteps).
  split; [done|]. intros i s Hs.
  destruct (lookup_lt_is_Some_2 (AStar._recover_path node) i) as [a Ha].
  { apply lookup_lt_Some in Hs. lia. }
  destruct (Hsteps i a s Ha Hs) as (child & Hchild & ->).
  exact (Hperm a child Hchild).
Qed.

Lemma returned_path_respects_constraints_witness :
  let cs := Some forbid_next_cell in
  exists p,
    AStar.returned (AStar.search 3 5 (AStar.init corridor) (State_init 0 0) (State_init 2 0) cs)
    = Done (3, Some p) /\
    waypoints p = [(0, 0, 0); (0, 0, 1); (1, 0, 2); (2, 0, 3)] /\
    forall i s, p !! S i = Some s -> forbidden cs (get_x s, get_y s) (get_g s) = false.
Proof.
  intros cs.
  assert (Hsum : summary (AStar.returned (AStar.search 3 5 (AStar.init corridor)
                            (State_init 0 0) (State_init 2 0) cs))
                 = Done (3, Some [(0, 0, 0); (0, 0, 1); (1, 0, 2); (2, 0, 3)]))
    by (vm_compute; reflexivity).
  destruct (AStar.returned (AStar.search 3 5 (AStar.init corridor)
              (State_init 0 0) (State_init 2 0) cs)) as [[c [p|]]| |] eqn:Hrun;
    try discriminate Hsum.
  injection Hsum as -> Hway.
  exists p. split; [reflexivity|]. split; [exact Hway|].
  exact (proj2 (returned_path_respects_constraints 3 5 (AStar.init corridor)
                  (State_init 0 0) (State_init 2 0) cs 3 p
                  (fun n child => gridded_successors_permitted 3 1 _ n cs child)
                  eq_refl Hrun)).
Defined.

Lemma py_index_nat {A} (l : list A) (t : nat) (x : A) :
  l !! t = Some x -> py_index l (Z.of_nat t) = Done x.
Proof.
  intros Hx. unfold py_index, list_get.
  rewrite (proj2 (Z.leb_le 0 (Z.of_nat t))) by lia. by rewrite Nat2Z.id, Hx.
Qed.

(** With paths for every agent and a timestep that is not negative, the
    scan for the agents at a conflict ends, and finds every agent whose
    path holds a state [==] to the conflict's at that index. *)
Lemma conflicting_agents_complete (self : CBSState.t) (bound : nat) (s : State) (t : nat)
    (range : list nat) :
  has_paths self bound ->
  (forall i, i ∈ range -> (i < CBSState.k self)%nat) ->
  forall acc,
    exists found,
      CBSState.conflicting_agents self s (Z.of_nat t) range acc = Done (acc ++ found) /\
      forall i s', i ∈ range -> path_state self i t = Some s' -> State_eq s' s = true ->
                   i ∈ found.
Proof.
  intros Hp. induction range as [|i range IH]; intros Hk acc.
  - exists []. rewrite app_nil_r. split; [done|]. intros i s' Hi. by apply not_elem_of_nil in Hi.
  - destruct (Hp i (Hk i (list_elem_of_here _ _))) as (p & Hpi & _).
    assert (Hps : path_state self i t = p !! t) by (unfold path_state; by rewrite Hpi).
    assert (Hk' : forall j, j ∈ range -> (j < CBSState.k self)%nat)
      by (intros j Hj; apply Hk; by apply list_elem_of_further).
    cbn [CBSState.conflicting_agents].
    unfold CBSState.conflicting_agent, CBSState.path_of, dict_get. rewrite Hpi. simpl.
    destruct (Z.of_nat t <? Z.of_nat (length p)) eqn:Hlen.
    + apply Z.ltb_lt in Hlen.
      destruct (lookup_lt_is_Some_2 p t ltac:(lia)) as [cur Hcur].
      rewrite (py_index_nat p t cur Hcur). simpl. rewrite Hcur in Hps.
      destruct (State_eq cur s) eqn:Heq; simpl.
      * destruct (IH Hk' (acc ++ [i])) as (found & Hrun & Hall).
        exists (i :: found). rewrite Hrun, <- app_assoc. split; [done|].
        intros j s' Hj Hs' Heq'. apply elem_of_cons in Hj as [->|Hj]; [by left|].
        right. by eapply Hall.
      * destruct (IH Hk' acc) as (found & Hrun & Hall).
        exists found. split; [done|]. intros j s' Hj Hs' Heq'.
        apply elem_of_cons in Hj as [->|Hj]; [congruence|]. by eapply Hall.
    + apply Z.ltb_ge in Hlen.
      destruct (IH Hk' acc) as (found & Hrun & Hall).
      exists found. split; [done|]. intros j s' Hj Hs' Heq'.
      apply elem_of_cons in Hj as [->|Hj]; [|by eapply Hall].
      rewrite Hps in Hs'. apply lookup_lt_Some in Hs'. lia.
Qed.

(** A node whose paths are as the pathfinder returns them and hold a
    vertex conflict always has exactly two children: the conflict
    [is_solution] reports is found again, at the same index, on the
    paths of at least two agents. *)
Theorem successors_of_conflicting_node (fuel : nat) (self : CBSState.t) :
  has_paths self fuel ->
  timed self ->
  (forall i, (i < CBSState.k self)%nat -> is_Some (CBSState.constraints self !! i)) ->
  (exists t cell, vertex_conflict self t cell) ->
  exists c1 c2 a0 a1 s t,
    CBSState.successors fuel self = Done [c1; c2] /\
    CBSState.is_solution fuel self = Done (false, Some (s, Z.of_nat t)) /\
    a0 <> a1 /\ (a0 < CBSState.k self)%nat /\ (a1 < CBSState.k self)%nat /\
    vertex_conflict self t (get_x s, get_y s) /\
    extends self c1 a0 (get_x s, get_y s) (Z.of_nat t) /\
    extends self c2 a1 (get_x s, get_y s) (Z.of_nat t).
Proof.
  intros Hp Htimed Hdom (t1 & cell1 & Hconf).
  destruct (vertex_conflict_collides self t1 cell1 Htimed Hconf) as (j1 & Hj1 & Hcol1).
  destruct (is_solution_spec fuel self Hp) as (v & c & Hrun & [(Hk & _)|(Hk & Hfinal)]);
    [lia|].
  destruct Hfinal as [(_ & _ & Hfree)|(-> & t0 & j & s & Hj & Hcol & Hs & -> & _)];
    [by destruct (Hfree t1 j1 Hj1)|].
  rewrite (Htimed _ _ _ Hs) in Hrun.
  destruct (conflicting_agents_complete self fuel s t0 (seq 0 (CBSState.k self)) Hp
              ltac:(intros i Hi; apply elem_of_seq in Hi; lia) [])
    as (found & Hfound & Hall).
  simpl in Hfound.
  destruct (conflicting_agents_spec _ _ _ _ _ _ Hfound) as (found' & Heq & Hsub & _).
  simpl in Heq. subst found'.
  assert (Hnd : NoDup found) by exact (sublist_NoDup _ _ (NoDup_seq _ _) Hsub).
  assert (Hlt : forall a, a ∈ found -> (a < CBSState.k self)%nat).
  { intros a Ha. pose proof (elem_of_sublist _ _ _ Ha Hsub) as Hin.
    apply elem_of_seq in Hin. lia. }
  destruct Hcol as (i & si & sj & Hij & Hsi & Hsj & Heq).
  rewrite Hs in Hsj. injection Hsj as <-.
  assert (Hi_in : i ∈ found).
  { apply (Hall i si); [apply elem_of_seq; lia|done|done]. }
  assert (Hj_in : j ∈ found).
  { apply (Hall j s); [apply elem_of_seq; lia|done|apply State_eq_refl]. }
  destruct found as [|a0 [|a1 rest]].
  - by apply not_elem_of_nil in Hi_in.
  - apply list_elem_of_singleton in Hi_in, Hj_in. lia.
  - destruct (child_spec self s (Z.of_nat t0) a0 (Hdom a0 (Hlt a0 ltac:(set_solver))))
      as (c1 & Hc1 & Hext1).
    destruct (child_spec self s (Z.of_nat t0) a1 (Hdom a1 (Hlt a1 ltac:(set_solver))))
      as (c2 & Hc2 & Hext2).
    exists c1, c2, a0, a1, s, t0.
    split.
    { unfold CBSState.successors. rewrite Hrun. simpl. rewrite Hfound. simpl.
      rewrite Hc1. simpl. by rewrite Hc2. }
    split; [done|].
    split; [apply NoDup_cons in Hnd as [Hnin _]; set_solver|].
    split; [apply Hlt; set_solver|]. split; [apply Hlt; set_solver|].
    split; [|done].
    apply (collides_vertex_conflict self t0 j s Hj); [|done]. by exists i, si, s.
Qed.

Lemma successors_of_conflicting_node_witness :
  has_paths two_conflicts 5 /\ timed two_conflicts /\
  exists c1 c2 a0 a1,
    CBSState.successors 5 two_conflicts = Done [c1; c2] /\ a0 <> a1 /\
    extends two_conflicts c1 a0 (2, 0) 2 /\ extends two_conflicts c2 a1 (2, 0) 2.
Proof.
  split; [exact two_conflicts_paths|]. split; [exact two_conflicts_timed|].
  assert (Hdom : forall i, (i < CBSState.k two_conflicts)%nat ->
                           is_Some (CBSState.constraints two_conflicts !! i)).
  { intros [|[|i]] Hi; [by eexists..|simpl in Hi; lia]. }
  destruct (successors_of_conflicting_node 5 two_conflicts two_conflicts_paths
              two_conflicts_timed Hdom
              (ex_intro _ 1%nat (ex_intro _ (1, 0) two_conflicts_at_1)))
    as (c1 & c2 & a0 & a1 & s & t & Hrun & Hsol & Hne & _ & _ & _ & Hext1 & Hext2).
  assert (Hval : CBSState.is_solution 5 two_conflicts = Done (false, Some (at_time 2 0 2, 2)))
    by (vm_compute; reflexivity).
  rewrite Hval in Hsol. injection Hsol as <- Ht. rewrite <- Ht in Hext1, Hext2.
  exists c1, c2, a0, a1. split; [exact Hrun|]. split; [exact Hne|].
  split; [exact Hext1|exact Hext2].
Defined.

(** * Least cost of the search *)

#[local] Opaque PyHash.hash_pair.

(** ** The search returns a least cost *)

Lemma NoDup_fmap_elem_inj {A B} (f : A -> B) (l : list A) (x y : A) :
  NoDup (f <$> l) -> x ∈ l -> y ∈ l -> f x = f y -> x = y.
Proof.
  induction l as [|a l IH]; intros Hnd Hx Hy Hf; [by apply not_elem_of_nil in Hx|].
  rewrite fmap_cons in Hnd. apply NoDup_cons in Hnd as [Hnin Hnd].
  apply elem_of_cons in Hx as [->|Hx]; apply elem_of_cons in Hy as [->|Hy].
  - done.
  - destruct Hnin. rewrite Hf. by apply list_elem_of_fmap_2.
  - destruct Hnin. rewrite <- Hf. by apply list_elem_of_fmap_2.
  - by apply IH.
Qed.

Lemma in_box_key (width height g0 : Z) (horizon : nat) (s : State) :
  in_box width height g0 horizon s -> State_key width s ∈ box_keys width height g0 horizon.
Proof.
  intros (Hx & Hy & Hg). unfold box_keys.
  apply list_elem_of_bind. exists (get_x s). split; [|apply elem_of_seqZ; lia].
  apply list_elem_of_bind. exists (get_y s). split; [|apply elem_of_seqZ; lia].
  apply list_elem_of_bind. exists (get_g s). split; [|apply elem_of_seqZ; lia].
  by apply list_elem_of_singleton.
Qed.

Lemma collision_free_eq (width height g0 : Z) (horizon : nat) (a b : State) :
  collision_free width height g0 horizon ->
  in_box width height g0 horizon a -> in_box width height g0 horizon b ->
  State_hash width a = State_hash width b -> State_eq a b = true.
Proof.
  intros Hfree Ha Hb Hhash.
  unfold State_hash in Hhash.
  assert (Hkey : State_key width a = State_key width b).
  { apply (NoDup_fmap_elem_inj PyHash.hash_pair (box_keys width height g0 horizon));
      [exact Hfree|by apply in_box_key|by apply in_box_key|exact Hhash]. }
  apply State_eq_spec. apply (State_key_inj width); [apply Ha|apply Hb|done].
Qed.

Lemma in_box_mono (width height g0 : Z) (h1 h2 : nat) (s : State) :
  (h1 <= h2)%nat -> in_box width height g0 h1 s -> in_box width height g0 h2 s.
Proof. unfold in_box. lia. Qed.

Lemma get_heuristic_eq (a b goal : State) :
  State_eq a b = true -> get_heuristic a goal = get_heuristic b goal.
Proof. intros (Hx & Hy & _)%State_eq_spec. unfold get_heuristic. by rewrite Hx, Hy. Qed.

Lemma is_goal_eq (a b goal : State) :
  State_eq a b = true -> is_goal a goal = is_goal b goal.
Proof. intros (Hx & Hy & _)%State_eq_spec. unfold is_goal. by rewrite Hx, Hy. Qed.

Lemma heappush_State (OPEN : list State) (item : State) :
  heap_ok get_cost OPEN ->
  heap_ok get_cost (heappush State_lt OPEN item) /\
  heappush State_lt OPEN item ≡ₚ item :: OPEN.
Proof. exact (heappush_spec get_cost OPEN item). Qed.

Lemma heappop_State (OPEN : list State) (item : State) (OPEN' : list State) :
  heap_ok get_cost OPEN ->
  heappop State_lt OPEN = Some (item, OPEN') ->
  heap_ok get_cost OPEN' /\ OPEN ≡ₚ item :: OPEN' /\
  forall x, x ∈ OPEN -> get_cost item <= get_cost x.
Proof. exact (heappop_spec get_cost OPEN item OPEN'). Qed.

Section optimal.
Variables (map_width height : Z) (m : Map) (goal : State) (cs : option Constraints).
Variables (start : State) (horizon : nat).
Hypothesis Hreg : regular m map_width height cs.
Hypothesis Hfree : collision_free map_width height (get_g start) horizon.

Local Abbreviation priced_at := (priced map_width height goal start).

Lemma priced_mono (h1 h2 : nat) (n : State) :
  (h1 <= h2)%nat -> priced_at h1 n -> priced_at h2 n.
Proof. intros Hle [Hc Hb]. split; [done|]. by eapply in_box_mono. Qed.

Lemma priced_child (E : list State) (node child : State) :
  priced_at (length E) node ->
  child ∈ successors m node cs ->
  priced_at (S (length E)) (set_parent (AStar.compute_cost goal child) (Some node)) /\
  in_box map_width height (get_g start) (S (length E)) child.
Proof.
  intros [_ (_ & _ & Hg)] Hchild.
  destruct (regular_box _ _ _ _ Hreg node child Hchild) as [Hx Hy].
  pose proof (regular_g _ _ _ _ Hreg node child Hchild) as Hgc.
  assert (Hbox : in_box map_width height (get_g start) (S (length E)) child).
  { unfold in_box. lia. }
  split; [|done]. split; [done|]. exact Hbox.
Qed.

(** One child: the queue stays a heap and only grows, the reached
    mapping stays in step, and the child is held up to [==]. *)
Lemma expand_child_frontier (E : list State) (node child : State)
    (OPEN : list State) (CLOSED : gmap Z State) :
  (S (length E) <= horizon)%nat ->
  priced_at (length E) node ->
  child ∈ successors m node cs ->
  heap_ok get_cost OPEN ->
  (forall n, held OPEN (E ++ [node]) n -> priced_at (S (length E)) n) ->
  (forall k r, CLOSED !! k = Some r ->
     State_hash map_width r = k /\ held OPEN (E ++ [node]) r) ->
  let oc := AStar.expand_child map_width goal node (OPEN, CLOSED) child in
  heap_ok get_cost oc.1 /\
  (forall n, held oc.1 (E ++ [node]) n -> priced_at (S (length E)) n) /\
  (forall k r, oc.2 !! k = Some r ->
     State_hash map_width r = k /\ held oc.1 (E ++ [node]) r) /\
  (forall n, n ∈ OPEN -> n ∈ oc.1) /\
  exists n, held oc.1 (E ++ [node]) n /\ State_eq n child = true.
Proof.
  intros Hhor Hnode Hchild Hheap Hpriced Hclosed oc. subst oc.
  destruct (priced_child E node child Hnode Hchild) as [Hc' Hcbox].
  unfold AStar.expand_child.
  set (c := set_parent (AStar.compute_cost goal child) (Some node)) in *.
  assert (Hhash : State_hash map_width c = State_hash map_width child)
    by (unfold State_hash, State_key; reflexivity).
  assert (Heqc : State_eq c child = true) by (apply State_eq_spec; done).
  destruct (CLOSED !! State_hash map_width child) as [r|] eqn:Hlook.
  - rewrite Hlook. destruct (Hclosed _ _ Hlook) as [Hr Hheld].
    assert (Heq : State_eq r child = true).
    { eapply (collision_free_eq map_width height (get_g start) horizon); [done| | |done].
      - eapply in_box_mono; [exact Hhor|]. by apply Hpriced.
      - by eapply in_box_mono. }
    assert (Hg : get_g c = get_g r).
    { apply State_eq_spec in Heq as (_ & _ & Hg). simpl. lia. }
    rewrite Hg, Z.ltb_irrefl. simpl.
    split; [done|]. split; [done|]. split; [done|]. split; [done|].
    by exists r.
  - rewrite lookup_insert_eq, Z.ltb_irrefl. simpl.
    destruct (heappush_State OPEN c Hheap) as [Hheap' Hperm].
    assert (Hin : forall n, n ∈ heappush State_lt OPEN c <-> n = c \/ n ∈ OPEN).
    { intros n. rewrite Hperm. apply elem_of_cons. }
    assert (Hgrow : forall n, held OPEN (E ++ [node]) n ->
                              held (heappush State_lt OPEN c) (E ++ [node]) n).
    { intros n [Hn|Hn]; [left; apply Hin; by right|by right]. }
    split; [done|]. split; [|split; [|split]].
    + intros n [Hn|Hn]; [|apply Hpriced; by right].
      apply Hin in Hn as [->|Hn]; [done|apply Hpriced; by left].
    + intros k r Hkr. destruct (decide (k = State_hash map_width child)) as [->|Hne].
      * rewrite lookup_insert_eq in Hkr. injection Hkr as <-.
        split; [done|]. left. apply Hin. by left.
      * rewrite lookup_insert_ne in Hkr by done.
        destruct (Hclosed _ _ Hkr) as [? ?]. split; [done|]. by apply Hgrow.
    + intros n Hn. apply Hin. by right.
    + exists c. split; [|done]. left. apply Hin. by left.
Qed.

Lemma expand_children_frontier (E : list State) (node : State) (children : list State) :
  forall (OPEN : list State) (CLOSED : gmap Z State),
  (S (length E) <= horizon)%nat ->
  priced_at (length E) node ->
  (forall child, child ∈ children -> child ∈ successors m node cs) ->
  heap_ok get_cost OPEN ->
  (forall n, held OPEN (E ++ [node]) n -> priced_at (S (length E)) n) ->
  (forall k r, CLOSED !! k = Some r ->
     State_hash map_width r = k /\ held OPEN (E ++ [node]) r) ->
  let oc := fold_left (AStar.expand_child map_width goal node) children (OPEN, CLOSED) in
  heap_ok get_cost oc.1 /\
  (forall n, held oc.1 (E ++ [node]) n -> priced_at (S (length E)) n) /\
  (forall k r, oc.2 !! k = Some r ->
     State_hash map_width r = k /\ held oc.1 (E ++ [node]) r) /\
  (forall n, n ∈ OPEN -> n ∈ oc.1) /\
  (forall child, child ∈ children ->
     exists n, held oc.1 (E ++ [node]) n /\ State_eq n child = true).
Proof.
  induction children as [|child children IH];
    intros OPEN CLOSED Hhor Hnode Hsub Hheap Hpriced Hclosed; cbn [fold_left].
  - simpl. repeat (split; [done|]). intros child Hin. by apply not_elem_of_nil in Hin.
  - pose proof (expand_child_frontier E node child OPEN CLOSED Hhor Hnode
                  (Hsub child (list_elem_of_here _ _)) Hheap Hpriced Hclosed) as Hone.
    cbv zeta in Hone.
    destruct (AStar.expand_child map_width goal node (OPEN, CLOSED) child) as [O1 C1].
    destruct Hone as (Hheap1 & Hpriced1 & Hclosed1 & Hgrow1 & n1 & Hheld1 & Heq1).
    pose proof (IH O1 C1 Hhor Hnode
                  (fun c Hc => Hsub c (list_elem_of_further _ _ _ Hc))
                  Hheap1 Hpriced1 Hclosed1) as Hrest.
    cbv zeta in Hrest.
    destruct (fold_left (AStar.expand_child map_width goal node) children (O1, C1))
      as [O2 C2].
    destruct Hrest as (Hheap2 & Hpriced2 & Hclosed2 & Hgrow2 & Hall2).
    simpl in *. repeat (split; [done|]). split; [by auto|].
    intros c [->|Hc]%elem_of_cons; [|by apply Hall2].
    exists n1. split; [|done]. destruct Hheld1 as [?|?]; [left; by apply Hgrow2|by right].
Qed.

Lemma frontier_ok_entry :
  0 <= get_x start < map_width -> 0 <= get_y start < height ->
  frontier_ok map_width height m goal cs start (AStar.entry map_width start goal) [].
Proof.
  intros Hx Hy. unfold frontier_ok, AStar.entry. simpl.
  set (s := AStar.compute_cost goal start).
  assert (Hone : heappush State_lt [] s = [s]) by done.
  rewrite Hone.
  split; [intros [|i] x p Hi Hxx Hp; [lia|by destruct i]|].
  split.
  { intros n [Hn|Hn]; [|by apply not_elem_of_nil in Hn].
    apply list_elem_of_singleton in Hn as ->. split; [done|].
    unfold in_box. simpl. lia. }
  split.
  { intros k r Hkr. apply lookup_insert_Some in Hkr as [[<- <-]|[_ Hkr]]; [|done].
    split; [done|]. left. by apply list_elem_of_singleton. }
  split; [left; by apply list_elem_of_singleton|].
  split; [|constructor]. intros e child He. by apply not_elem_of_nil in He.
Qed.

Lemma frontier_ok_step (E : list State) (OPEN : list State) (CLOSED : gmap Z State)
    (node : State) (OPEN1 : list State) :
  (S (length E) <= horizon)%nat ->
  frontier_ok map_width height m goal cs start (OPEN, CLOSED) E ->
  heappop State_lt OPEN = Some (node, OPEN1) ->
  is_goal node goal = false ->
  frontier_ok map_width height m goal cs start
    (AStar.expand map_width m goal cs node (OPEN1, CLOSED)) (E ++ [node]).
Proof.
  intros Hhor (Hheap & Hpriced & Hclosed & Hstart & Hsucc & Hnongoal) Hpop Hgoal.
  simpl in *.
  destruct (heappop_State OPEN node OPEN1 Hheap Hpop) as (Hheap1 & Hperm & _).
  assert (Hin : forall n, n ∈ OPEN <-> n = node \/ n ∈ OPEN1).
  { intros n. rewrite Hperm. apply elem_of_cons. }
  assert (Hmove : forall n, held OPEN E n -> held OPEN1 (E ++ [node]) n).
  { intros n [Hn|Hn].
    - apply Hin in Hn as [->|Hn]; [right; set_solver|by left].
    - right. set_solver. }
  assert (Hback : forall n, held OPEN1 (E ++ [node]) n -> held OPEN E n).
  { intros n [Hn|Hn].
    - left. apply Hin. by right.
    - apply elem_of_app in Hn as [Hn|Hn]; [by right|].
      apply list_elem_of_singleton in Hn as ->. left. apply Hin. by left. }
  assert (Hnode : priced_at (length E) node).
  { apply Hpriced. left. apply Hin. by left. }
  pose proof (expand_children_frontier E node (successors m node cs) OPEN1 CLOSED Hhor Hnode
                (fun c Hc => Hc) Hheap1) as Hfold.
  cbv zeta in Hfold. unfold AStar.expand.
  destruct (fold_left (AStar.expand_child map_width goal node) (successors m node cs)
              (OPEN1, CLOSED)) as [O2 C2].
  destruct Hfold as (Hheap2 & Hpriced2 & Hclosed2 & Hgrow2 & Hall2).
  { intros n Hn. eapply priced_mono; [|apply Hpriced; by apply Hback]. lia. }
  { intros k r Hkr. destruct (Hclosed k r Hkr) as [? ?]. split; [done|]. by apply Hmove. }
  simpl in *.
  assert (Hkeep : forall n, held OPEN E n -> held O2 (E ++ [node]) n).
  { intros n Hn. destruct (Hmove n Hn) as [?|?]; [left; by apply Hgrow2|by right]. }
  unfold frontier_ok. simpl. rewrite length_app. simpl.
  replace (length E + 1)%nat with (S (length E)) by lia.
  split; [done|]. split; [done|]. split; [done|]. split; [by apply Hkeep|].
  split.
  - intros e child He Hchild. apply elem_of_app in He as [He|He].
    + destruct (Hsucc e child He Hchild) as (n & Hn & Heq). exists n. split; [by apply Hkeep|done].
    + apply list_elem_of_singleton in He as ->. by apply Hall2.
  - apply Forall_app. split; [done|]. by constructor.
Qed.

Lemma frontier_ok_expands (oc : list State * gmap Z State) (nodes : list State)
    (oc' : list State * gmap Z State) :
  AStar.expands map_width m goal cs oc nodes oc' ->
  forall E, (length E + length nodes <= horizon)%nat ->
            frontier_ok map_width height m goal cs start oc E ->
            frontier_ok map_width height m goal cs start oc' (E ++ nodes).
Proof.
  induction 1 as [oc|OPEN CLOSED node OPEN1 nodes oc' Hpop Hgoal Hex IH]; intros E Hlen Hok.
  - by rewrite app_nil_r.
  - simpl in Hlen. replace (E ++ node :: nodes) with ((E ++ [node]) ++ nodes)
      by (by rewrite <- app_assoc).
    apply IH.
    + rewrite length_app. simpl. lia.
    + apply (frontier_ok_step E OPEN CLOSED node OPEN1); [lia|done|done|done].
Qed.

Lemma get_heuristic_goal (a : State) : is_goal a goal = true -> get_heuristic a goal = 0.
Proof.
  unfold is_goal, get_heuristic. intros [Hx%Z.eqb_eq Hy%Z.eqb_eq]%andb_prop. lia.
Qed.

Lemma get_heuristic_move (a child : State) :
  child ∈ successors m a cs -> get_heuristic a goal <= get_heuristic child goal + 1.
Proof.
  intros Hchild. pose proof (regular_move _ _ _ _ Hreg a child Hchild).
  unfold get_heuristic. lia.
Qed.

Lemma reaches_heuristic (a : State) (n : nat) (b : State) :
  reaches m cs a n b -> is_goal b goal = true -> get_heuristic a goal <= Z.of_nat n.
Proof.
  induction 1 as [a b Heq|a child n b Hchild Hwalk IH]; intros Hgoal.
  - rewrite (get_heuristic_eq a b goal Heq), get_heuristic_goal by done. lia.
  - pose proof (get_heuristic_move a child Hchild). specialize (IH Hgoal). lia.
Qed.

Lemma reaches_g (a : State) (n : nat) (b : State) :
  reaches m cs a n b -> get_g b = get_g a + Z.of_nat n.
Proof.
  induction 1 as [a b Heq|a child n b Hchild Hwalk IH].
  - apply State_eq_spec in Heq as (_ & _ & Hg). lia.
  - rewrite IH, (regular_g _ _ _ _ Hreg a child Hchild). lia.
Qed.

Lemma reaches_eq_l (a a' : State) (n : nat) (b : State) :
  State_eq a' a = true -> reaches m cs a n b -> reaches m cs a' n b.
Proof.
  intros Heq Hwalk. destruct Hwalk as [a b Hab|a child n b Hchild Hwalk].
  - constructor. by eapply State_eq_trans.
  - destruct (regular_eq _ _ _ _ Hreg a a' child (State_eq_sym _ _ Heq) Hchild)
      as (child' & Hchild' & Hcc).
    apply (reaches_S m cs a' child' n b Hchild').
    clear Hchild Hchild' Heq. revert child' Hcc.
    induction Hwalk as [c b Hcb|c d n b Hd Hwalk IH]; intros child' Hcc.
    + constructor. eapply State_eq_trans; [by apply State_eq_sym|done].
    + destruct (regular_eq _ _ _ _ Hreg c child' d Hcc Hd) as (d' & Hd' & Hdd).
      apply (reaches_S m cs child' d' n b Hd'). by apply IH.
Qed.

Lemma reaches_snoc (a : State) (n : nat) (b child c : State) :
  reaches m cs a n b -> child ∈ successors m b cs -> State_eq child c = true ->
  reaches m cs a (S n) c.
Proof.
  induction 1 as [a b Heq|a d n b Hd Hwalk IH]; intros Hchild Hcc.
  - destruct (regular_eq _ _ _ _ Hreg b a child (State_eq_sym _ _ Heq) Hchild)
      as (child' & Hchild' & Hcc').
    apply (reaches_S m cs a child' 0 c Hchild'). constructor.
    eapply State_eq_trans; [by apply State_eq_sym|done].
  - apply (reaches_S m cs a d (S n) c Hd). by apply IH.
Qed.

Lemma generated_reaches (node : State) :
  AStar.generated m goal cs start node ->
  exists n, reaches m cs start n node /\ get_g node = get_g start + Z.of_nat n.
Proof.
  induction 1 as [|parent child Hgen (n & Hwalk & Hg) Hchild].
  - exists 0%nat. split; [constructor; by apply State_eq_spec|simpl; lia].
  - exists (S n). split.
    + apply (reaches_snoc start n parent child); [done|done|by apply State_eq_spec].
    + simpl get_g. rewrite (regular_g _ _ _ _ Hreg parent child Hchild), Hg. lia.
Qed.

(** Along any walk to the goal cell, the queue holds a state that is
    not dearer than the walk. *)
Lemma frontier_walk (oc : list State * gmap Z State) (E : list State) :
  frontier_ok map_width height m goal cs start oc E ->
  forall a n b,
    reaches m cs a n b -> is_goal b goal = true ->
    forall x, held oc.1 E x -> State_eq x a = true ->
    exists o, o ∈ oc.1 /\ get_cost o <= get_g a + Z.of_nat n.
Proof.
  intros (Hheap & Hpriced & Hclosed & Hstart & Hsucc & Hnongoal) a n b Hwalk Hgoal.
  induction Hwalk as [a b Heq|a child n b Hchild Hwalk IH]; intros x Hheld Hxa.
  - destruct Hheld as [Hx|Hx].
    + exists x. split; [done|]. destruct (Hpriced x (or_introl Hx)) as [-> _].
      rewrite (get_heuristic_eq x b goal) by by eapply State_eq_trans.
      rewrite get_heuristic_goal by done.
      apply State_eq_spec in Hxa as (_ & _ & ->). lia.
    + exfalso. rewrite Forall_forall in Hnongoal. specialize (Hnongoal x Hx).
      rewrite (is_goal_eq x b goal) in Hnongoal by by eapply State_eq_trans.
      congruence.
  - destruct Hheld as [Hx|Hx].
    + exists x. split; [done|]. destruct (Hpriced x (or_introl Hx)) as [-> _].
      rewrite (get_heuristic_eq x a goal Hxa).
      pose proof (reaches_heuristic a (S n) b (reaches_S m cs a child n b Hchild Hwalk) Hgoal).
      apply State_eq_spec in Hxa as (_ & _ & ->). lia.
    + destruct (regular_eq _ _ _ _ Hreg a x child (State_eq_sym _ _ Hxa) Hchild)
        as (child' & Hchild' & Hcc).
      destruct (Hsucc x child' Hx Hchild') as (n' & Hn' & Heq').
      destruct (IH Hgoal n' Hn') as (o & Ho & Hcost).
      { eapply State_eq_trans; [done|by apply State_eq_sym]. }
      exists o. split; [done|].
      rewrite (regular_g _ _ _ _ Hreg a child Hchild) in Hcost. lia.
Qed.

End optimal.

(** A returned cost is not above the length of any walk to the goal
    cell, and a search cannot fail while such a walk exists. *)
Lemma search_below_walk
    (map_width height : Z) (fuel : nat) (self : AStar.t) (start goal : State)
    (cs : option Constraints) (c : Z) (path : option (list State)) (n : nat) (b : State) :
  regular (AStar.map self) map_width height cs ->
  collision_free map_width height (get_g start) fuel ->
  0 <= get_x start < map_width -> 0 <= get_y start < height ->
  AStar.returned (AStar.search map_width fuel self start goal cs) = Done (c, path) ->
  reaches (AStar.map self) cs start n b -> is_goal b goal = true ->
  c <= get_g start + Z.of_nat n /\ is_Some path.
Proof.
  intros Hreg Hfree Hx Hy Hrun Hwalk Hgoal.
  apply returned_search in Hrun as [oc' Hrun].
  apply (search_loop_Done map_width (AStar.map self) goal cs fuel
           (AStar.entry map_width start goal)) in Hrun
    as (nodes & OPEN' & CLOSED' & Hex & Hlen & Hres).
  pose proof (frontier_ok_expands map_width height (AStar.map self) goal cs start fuel
                Hreg Hfree _ nodes _ Hex [] ltac:(simpl; lia)
                (frontier_ok_entry map_width height (AStar.map self) goal cs start Hx Hy))
    as Hok.
  simpl in Hok.
  assert (Hstart : State_eq (AStar.compute_cost goal start) start = true)
    by by apply State_eq_spec.
  pose proof Hok as (Hheap & Hpriced & _ & Hheld & _).
  destruct (frontier_walk map_width height (AStar.map self) goal cs start Hreg
              (OPEN', CLOSED') nodes Hok start n b Hwalk Hgoal _ Hheld Hstart)
    as (o & Ho & Hcost).
  simpl in Ho, Hheap, Hpriced.
  destruct Hres as [(-> & _)|(node & OPEN'' & Hpop & Hnode_goal & [= -> ->] & _)].
  - by apply not_elem_of_nil in Ho.
  - destruct (heappop_State OPEN' node OPEN'' Hheap Hpop) as (_ & Hperm & Hmin).
    assert (Hin : node ∈ OPEN') by (rewrite Hperm; by left).
    destruct (Hpriced node (or_introl Hin)) as [Hprice _].
    rewrite (get_heuristic_goal goal node Hnode_goal) in Hprice.
    specialize (Hmin o Ho). split; [lia|by eexists].
Qed.

(** A returned path ends a walk of as many moves as its cost. *)
Lemma search_walks
    (map_width height : Z) (fuel : nat) (self : AStar.t) (start goal : State)
    (cs : option Constraints) (c : Z) (p : list State) :
  regular (AStar.map self) map_width height cs ->
  AStar.returned (AStar.search map_width fuel self start goal cs) = Done (c, Some p) ->
  exists n0 b0,
    last p = Some b0 /\ is_goal b0 goal = true /\
    reaches (AStar.map self) cs start n0 b0 /\ c = get_g start + Z.of_nat n0.
Proof.
  intros Hreg Hrun.
  apply returned_search in Hrun as [oc' Hrun].
  apply (search_loop_Done map_width (AStar.map self) goal cs fuel
           (AStar.entry map_width start goal)) in Hrun
    as (nodes & OPEN' & CLOSED' & Hex & Hlen & Hres).
  destruct Hres as [(_ & [=] & _)|(node & OPEN'' & Hpop & Hnode_goal & [= -> ->] & _)].
  destruct (expands_generated map_width (AStar.map self) goal cs start _ nodes _ Hex
              (entry_generated map_width (AStar.map self) goal cs start)) as [Hopen _].
  destruct (heappop_Forall _ _ _ _ _ Hpop Hopen) as [Hgen _].
  destruct (generated_reaches map_width height (AStar.map self) goal cs start Hreg
              node Hgen) as (n0 & Hwalk0 & Hg0).
  exists n0, node. split; [|done].
  unfold AStar._recover_path. by rewrite last_reverse, parents_head.
Qed.

(** The cost [AStar.search] returns is the least number of moves: when
    the map is regular and no two states of the grid within the fuel's
    horizon share a hash, a search that returns while some walk leads
    from the start to the goal cell returns a path; its cost is the
    start's [g] plus the length of a walk to the goal cell that ends in
    the path's last state, and no walk to the goal cell is shorter. *)
Theorem search_cost_least
    (map_width height : Z) (fuel : nat) (self : AStar.t) (start goal : State)
    (cs : option Constraints) (c : Z) (path : option (list State)) (n : nat) (b : State) :
  regular (AStar.map self) map_width height cs ->
  collision_free map_width height (get_g start) fuel ->
  0 <= get_x start < map_width -> 0 <= get_y start < height ->
  AStar.returned (AStar.search map_width fuel self start goal cs) = Done (c, path) ->
  reaches (AStar.map self) cs start n b -> is_goal b goal = true ->
  c <= get_g start + Z.of_nat n /\
  exists p n0 b0,
    path = Some p /\ last p = Some b0 /\ is_goal b0 goal = true /\
    reaches (AStar.map self) cs start n0 b0 /\ c = get_g start + Z.of_nat n0.
Proof.
  intros Hreg Hfree Hx Hy Hrun Hwalk Hgoal.
  destruct (search_below_walk map_width height fuel self start goal cs c path n b
              Hreg Hfree Hx Hy Hrun Hwalk Hgoal) as [Hle [p ->]].
  split; [exact Hle|].
  destruct (search_walks map_width height fuel self start goal cs c p Hreg Hrun)
    as (n0 & b0 & Hlast & Hgoal0 & Hwalk0 & Hc).
  by exists p, n0, b0.
Qed.

(** ** The gridded map is regular *)

Lemma gridded_successors_eq (width height : Z) (is_blocked : Z -> Z -> bool)
    (a a' : State) (cs : option Constraints) :
  State_eq a a' = true ->
  gridded_successors width height is_blocked a cs
  = gridded_successors width height is_blocked a' cs.
Proof.
  intros (Hx & Hy & Hg)%State_eq_spec. unfold gridded_successors. by rewrite Hx, Hy, Hg.
Qed.

Lemma gridded_successors_move (width height : Z) (is_blocked : Z -> Z -> bool)
    (a child : State) (cs : option Constraints) :
  child ∈ gridded_successors width height is_blocked a cs ->
  Z.abs (get_x child - get_x a) + Z.abs (get_y child - get_y a) <= 1.
Proof.
  unfold gridded_successors. intros Hin.
  apply list_elem_of_fmap in Hin as ([cx cy] & -> & Hin).
  apply list_elem_of_filter in Hin as [_ Hin].
  apply list_elem_of_fmap in Hin as ([dx dy] & [= -> ->] & Hd). simpl.
  unfold gridded_moves in Hd.
  repeat (apply elem_of_cons in Hd as [[= -> ->]|Hd]; [lia|]).
  by apply not_elem_of_nil in Hd.
Qed.

Lemma gridded_regular (width height : Z) (is_blocked : Z -> Z -> bool)
    (cs : option Constraints) :
  regular (gridded_map width height is_blocked) width height cs.
Proof.
  split.
  - intros a a' child Heq Hchild. exists child. split; [|apply State_eq_refl].
    simpl in *. by rewrite <- (gridded_successors_eq _ _ _ a a').
  - intros a child Hchild. simpl in Hchild.
    by apply gridded_successors_inv in Hchild as (? & _).
  - intros a child Hchild. exact (gridded_successors_move _ _ _ _ _ _ Hchild).
  - intros a child Hchild. simpl in Hchild.
    by apply gridded_successors_inv in Hchild as (_ & _ & _ & ? & ? & _).
Qed.

Lemma search_cost_least_witness :
  let cs := Some forbid_next_cell in
  let start := State_init 0 0 in
  let goal := State_init 2 0 in
  regular corridor 3 1 cs /\ collision_free 3 1 0 5 /\
  reaches corridor cs start 3 (at_time 2 0 3) /\
  exists c path,
    AStar.returned (AStar.search 3 5 (AStar.init corridor) start goal cs) = Done (c, path) /\
    c <= 3 /\ is_Some path.
Proof.
  intros cs start goal.
  assert (Hreg : regular corridor 3 1 cs) by apply gridded_regular.
  assert (Hfree : collision_free 3 1 (get_g start) 5).
  { apply (bool_decide_unpack _). vm_compute. exact I. }
  assert (Hwalk : reaches corridor cs start 3 (at_time 2 0 3)).
  { apply (reaches_S corridor cs start (at_time 0 0 1)).
    { assert (Hs : successors corridor start cs = [at_time 0 0 1])
        by (vm_compute; reflexivity).
      rewrite Hs. by left. }
    apply (reaches_S corridor cs _ (at_time 1 0 2)).
    { assert (Hs : successors corridor (at_time 0 0 1) cs = [at_time 1 0 2; at_time 0 0 2])
        by (vm_compute; reflexivity).
      rewrite Hs. by left. }
    apply (reaches_S corridor cs _ (at_time 2 0 3)).
    { assert (Hs : successors corridor (at_time 1 0 2) cs
                   = [at_time 2 0 3; at_time 0 0 3; at_time 1 0 3])
        by (vm_compute; reflexivity).
      rewrite Hs. by left. }
    constructor. reflexivity. }
  split; [exact Hreg|]. split; [exact Hfree|]. split; [exact Hwalk|].
  destruct (AStar.returned (AStar.search 3 5 (AStar.init corridor) start goal cs))
    as [[c path]| |] eqn:Hrun; [|vm_compute in Hrun; discriminate Hrun..].
  exists c, path. split; [reflexivity|].
  destruct (search_cost_least 3 1 5 (AStar.init corridor) start goal cs c path 3
              (at_time 2 0 3) Hreg Hfree ltac:(simpl; lia) ltac:(simpl; lia) Hrun Hwalk
              eq_refl) as (Hle & p & _ & _ & -> & _).
  split; [exact Hle|by eexists].
Defined.

(** * Paths and costs of a node *)

(** ** What a returned path is *)

Lemma search_found (map_width : Z) (fuel : nat) (self : AStar.t) (start goal : State)
    (cs : option Constraints) (c : Z) (p : list State) :
  AStar.returned (AStar.search map_width fuel self start goal cs) = Done (c, Some p) ->
  exists node,
    AStar.generated (AStar.map self) goal cs start node /\ is_goal node goal = true /\
    c = get_g node /\ p = AStar._recover_path node.
Proof.
  intros Hrun. apply returned_search in Hrun as [oc' Hrun].
  apply (search_loop_Done map_width (AStar.map self) goal cs fuel
           (AStar.entry map_width start goal)) in Hrun
    as (nodes & OPEN' & CLOSED' & Hex & Hlen & Hres).
  destruct Hres as [(_ & [=] & _)|(node & OPEN'' & Hpop & Hnode_goal & [= -> ->] & _)].
  destruct (expands_generated map_width (AStar.map self) goal cs start _ nodes _ Hex
              (entry_generated map_width (AStar.map self) goal cs start)) as [Hopen _].
  destruct (heappop_Forall _ _ _ _ _ Hpop Hopen) as [Hgen _].
  by exists node.
Qed.

Lemma generated_path_g (m : Map) (goal : State) (cs : option Constraints)
    (start node : State) :
  (forall n child, child ∈ successors m n cs -> get_g child = get_g n + 1) ->
  get_parent start = None ->
  AStar.generated m goal cs start node ->
  forall i s, AStar._recover_path node !! i = Some s -> get_g s = get_g start + Z.of_nat i.
Proof.
  intros Hg Hroot Hgen. induction Hgen as [|parent child Hgen IH Hchild]; intros i s Hi.
  - unfold AStar._recover_path in Hi. rewrite (parents_start m goal cs start Hroot) in Hi.
    destruct i as [|i]; [|done]. injection Hi as <-. simpl. lia.
  - unfold AStar._recover_path in Hi. rewrite parents_set_parent, reverse_cons in Hi.
    apply lookup_app_Some in Hi as [Hi|[Hlen Hi]]; [by apply IH|].
    rewrite length_reverse in Hlen, Hi.
    apply list_lookup_singleton_Some in Hi as [Hi <-].
    pose proof (generated_g m goal cs start parent Hg Hroot Hgen) as Hp.
    specialize (Hg parent child Hchild). simpl. lia.
Qed.

(** A path the search returns for a start without a parent is a chain
    of moves of the map, one timestep each: the state at index [i]
    carries the time of the start plus [i], consecutive states are
    linked by [AStar.step], and the path has as many states as the
    returned cost is above the time of the start, plus one. *)
Theorem search_path_timed
    (map_width : Z) (fuel : nat) (self : AStar.t) (start goal : State)
    (cs : option Constraints) (c : Z) (p : list State) :
  (forall n child, child ∈ successors (AStar.map self) n cs -> get_g child = get_g n + 1) ->
  get_parent start = None ->
  AStar.returned (AStar.search map_width fuel self start goal cs) = Done (c, Some p) ->
  (forall i s, p !! i = Some s -> get_g s = get_g start + Z.of_nat i) /\
  Z.of_nat (length p) = c - get_g start + 1 /\
  (forall i a b, p !! i = Some a -> p !! S i = Some b ->
     AStar.step (AStar.map self) goal cs a b).
Proof.
  intros Hg Hroot Hrun.
  destruct (search_found _ _ _ _ _ _ _ _ Hrun) as (node & Hgen & _ & -> & ->).
  split; [by apply (generated_path_g (AStar.map self) goal cs start node)|]. split.
  - unfold AStar._recover_path. rewrite length_reverse.
    pose proof (generated_g (AStar.map self) goal cs start node Hg Hroot Hgen). lia.
  - by destruct (recover_path_facts (AStar.map self) goal cs start node Hroot Hgen)
      as (_ & _ & Hsteps).
Qed.

(** ** What [compute_cost] leaves behind *)

Lemma search_fresh (map_width : Z) (fuel : nat) (astar : AStar.t) (m : Map)
    (start goal : State) (cs : option Constraints) :
  AStar.map astar = m ->
  AStar.returned (AStar.search map_width fuel astar start goal cs)
  = AStar.returned (AStar.search map_width fuel (AStar.init m) start goal cs).
Proof.
  intros <-. rewrite !search_unfold. simpl.
  by destruct (AStar.search_loop _ _ _ _ _ _ _) as [[r' [O C]]|e|].
Qed.

Lemma searched_result_of (map_width : Z) (fuel : nat)
    (result : nat -> Z * option (list State)) (self : CBSState.t) (j : nat) :
  searched map_width fuel result self j -> result_of map_width fuel self j = result j.
Proof.
  intros (start & goal & cs & Hs & Hg & Hc & Hrun). unfold result_of.
  by rewrite Hs, Hg, Hc, Hrun.
Qed.

Lemma compute_cost_agent_inv (map_width : Z) (fuel : nat) (astar astar' : AStar.t)
    (self self' : CBSState.t) (i : nat) :
  AStar.map astar = CBSState.map self ->
  CBSState.compute_cost_agent map_width fuel (astar, self) i = Done (astar', self') ->
  searched map_width fuel (result_of map_width fuel self) self i /\
  AStar.map astar' = CBSState.map self /\
  CBSState.map self' = CBSState.map self /\
  CBSState.starts self' = CBSState.starts self /\
  CBSState.goals self' = CBSState.goals self /\
  CBSState.constraints self' = CBSState.constraints self.
Proof.
  intros Hmap. unfold CBSState.compute_cost_agent, list_get, dict_get.
  destruct (CBSState.starts self !! i) as [start|] eqn:Hs; [|done].
  destruct (CBSState.goals self !! i) as [goal|] eqn:Hg; [|done].
  destruct (CBSState.constraints self !! i) as [cs|] eqn:Hc; [|done]. simpl.
  destruct (AStar.search map_width fuel astar start goal (Some cs))
    as [[[c path] a]| |] eqn:Hrun; [|done|done].
  simpl. intros [= <- <-].
  assert (Hret : AStar.returned (AStar.search map_width fuel
                   (AStar.init (CBSState.map self)) start goal (Some cs)) = Done (c, path)).
  { rewrite <- (search_fresh map_width fuel astar _ start goal (Some cs) Hmap).
    by rewrite Hrun. }
  split; [|split; [|done]].
  - exists start, goal, cs. split; [done|]. split; [done|]. split; [done|].
    unfold result_of. by rewrite Hs, Hg, Hc, Hret.
  - by rewrite (search_map _ _ _ _ _ _ _ _ Hrun).
Qed.

Lemma searched_fields (map_width : Z) (fuel : nat)
    (result : nat -> Z * option (list State)) (self self' : CBSState.t) (j : nat) :
  CBSState.map self' = CBSState.map self ->
  CBSState.starts self' = CBSState.starts self ->
  CBSState.goals self' = CBSState.goals self ->
  CBSState.constraints self' = CBSState.constraints self ->
  searched map_width fuel result self' j -> searched map_width fuel result self j.
Proof. unfold searched. by intros -> -> -> ->. Qed.

Lemma result_of_fields (map_width : Z) (fuel : nat) (self self' : CBSState.t) (j : nat) :
  CBSState.map self' = CBSState.map self ->
  CBSState.starts self' = CBSState.starts self ->
  CBSState.goals self' = CBSState.goals self ->
  CBSState.constraints self' = CBSState.constraints self ->
  result_of map_width fuel self' j = result_of map_width fuel self j.
Proof. unfold result_of. by intros -> -> -> ->. Qed.

Lemma compute_cost_loop_inv (map_width : Z) (fuel : nat) (agents : list nat) :
  forall astar self astar' self',
    AStar.map astar = CBSState.map self ->
    CBSState.compute_cost_loop map_width fuel agents (astar, self) = Done (astar', self') ->
    forall j, j ∈ agents -> searched map_width fuel (result_of map_width fuel self) self j.
Proof.
  induction agents as [|i agents IH]; intros astar self astar' self' Hmap Hloop j Hj.
  { by apply not_elem_of_nil in Hj. }
  cbn [CBSState.compute_cost_loop] in Hloop.
  destruct (CBSState.compute_cost_agent map_width fuel (astar, self) i)
    as [[astar1 self1]| |] eqn:Hagent; [|done|done].
  destruct (compute_cost_agent_inv _ _ _ _ _ _ _ Hmap Hagent)
    as (Hi & Hmap1 & Hm & Hs & Hg & Hc).
  apply elem_of_cons in Hj as [->|Hj]; [done|].
  simpl in Hloop. rewrite <- Hm in Hmap1.
  pose proof (IH astar1 self1 astar' self' Hmap1 Hloop j Hj) as Hsearched.
  apply (searched_fields _ _ _ self self1 j Hm Hs Hg Hc).
  destruct Hsearched as (s' & g' & c' & ? & ? & ? & Hrun).
  exists s', g', c'. split; [done|]. split; [done|]. split; [done|].
  by rewrite <- (result_of_fields map_width fuel self self1 j Hm Hs Hg Hc).
Qed.

(** A call of [compute_cost] that returns has run the search of every
    agent, added the costs to the cost of the node and filed the paths. *)
Lemma compute_cost_inv (map_width : Z) (fuel : nat) (self self' : CBSState.t)
    (r : Paths * Z) :
  CBSState.compute_cost map_width fuel self = Done (r, self') ->
  let result := result_of map_width fuel self in
  (forall j, (j < CBSState.k self)%nat -> searched map_width fuel result self j) /\
  r = (CBSState.paths self', CBSState.cost self') /\
  self' = CBSState.mk (CBSState.cost self + total_cost result (seq 0 (CBSState.k self)))
            (CBSState.constraints self) (CBSState.map self) (CBSState.starts self)
            (CBSState.goals self) (CBSState.k self)
            (fold_left (fun ps j => <[j := (result j).2]> ps) (seq 0 (CBSState.k self))
               (CBSState.paths self)).
Proof.
  intros Hrun result. unfold CBSState.compute_cost in Hrun.
  destruct (CBSState.compute_cost_loop map_width fuel (seq 0 (CBSState.k self))
              (AStar.init (CBSState.map self), self)) as [[astar1 self1]| |] eqn:Hloop;
    [|done|done].
  simpl in Hrun. injection Hrun as <- <-.
  assert (Hall : forall j, j ∈ seq 0 (CBSState.k self) ->
                   searched map_width fuel result self j)
    by exact (compute_cost_loop_inv map_width fuel _ (AStar.init (CBSState.map self)) self
                astar1 self1 eq_refl Hloop).
  destruct (compute_cost_loop_spec map_width fuel result (seq 0 (CBSState.k self))
              (AStar.init (CBSState.map self)) self eq_refl Hall)
    as (astar2 & self2 & Hloop2 & Hself2).
  rewrite Hloop in Hloop2. injection Hloop2 as -> ->.
  split; [|by split].
  intros j Hj. apply Hall, elem_of_seq. lia.
Qed.

Lemma fold_insert_same {V} (f : nat -> V) (js : list nat) (acc : gmap nat V) :
  (forall j, j ∈ js -> acc !! j = Some (f j)) ->
  fold_left (fun ps j => <[j := f j]> ps) js acc = acc.
Proof.
  intros Hacc. apply map_eq. intros i. rewrite fold_insert_lookup.
  case_decide as Hi; [|done]. by rewrite Hacc.
Qed.

(** [compute_cost] adds to the cost the node already carries: a second
    call on the node the first call leaves files the same paths again
    and returns the cost of the first call plus, once more, what the
    first call added. *)
Theorem compute_cost_accumulates
    (map_width : Z) (fuel : nat) (self self' : CBSState.t) (r : Paths * Z) :
  CBSState.compute_cost map_width fuel self = Done (r, self') ->
  exists self'',
    CBSState.compute_cost map_width fuel self'
    = Done ((CBSState.paths self', 2 * CBSState.cost self' - CBSState.cost self), self'') /\
    CBSState.cost self'' = 2 * CBSState.cost self' - CBSState.cost self /\
    CBSState.paths self'' = CBSState.paths self'.
Proof.
  intros Hrun. destruct (compute_cost_inv _ _ _ _ _ Hrun) as (Hall & _ & Hself').
  set (result := result_of map_width fuel self) in *.
  assert (Hall' : forall j, j ∈ seq 0 (CBSState.k self') ->
                    searched map_width fuel result self' j).
  { intros j Hj. rewrite Hself' in Hj |- *. simpl in Hj.
    apply elem_of_seq in Hj.
    destruct (Hall j ltac:(lia)) as (s' & g' & c' & ? & ? & ? & ?). by exists s', g', c'. }
  destruct (compute_cost_loop_spec map_width fuel result (seq 0 (CBSState.k self'))
              (AStar.init (CBSState.map self')) self' eq_refl Hall')
    as (astar2 & self2 & Hloop2 & Hself2).
  assert (Hpaths : CBSState.paths self2 = CBSState.paths self').
  { rewrite Hself2. simpl. apply fold_insert_same. intros j Hj.
    rewrite Hself' in Hj |- *. simpl in Hj |- *. rewrite fold_insert_lookup.
    by rewrite decide_True. }
  assert (Hcost : CBSState.cost self2 = 2 * CBSState.cost self' - CBSState.cost self).
  { rewrite Hself2. simpl. rewrite Hself'. simpl. lia. }
  exists self2. split; [|by split].
  unfold CBSState.compute_cost. rewrite Hloop2. simpl. by rewrite Hpaths, Hcost.
Qed.

(** What [compute_cost] files for the agents: when the map stamps
    [g + 1] on every successor and the starts are at time 0 without a
    parent, the node it leaves is [timed], and every path it files for an
    agent begins with a state [==] to the start of the agent and ends on
    the goal cell of the agent. *)
Theorem compute_cost_keeps_timed
    (map_width : Z) (fuel : nat) (self self' : CBSState.t) (r : Paths * Z) :
  (forall cs n child,
     child ∈ successors (CBSState.map self) n cs -> get_g child = get_g n + 1) ->
  (forall s, s ∈ CBSState.starts self -> get_g s = 0 /\ get_parent s = None) ->
  timed self ->
  CBSState.compute_cost map_width fuel self = Done (r, self') ->
  timed self' /\
  forall i p, (i < CBSState.k self)%nat -> CBSState.paths self' !! i = Some (Some p) ->
    exists start goal first final,
      CBSState.starts self !! i = Some start /\ CBSState.goals self !! i = Some goal /\
      head p = Some first /\ State_eq first start = true /\
      last p = Some final /\ is_goal final goal = true.
Proof.
  intros Hg Hstarts Htimed Hrun.
  destruct (compute_cost_inv _ _ _ _ _ Hrun) as (Hall & _ & Hself'). split.
  - intros i t s Hs. unfold path_state in Hs. rewrite Hself' in Hs. simpl in Hs.
    rewrite fold_insert_lookup in Hs. case_decide as Hi.
    + apply elem_of_seq in Hi.
      destruct (Hall i ltac:(lia)) as (start & goal & cs & Hstart & _ & _ & Hsearch).
      destruct (result_of map_width fuel self i) as [c [p|]]; [|done]. simpl in Hs.
      destruct (search_found _ _ _ _ _ _ _ _ Hsearch) as (node & Hgen & _ & _ & ->).
      destruct (Hstarts start (list_elem_of_lookup_2 _ _ _ Hstart)) as [Hg0 Hroot].
      simpl in Hgen.
      rewrite (generated_path_g _ _ _ _ _ (Hg (Some cs)) Hroot Hgen t s Hs). lia.
    + apply (Htimed i t s). unfold path_state. exact Hs.
  - intros i p Hi Hp. rewrite Hself' in Hp. simpl in Hp.
    rewrite fold_insert_lookup, decide_True in Hp by (apply elem_of_seq; lia).
    destruct (Hall i Hi) as (start & goal & cs & Hstart & Hgoal & _ & Hsearch).
    destruct (result_of map_width fuel self i) as [c path]. simpl in Hp.
    injection Hp as ->.
    destruct (search_found _ _ _ _ _ _ _ _ Hsearch) as (node & Hgen & Hnode & _ & ->).
    destruct (Hstarts start (list_elem_of_lookup_2 _ _ _ Hstart)) as [_ Hroot].
    destruct (recover_path_facts _ goal (Some cs) start node Hroot Hgen) as (Hhead & Hlast & _).
    exists start, goal, (AStar.compute_cost goal start), node.
    split; [done|]. split; [done|]. split; [done|]. split; [by apply State_eq_spec|].
    by split.
Qed.

(** ** A node with an agent without a path *)

Lemma is_solution_agents_TypeError (self : CBSState.t) (t : nat) (agents : list nat) :
  forall sc,
    (forall j, j ∈ agents -> is_Some (CBSState.paths self !! j)) ->
    (exists i, i ∈ agents /\ CBSState.paths self !! i = Some None) ->
    CBSState.is_solution_agents self t agents sc = Raise TypeError.
Proof.
  induction agents as [|i0 agents IH]; intros sc Hall (i & Hi & Hnone).
  { by apply not_elem_of_nil in Hi. }
  cbn [CBSState.is_solution_agents]. unfold CBSState.is_solution_agent at 1.
  unfold CBSState.path_of, dict_get.
  destruct (Hall i0 (list_elem_of_here _ _)) as [[p|] Hp]; rewrite Hp; [|done]. simpl.
  assert (Hrest : forall sc', CBSState.is_solution_agents self t agents sc' = Raise TypeError).
  { intros sc'. apply IH.
    - intros j Hj. by apply Hall, list_elem_of_further.
    - exists i. split; [|done]. apply elem_of_cons in Hi as [->|Hi]; [|done]. congruence. }
  case_decide as Ht.
  - unfold list_get. destruct (lookup_lt_is_Some_2 p t Ht) as [s ->]. simpl.
    destruct (CBSState.in_step_set _ _); simpl; apply Hrest.
  - simpl. apply Hrest.
Qed.

(** After a failed search the node cannot be tested: when
    [compute_cost] has filed [None] as the path of an agent, [is_solution]
    raises [TypeError] at the first timestep, and so does [successors]. *)
Theorem is_solution_after_failed_search
    (map_width : Z) (fuel fuel' : nat) (self self' : CBSState.t) (r : Paths * Z) (i : nat) :
  CBSState.compute_cost map_width fuel self = Done (r, self') ->
  (i < CBSState.k self)%nat ->
  CBSState.paths self' !! i = Some None ->
  CBSState.is_solution (S fuel') self' = Raise TypeError /\
  CBSState.successors (S fuel') self' = Raise TypeError.
Proof.
  intros Hrun Hi Hnone.
  destruct (compute_cost_inv _ _ _ _ _ Hrun) as (_ & _ & Hself').
  assert (Hk : CBSState.k self' = CBSState.k self) by by rewrite Hself'.
  assert (Hsol : CBSState.is_solution (S fuel') self' = Raise TypeError).
  { unfold CBSState.is_solution. rewrite decide_True by lia.
    cbn [CBSState.is_solution_loop].
    rewrite (is_solution_agents_TypeError self' 0 (seq 0 (CBSState.k self'))); [done| |].
    - intros j Hj. rewrite Hk in Hj. rewrite Hself'. simpl.
      rewrite fold_insert_lookup, decide_True by done. by eexists.
    - exists i. split; [|done]. apply elem_of_seq. lia. }
  split; [done|]. unfold CBSState.successors. by rewrite Hsol.
Qed.

(** ** Fewer goals than starts *)

Lemma compute_cost_loop_app (map_width : Z) (fuel : nat) (l1 l2 : list nat) :
  forall acc,
    CBSState.compute_cost_loop map_width fuel (l1 ++ l2) acc
    = acc' ← CBSState.compute_cost_loop map_width fuel l1 acc;
      CBSState.compute_cost_loop map_width fuel l2 acc'.
Proof.
  induction l1 as [|i l1 IH]; intros acc; [done|].
  cbn [app CBSState.compute_cost_loop].
  destruct (CBSState.compute_cost_agent map_width fuel acc i) as [acc1| |]; [|done|done].
  simpl. apply IH.
Qed.

(** A node with fewer goals than agents: when the searches of the
    agents that have a goal return, [compute_cost] raises [IndexError] at
    the first agent without a goal. *)
Theorem compute_cost_missing_goal
    (map_width : Z) (fuel : nat) (self : CBSState.t)
    (result : nat -> Z * option (list State)) :
  (length (CBSState.goals self) < CBSState.k self)%nat ->
  (forall j, (j < length (CBSState.goals self))%nat ->
     searched map_width fuel result self j) ->
  CBSState.compute_cost map_width fuel self = Raise IndexError.
Proof.
  intros Hshort Hall. set (n := length (CBSState.goals self)) in *.
  unfold CBSState.compute_cost.
  replace (CBSState.k self) with (n + S (CBSState.k self - S n))%nat by lia.
  rewrite seq_app, compute_cost_loop_app.
  destruct (compute_cost_loop_spec map_width fuel result (seq 0 n)
              (AStar.init (CBSState.map self)) self eq_refl)
    as (astar1 & self1 & -> & Hself1).
  { intros j Hj. apply Hall. apply elem_of_seq in Hj. lia. }
  simpl. unfold list_get.
  destruct (CBSState.starts self1 !! n) as [s|]; [|done].
  simpl. rewrite (lookup_ge_None_2 (CBSState.goals self1) n); [done|].
  rewrite Hself1. simpl. lia.
Qed.

(** * The order of expansion *)

Lemma generated_cost (m : Map) (goal : State) (cs : option Constraints)
    (start node : State) :
  AStar.generated m goal cs start node ->
  get_cost node = get_g node + get_heuristic node goal.
Proof. by intros [|parent child _ _]. Qed.

Lemma expand_child_queue (map_width : Z) (goal node child : State)
    (OPEN : list State) (CLOSED : gmap Z State) :
  heap_ok get_cost OPEN ->
  let oc' := AStar.expand_child map_width goal node (OPEN, CLOSED) child in
  heap_ok get_cost oc'.1 /\
  forall x, x ∈ oc'.1 ->
    x ∈ OPEN \/ x = set_parent (AStar.compute_cost goal child) (Some node).
Proof.
  intros Hheap. unfold AStar.expand_child.
  set (child' := set_parent (AStar.compute_cost goal child) (Some node)).
  destruct (heappush_State OPEN child' Hheap) as [Hheap1 Hperm1].
  destruct (heappush_State _ child' Hheap1) as [Hheap2 Hperm2].
  destruct (CLOSED !! State_hash map_width child) as [reached|] eqn:Hc.
  - rewrite Hc. destruct (get_g child' <? get_g reached); cbn [fst].
    + split; [exact Hheap1|]. intros x Hx. rewrite Hperm1 in Hx.
      apply elem_of_cons in Hx as [->|Hx]; auto.
    + split; [exact Hheap|]. auto.
  - rewrite lookup_insert_eq. destruct (get_g child' <? get_g child'); cbn [fst].
    + split; [exact Hheap2|]. intros x Hx.
      rewrite Hperm2 in Hx. apply elem_of_cons in Hx as [->|Hx]; [auto|].
      rewrite Hperm1 in Hx. apply elem_of_cons in Hx as [->|Hx]; auto.
    + split; [exact Hheap1|]. intros x Hx.
      rewrite Hperm1 in Hx. apply elem_of_cons in Hx as [->|Hx]; auto.
Qed.

Lemma expand_queue (map_width : Z) (m : Map) (goal : State) (cs : option Constraints)
    (node : State) (children : list State) :
  forall OPEN CLOSED,
    heap_ok get_cost OPEN ->
    let oc' := fold_left (AStar.expand_child map_width goal node) children (OPEN, CLOSED) in
    heap_ok get_cost oc'.1 /\
    forall x, x ∈ oc'.1 ->
      x ∈ OPEN \/
      exists child, child ∈ children /\
                    x = set_parent (AStar.compute_cost goal child) (Some node).
Proof.
  induction children as [|child children IH]; intros OPEN CLOSED Hheap; cbn [fold_left].
  { split; [exact Hheap|]. auto. }
  destruct (expand_child_queue map_width goal node child OPEN CLOSED Hheap) as [Hheap1 Hin1].
  destruct (AStar.expand_child map_width goal node (OPEN, CLOSED) child) as [OPEN1 CLOSED1].
  destruct (IH OPEN1 CLOSED1 Hheap1) as [Hheap2 Hin2]. split; [exact Hheap2|].
  intros x Hx. destruct (Hin2 x Hx) as [Hx1|(c & Hc & ->)].
  - destruct (Hin1 x Hx1) as [?| ->]; [by left|]. right. exists child. split; [by left|done].
  - right. exists c. split; [by right|done].
Qed.

Section cost_order.
Variables (map_width : Z) (m : Map) (goal : State) (cs : option Constraints).
Hypothesis Hg : forall a child, child ∈ successors m a cs -> get_g child = get_g a + 1.
Hypothesis Hmove : forall a child,
  child ∈ successors m a cs ->
  Z.abs (get_x child - get_x a) + Z.abs (get_y child - get_y a) <= 1.

Lemma child_cost_ge (node child : State) :
  get_cost node = get_g node + get_heuristic node goal ->
  child ∈ successors m node cs ->
  get_cost node <= get_cost (set_parent (AStar.compute_cost goal child) (Some node)).
Proof.
  intros Hcost Hchild. pose proof (Hg _ _ Hchild). pose proof (Hmove _ _ Hchild).
  simpl. unfold get_heuristic in *. lia.
Qed.

Lemma expands_cost_order (oc oc' : list State * gmap Z State) (nodes : list State) :
  AStar.expands map_width m goal cs oc nodes oc' ->
  forall lb,
    heap_ok get_cost oc.1 ->
    (forall x, x ∈ oc.1 ->
       lb <= get_cost x /\ get_cost x = get_g x + get_heuristic x goal) ->
    (forall i j a b, (i <= j)%nat -> nodes !! i = Some a -> nodes !! j = Some b ->
                     get_cost a <= get_cost b) /\
    heap_ok get_cost oc'.1 /\
    forall x, x ∈ nodes \/ x ∈ oc'.1 ->
      lb <= get_cost x /\ forall a, a ∈ nodes -> x ∈ oc'.1 -> get_cost a <= get_cost x.
Proof.
  induction 1 as [oc|OPEN CLOSED node OPEN' nodes oc' Hpop Hnot Hex IH];
    intros lb Hheap Hopen.
  { split; [by intros i j a b _ Hi|]. split; [done|].
    intros x [Hx|Hx]; [by apply not_elem_of_nil in Hx|].
    split; [by apply Hopen|]. by intros a Ha%not_elem_of_nil. }
  simpl in Hheap, Hopen.
  destruct (heappop_State OPEN node OPEN' Hheap Hpop) as (Hheap' & Hperm & Hmin).
  assert (Hnode : node ∈ OPEN) by (rewrite Hperm; by left).
  destruct (Hopen node Hnode) as [Hlb Hcost].
  destruct (expand_queue map_width m goal cs node (successors m node cs) OPEN' CLOSED Hheap')
    as [Hheap1 Hin1].
  destruct (IH (get_cost node) Hheap1) as (Hsorted & Hheap2 & Hall).
  { intros x Hx. destruct (Hin1 x Hx) as [Hx'|(child & Hchild & ->)].
    - assert (Hx0 : x ∈ OPEN) by (rewrite Hperm; by right).
      split; [by apply Hmin|by apply Hopen].
    - split; [by apply child_cost_ge|done]. }
  split; [|split; [exact Hheap2|]].
  - intros [|i] [|j] a b Hij Hi Hj; simpl in Hi, Hj.
    + injection Hi as <-. injection Hj as <-. lia.
    + injection Hi as <-.
      by destruct (Hall b (or_introl (list_elem_of_lookup_2 _ _ _ Hj))) as [? _].
    + lia.
    + apply (Hsorted i j); [lia|done|done].
  - intros x Hx.
    assert (Hx' : x = node \/ (x ∈ nodes \/ x ∈ oc'.1)).
    { destruct Hx as [[->|Hx]%elem_of_cons|Hx]; auto. }
    destruct Hx' as [->|Hx'].
    + split; [done|]. intros a Ha Hnode'. destruct (Hall node (or_intror Hnode')) as [? Hle].
      apply elem_of_cons in Ha as [->|Ha]; [lia|by apply Hle].
    + destruct (Hall x Hx') as [Hle1 Hle2]. split; [lia|].
      intros a Ha Hxo. apply elem_of_cons in Ha as [->|Ha]; [done|by apply Hle2].
Qed.

End cost_order.

(** The search expands states in the order of their cost: when a move
    of the map takes one timestep and goes to the same or a neighbouring
    cell, the costs of the states the loop pops and expands never
    decrease, and the state popped next costs no less than any state
    expanded before and no more than any state left in the queue. *)
Theorem search_expands_in_cost_order
    (map_width : Z) (m : Map) (start goal : State) (cs : option Constraints)
    (nodes : list State) (oc' : list State * gmap Z State) :
  (forall a child, child ∈ successors m a cs -> get_g child = get_g a + 1) ->
  (forall a child, child ∈ successors m a cs ->
     Z.abs (get_x child - get_x a) + Z.abs (get_y child - get_y a) <= 1) ->
  AStar.expands map_width m goal cs (AStar.entry map_width start goal) nodes oc' ->
  (forall i j a b, (i <= j)%nat -> nodes !! i = Some a -> nodes !! j = Some b ->
                   get_cost a <= get_cost b) /\
  (forall node rest, heappop State_lt oc'.1 = Some (node, rest) ->
     (forall a, a ∈ nodes -> get_cost a <= get_cost node) /\
     (forall x, x ∈ rest -> get_cost node <= get_cost x)).
Proof.
  intros Hg Hmove Hex.
  set (start' := AStar.compute_cost goal start).
  assert (Hheap0 : heap_ok get_cost (AStar.entry map_width start goal).1).
  { change (heap_ok get_cost (heappush State_lt [] start')).
    apply heappush_State. by intros i x p _ Hx. }
  destruct (expands_cost_order map_width m goal cs Hg Hmove _ _ _ Hex (get_cost start') Hheap0)
    as (Hsorted & Hheap & Hall).
  { intros x Hx. change (x ∈ heappush State_lt [] start') in Hx.
    destruct (heappush_State [] start') as [_ Hperm].
    { by intros i y p _ Hy. }
    rewrite Hperm in Hx. apply list_elem_of_singleton in Hx as ->. by split. }
  split; [exact Hsorted|]. intros node rest Hpop.
  destruct (heappop_State _ node rest Hheap Hpop) as (_ & Hperm & Hmin).
  assert (Hnode : node ∈ oc'.1) by (rewrite Hperm; by left).
  split.
  - intros a Ha. by apply (Hall node (or_intror Hnode)).
  - intros x Hx. apply Hmin. rewrite Hperm. by right.
Qed.

(** * The heuristic *)

(** The heuristic never overestimates: on a map whose moves go to the
    same or a neighbouring cell, a walk from a state to the goal cell
    has at least [get_heuristic] moves, and the heuristic is 0 exactly on
    the goal cell. *)
Theorem get_heuristic_admissible
    (m : Map) (cs : option Constraints) (goal a b : State) (n : nat) :
  (forall s child, child ∈ successors m s cs ->
     Z.abs (get_x child - get_x s) + Z.abs (get_y child - get_y s) <= 1) ->
  reaches m cs a n b -> is_goal b goal = true ->
  get_heuristic a goal <= Z.of_nat n /\
  (get_heuristic a goal = 0 <-> is_goal a goal = true).
Proof.
  intros Hmove Hwalk Hgoal. split.
  - induction Hwalk as [a b Heq|a child n b Hchild Hwalk IH].
    + rewrite (get_heuristic_eq a b goal Heq), (get_heuristic_goal goal b Hgoal). lia.
    + specialize (IH Hgoal). pose proof (Hmove a child Hchild).
      unfold get_heuristic in *. lia.
  - split; [|apply get_heuristic_goal].
    unfold get_heuristic, is_goal. intros H0.
    apply andb_true_iff. split; apply Z.eqb_eq; lia.
Qed.

(** * Constraints *)

(** [set_constraint] is idempotent: setting again the constraint that
    a call has just set returns the node that call returned. *)
Theorem set_constraint_idempotent
    (self self' : CBSState.t) (s : State) (t : Z) (agent : nat) :
  CBSState.set_constraint self s t agent = Done self' ->
  CBSState.set_constraint self' s t agent = Done self'.
Proof.
  unfold CBSState.set_constraint, dict_get.
  destruct (CBSState.constraints self !! agent) as [cs|] eqn:Hcs; [|done]. simpl.
  set (cell := (get_x s, get_y s)).
  set (cs1 := match cs !! cell with
              | Some _ => cs
              | None => <[cell := (∅ : gset Z)]> cs
              end).
  destruct (cs1 !! cell) as [times|] eqn:Htimes; [|done]. simpl.
  intros [= <-]. simpl. rewrite lookup_insert_eq. simpl.
  rewrite lookup_insert_eq. simpl. rewrite lookup_insert_eq. simpl.
  rewrite !insert_insert_eq. do 3 f_equal.
  f_equal. set_solver.
Qed.

(** * The cost of a child node *)

Lemma child_extends (self c : CBSState.t) (s : State) (t : Z) (agent : nat) :
  CBSState.child self s t agent = Done c -> extends self c agent (get_x s, get_y s) t.
Proof.
  intros Hc. destruct (CBSState.constraints self !! agent) as [cs|] eqn:Hcs.
  - destruct (child_spec self s t agent) as (c0 & Hc0 & Hext); [by eexists|].
    rewrite Hc in Hc0. by injection Hc0 as ->.
  - unfold CBSState.child, CBSState.init, CBSState.set_constraint, dict_get in Hc.
    simpl in Hc. by rewrite Hcs in Hc.
Qed.

Lemma successors_inv (fuel : nat) (self c : CBSState.t) (children : list CBSState.t) :
  CBSState.successors fuel self = Done children -> c ∈ children ->
  exists agent cell t, extends self c agent cell t.
Proof.
  unfold CBSState.successors.
  destruct (CBSState.is_solution fuel self) as [[valid [[s t]|]]| |]; simpl;
    [| |done|done].
  2: { intros [= <-] Hc. by apply not_elem_of_nil in Hc. }
  destruct valid; simpl.
  { intros [= <-] Hc. by apply not_elem_of_nil in Hc. }
  destruct (CBSState.conflicting_agents self s t _ []) as [agents| |]; simpl; [|done|done].
  destruct agents as [|a0 [|a1 agents]].
  1,2: intros [= <-] Hc; by apply not_elem_of_nil in Hc.
  destruct (CBSState.child self s t a0) as [c1| |] eqn:Hc1; simpl; [|done|done].
  destruct (CBSState.child self s t a1) as [c2| |] eqn:Hc2; simpl; [|done|done].
  intros [= <-] Hc. apply elem_of_cons in Hc as [->|Hc].
  - exists a0, (get_x s, get_y s), t. by apply child_extends.
  - apply list_elem_of_singleton in Hc as ->.
    exists a1, (get_x s, get_y s), t. by apply child_extends.
Qed.

Lemma total_cost_le (result result' : nat -> Z * option (list State)) (js : list nat) :
  (forall j, j ∈ js -> (result j).1 <= (result' j).1) ->
  total_cost result js <= total_cost result' js.
Proof.
  induction js as [|j js IH]; intros Hle; simpl; [lia|].
  pose proof (Hle j (list_elem_of_here _ _)).
  pose proof (IH (fun i Hi => Hle i (list_elem_of_further _ _ _ Hi))).
  unfold total_cost in *. lia.
Qed.

Lemma reaches_relax (m : Map) (width height : Z) (cs cs' : Constraints)
    (a : State) (n : nat) (b : State) :
  regular m width height (Some cs) -> monotone m ->
  (forall cell t, forbidden (Some cs) cell t = true -> forbidden (Some cs') cell t = true) ->
  reaches m (Some cs') a n b -> reaches m (Some cs) a n b.
Proof.
  intros Hreg Hmono Hsub. induction 1 as [a b Hab|a child n b Hchild Hwalk IH].
  - by constructor.
  - destruct (Hmono cs cs' a child Hsub Hchild) as (child2 & Hchild2 & Heq).
    apply (reaches_S m (Some cs) a child2 n b Hchild2).
    apply (reaches_eq_l width height m (Some cs) Hreg child child2 n b); [|exact IH].
    by apply State_eq_sym.
Qed.

(** A child whose agents all have a path costs no less than its
    parent: for a node as [__init__] leaves it, on a regular map that
    offers no more moves under more constraints and within a horizon
    where no two states share a hash, the cost [compute_cost] gives a
    child of the node is at least the cost it gives the node, provided
    no path filed for the child is [None]. *)
Theorem child_cost_at_least_parent
    (map_width height : Z) (fuel : nat) (node parent child child' : CBSState.t)
    (rp rc : Paths * Z) (children : list CBSState.t) :
  CBSState.cost node = 0 ->
  CBSState.k node = length (CBSState.starts node) ->
  (forall cs, regular (CBSState.map node) map_width height cs) ->
  monotone (CBSState.map node) ->
  (forall s, s ∈ CBSState.starts node ->
     0 <= get_x s < map_width /\ 0 <= get_y s < height /\
     collision_free map_width height (get_g s) fuel) ->
  CBSState.compute_cost map_width fuel node = Done (rp, parent) ->
  CBSState.successors fuel parent = Done children ->
  child ∈ children ->
  CBSState.compute_cost map_width fuel child = Done (rc, child') ->
  (forall j, (j < CBSState.k node)%nat -> CBSState.paths child' !! j <> Some None) ->
  CBSState.cost parent <= CBSState.cost child'.
Proof.
  intros Hcost0 Hk Hreg Hmono Hstarts HP Hsucc Hchild HC Hfound.
  destruct (compute_cost_inv _ _ _ _ _ HP) as (HallP & _ & Hparent).
  destruct (successors_inv _ _ _ _ Hsucc Hchild) as (agent & cell & t & Hext).
  destruct Hext as (Hm & Hs & Hg & Hkc & Hc0 & _ & Hother & cs0 & cs0' & Hcs0 & Hcs0' & Hforb).
  destruct (compute_cost_inv _ _ _ _ _ HC) as (HallC & _ & Hchild').
  set (resP := result_of map_width fuel node) in *.
  set (resC := result_of map_width fuel child) in *.
  assert (HkC : CBSState.k child = CBSState.k node).
  { rewrite Hkc, Hparent. simpl. by rewrite Hk. }
  rewrite Hparent in Hm, Hs, Hg, Hother, Hcs0. simpl in Hm, Hs, Hg, Hother, Hcs0.
  rewrite Hparent, Hchild'. simpl. rewrite Hcost0, Hc0, HkC.
  assert (total_cost resP (seq 0 (CBSState.k node))
          <= total_cost resC (seq 0 (CBSState.k node))); [|lia].
  apply total_cost_le. intros j Hj%elem_of_seq.
  destruct (HallP j ltac:(lia)) as (s & g & cs & Hsj & Hgj & Hcj & HrunP).
  destruct (HallC j ltac:(lia)) as (s' & g' & cs' & Hsj' & Hgj' & Hcj' & HrunC).
  rewrite Hs, Hsj in Hsj'. injection Hsj' as <-.
  rewrite Hg, Hgj in Hgj'. injection Hgj' as <-.
  rewrite Hm in HrunC.
  destruct (decide (j = agent)) as [->|Hne].
  - rewrite Hcs0 in Hcj. injection Hcj as <-.
    rewrite Hcs0' in Hcj'. injection Hcj' as <-.
    assert (Hpath : CBSState.paths child' !! agent = Some (resC agent).2).
    { rewrite Hchild'. simpl. rewrite fold_insert_lookup, decide_True; [done|].
      apply elem_of_seq. lia. }
    pose proof (Hfound agent ltac:(lia)) as Hsome. rewrite Hpath in Hsome.
    destruct (resC agent) as [c' [p|]]; [|done].
    destruct (search_walks map_width height fuel (AStar.init (CBSState.map node)) s g
                (Some cs0') c' p (Hreg _) HrunC)
      as (n0 & b0 & _ & Hgoal & Hwalk & ->).
    destruct (Hstarts s (list_elem_of_lookup_2 _ _ _ Hsj)) as (Hx & Hy & Hfree).
    destruct (resP agent) as [c path].
    destruct (search_below_walk map_width height fuel (AStar.init (CBSState.map node)) s g
                (Some cs0) c path n0 b0
                (Hreg _) Hfree Hx Hy HrunP) as [Hle _]; [|done|done].
    apply (reaches_relax _ map_width height cs0 cs0'); [apply Hreg|done| |done].
    intros cell' t' Hf. apply Hforb. by left.
  - rewrite (Hother j Hne), Hcj in Hcj'. injection Hcj' as <-.
    rewrite HrunP in HrunC. by injection HrunC as <-.
Qed.

(** * The properties on the corridor *)

(** An equation [Hrun : o = r] on a closed call [o] is refuted by
    running [o] when [test o] holds and [test r] does not. *)
Ltac refute_run test Hrun :=
  exfalso;
  match type of Hrun with
  | ?o = _ =>
      let H := fresh in
      assert (H : test o = true) by (vm_compute; reflexivity);
      rewrite Hrun in H; discriminate H
  end.

Lemma gridded_monotone (width height : Z) (is_blocked : Z -> Z -> bool) :
  monotone (gridded_map width height is_blocked).
Proof.
  intros cs cs' a child Hsub Hchild. exists child. split; [|apply State_eq_refl].
  simpl in Hchild |- *. unfold gridded_successors in *.
  apply list_elem_of_fmap in Hchild as (cell & -> & Hcell).
  apply (list_elem_of_fmap_2 (fun cell : Z * Z => set_g (State_init cell.1 cell.2) (get_g a + 1))).
  apply list_elem_of_filter in Hcell as [Hkeep Hcell].
  apply list_elem_of_filter. split; [|done].
  apply andb_true_iff in Hkeep as [Hkeep Hforb]. apply andb_true_iff. split; [done|].
  apply negb_true_iff in Hforb. apply negb_true_iff.
  destruct (forbidden (Some cs) cell (get_g a + 1)) eqn:Hf; [|done].
  by rewrite (Hsub _ _ Hf) in Hforb.
Qed.

Lemma head_on_starts (s : State) :
  s ∈ CBSState.starts head_on ->
  (get_g s = 0 /\ get_parent s = None) /\
  0 <= get_x s < 3 /\ 0 <= get_y s < 1 /\ collision_free 3 1 (get_g s) 5.
Proof.
  assert (Hfree : collision_free 3 1 0 5).
  { apply (bool_decide_unpack _). vm_compute. exact I. }
  intros Hs. simpl in Hs.
  apply elem_of_cons in Hs as [->|Hs]; [|apply list_elem_of_singleton in Hs as ->];
    simpl; (split; [done|]); (split; [lia|]); (split; [lia|done]).
Qed.

Lemma search_path_timed_witness :
  let cs := Some forbid_next_cell in
  let start := State_init 0 0 in
  let goal := State_init 2 0 in
  exists c p,
    AStar.returned (AStar.search 3 5 (AStar.init corridor) start goal cs) = Done (c, Some p) /\
    (forall i s, p !! i = Some s -> get_g s = get_g start + Z.of_nat i) /\
    Z.of_nat (length p) = c - get_g start + 1.
Proof.
  intros cs start goal.
  destruct (AStar.returned (AStar.search 3 5 (AStar.init corridor) start goal cs))
    as [[c [p|]]| |] eqn:Hrun; [|vm_compute in Hrun; discriminate Hrun..].
  exists c, p. split; [reflexivity|].
  destruct (search_path_timed 3 5 (AStar.init corridor) start goal cs c p
              (fun n child => gridded_successors_g 3 1 _ n cs child) eq_refl Hrun)
    as (Htimes & Hlen & _).
  by split.
Defined.

Lemma compute_cost_accumulates_witness :
  exists r self' self'',
    CBSState.compute_cost 3 5 head_on = Done (r, self') /\
    CBSState.compute_cost 3 5 self'
    = Done ((CBSState.paths self', 2 * CBSState.cost self' - 0), self'') /\
    CBSState.cost self'' = 2 * CBSState.cost self' - 0 /\
    CBSState.paths self'' = CBSState.paths self'.
Proof.
  destruct (CBSState.compute_cost 3 5 head_on) as [[r self']| |] eqn:Hrun;
    [|refute_run (@is_done (Paths * Z * CBSState.t)) Hrun..].
  destruct (compute_cost_accumulates 3 5 head_on self' r Hrun) as (self'' & H2).
  exists r, self', self''. split; [reflexivity|exact H2].
Defined.

Lemma compute_cost_keeps_timed_witness :
  exists r self', CBSState.compute_cost 3 5 head_on = Done (r, self') /\ timed self'.
Proof.
  destruct (CBSState.compute_cost 3 5 head_on) as [[r self']| |] eqn:Hrun;
    [|refute_run (@is_done (Paths * Z * CBSState.t)) Hrun..].
  exists r, self'. split; [reflexivity|].
  apply (compute_cost_keeps_timed 3 5 head_on self' r).
  - intros cs n child. apply (gridded_successors_g 3 1).
  - intros s Hs. by destruct (head_on_starts s Hs) as [? _].
  - by intros i t s Hs.
  - exact Hrun.
Defined.

Lemma is_solution_after_failed_search_witness :
  exists r self',
    CBSState.compute_cost 3 5 walled_in = Done (r, self') /\
    CBSState.paths self' !! 0%nat = Some None /\
    CBSState.is_solution 1 self' = Raise TypeError /\
    CBSState.successors 1 self' = Raise TypeError.
Proof.
  destruct (CBSState.compute_cost 3 5 walled_in) as [[r self']| |] eqn:Hrun;
    [|refute_run (@is_done (Paths * Z * CBSState.t)) Hrun..].
  assert (Hnone : CBSState.paths self' !! 0%nat = Some None).
  { destruct (compute_cost_inv _ _ _ _ _ Hrun) as (_ & _ & ->). vm_compute. reflexivity. }
  exists r, self'. split; [reflexivity|]. split; [exact Hnone|].
  apply (is_solution_after_failed_search 3 5 0 walled_in self' r 0 Hrun); [simpl; lia|done].
Defined.

Lemma compute_cost_missing_goal_witness :
  (length (CBSState.goals short_of_goals) < CBSState.k short_of_goals)%nat /\
  CBSState.compute_cost 3 5 short_of_goals = Raise IndexError.
Proof.
  assert (Hshort : (length (CBSState.goals short_of_goals) < CBSState.k short_of_goals)%nat)
    by (simpl; lia).
  split; [exact Hshort|].
  apply (compute_cost_missing_goal 3 5 short_of_goals (result_of 3 5 short_of_goals) Hshort).
  intros [|j] Hj; [|simpl in Hj; lia].
  exists (State_init 0 0), (State_init 2 0), ∅.
  repeat split; vm_compute; reflexivity.
Defined.

Lemma search_expands_in_cost_order_witness :
  let start := AStar.compute_cost (State_init 2 0) (State_init 0 0) in
  let oc' := AStar.expand 3 corridor (State_init 2 0) None start
               ([], (AStar.entry 3 (State_init 0 0) (State_init 2 0)).2) in
  AStar.expands 3 corridor (State_init 2 0) None
    (AStar.entry 3 (State_init 0 0) (State_init 2 0)) [start] oc' /\
  forall node rest, heappop State_lt oc'.1 = Some (node, rest) ->
    get_cost start <= get_cost node.
Proof.
  intros start oc'.
  assert (Hex : AStar.expands 3 corridor (State_init 2 0) None
                  (AStar.entry 3 (State_init 0 0) (State_init 2 0)) [start] oc').
  { apply (AStar.expands_cons 3 corridor (State_init 2 0) None _ _ start []);
      [reflexivity|reflexivity|constructor]. }
  split; [exact Hex|]. intros node rest Hpop.
  destruct (search_expands_in_cost_order 3 corridor (State_init 0 0) (State_init 2 0) None
              [start] oc'
              (fun a child => gridded_successors_g 3 1 _ a None child)
              (fun a child => gridded_successors_move 3 1 _ a child None) Hex)
    as [_ Hnext].
  destruct (Hnext node rest Hpop) as [Hle _]. apply Hle. by left.
Defined.

Lemma get_heuristic_admissible_witness :
  reaches corridor None (State_init 1 0) 1 (at_time 2 0 1) /\
  get_heuristic (State_init 1 0) (State_init 2 0) <= 1.
Proof.
  assert (Hwalk : reaches corridor None (State_init 1 0) 1 (at_time 2 0 1)).
  { apply (reaches_S corridor None _ (at_time 2 0 1)).
    - assert (Hs : successors corridor (State_init 1 0) None
                   = [at_time 2 0 1; at_time 0 0 1; at_time 1 0 1])
        by (vm_compute; reflexivity).
      rewrite Hs. by left.
    - constructor. reflexivity. }
  split; [exact Hwalk|].
  by destruct (get_heuristic_admissible corridor None (State_init 2 0) (State_init 1 0)
                 (at_time 2 0 1) 1 (fun s child => gridded_successors_move 3 1 _ s child None)
                 Hwalk eq_refl) as [Hle _].
Defined.

Lemma set_constraint_idempotent_witness :
  exists self',
    CBSState.set_constraint head_on (at_time 1 0 1) 1 0 = Done self' /\
    CBSState.set_constraint self' (at_time 1 0 1) 1 0 = Done self'.
Proof.
  destruct (CBSState.set_constraint head_on (at_time 1 0 1) 1 0) as [self'| |] eqn:Hset;
    [|refute_run (@is_done CBSState.t) Hset..].
  exists self'. split; [reflexivity|].
  exact (set_constraint_idempotent head_on self' (at_time 1 0 1) 1 0 Hset).
Defined.

Lemma child_cost_at_least_parent_witness :
  exists rp parent children child rc child',
    CBSState.compute_cost 3 5 head_on = Done (rp, parent) /\
    CBSState.successors 5 parent = Done children /\ child ∈ children /\
    CBSState.compute_cost 3 5 child = Done (rc, child') /\
    CBSState.cost parent <= CBSState.cost child'.
Proof.
  destruct (CBSState.compute_cost 3 5 head_on) as [[rp parent]| |] eqn:HP;
    [|refute_run (@is_done (Paths * Z * CBSState.t)) HP..].
  assert (Hparent : costed 3 5 head_on = parent) by (unfold costed; by rewrite HP).
  destruct (CBSState.successors 5 parent) as [[|child children]| |] eqn:HS;
    [rewrite <- Hparent in HS; refute_run (@is_done_cons CBSState.t) HS| |
     rewrite <- Hparent in HS; refute_run (@is_done_cons CBSState.t) HS..].
  assert (Hchild : first_child 5 (costed 3 5 head_on) = child).
  { unfold first_child. by rewrite Hparent, HS. }
  destruct (CBSState.compute_cost 3 5 child) as [[rc child']| |] eqn:HC;
    [|rewrite <- Hchild in HC; refute_run (@is_done (Paths * Z * CBSState.t)) HC..].
  assert (Hchild' : costed 3 5 (first_child 5 (costed 3 5 head_on)) = child').
  { unfold costed at 1. by rewrite Hchild, HC. }
  exists rp, parent, (child :: children), child, rc, child'.
  split; [reflexivity|]. split; [exact HS|]. split; [by left|]. split; [exact HC|].
  apply (child_cost_at_least_parent 3 1 5 head_on parent child child' rp rc (child :: children)
           eq_refl eq_refl (gridded_regular 3 1 _) (gridded_monotone 3 1 _)).
  - intros s Hs. by destruct (head_on_starts s Hs) as [_ ?].
  - exact HP.
  - exact HS.
  - by left.
  - exact HC.
  - rewrite <- Hchild'. intros [|[|j]] Hj; [| |simpl in Hj; lia]; vm_compute; discriminate.
Defined.

(** * When the search fails *)

Lemma latest_state (E : list State) :
  E <> [] -> exists e, e ∈ E /\ forall x, x ∈ E -> get_g x <= get_g e.
Proof.
  induction E as [|a E IH]; [done|]. intros _.
  destruct E as [|b E].
  - exists a. split; [by left|]. intros x Hx%list_elem_of_singleton. by subst.
  - destruct IH as (e & He & Hmax); [done|].
    destruct (decide (get_g e <= get_g a)) as [Hle|Hgt].
    + exists a. split; [by left|]. intros x [->|Hx]%elem_of_cons; [lia|].
      specialize (Hmax x Hx). lia.
    + exists e. split; [by right|]. intros x [->|Hx]%elem_of_cons; [lia|].
      by apply Hmax.
Qed.

(** The search fails only at a dead end: on a regular map and within a
    horizon where no two states share a hash, a search that returns
    without a path has expanded a state, reached from the start by moves
    of the map, for which the map yields no successor at all. *)
Theorem search_failure_needs_dead_end
    (map_width height : Z) (fuel : nat) (self : AStar.t) (start goal : State)
    (cs : option Constraints) (c : Z) :
  regular (AStar.map self) map_width height cs ->
  collision_free map_width height (get_g start) fuel ->
  0 <= get_x start < map_width -> 0 <= get_y start < height ->
  AStar.returned (AStar.search map_width fuel self start goal cs) = Done (c, None) ->
  exists n e, reaches (AStar.map self) cs start n e /\
              successors (AStar.map self) e cs = [].
Proof.
  intros Hreg Hfree Hx Hy Hrun.
  apply returned_search in Hrun as [oc' Hrun].
  apply (search_loop_Done map_width (AStar.map self) goal cs fuel
           (AStar.entry map_width start goal)) in Hrun
    as (nodes & OPEN' & CLOSED' & Hex & Hlen & Hres).
  destruct Hres as [(-> & _ & _)|(node & OPEN'' & _ & _ & [=] & _)].
  pose proof (frontier_ok_expands map_width height (AStar.map self) goal cs start fuel
                Hreg Hfree _ nodes _ Hex [] ltac:(simpl; lia)
                (frontier_ok_entry map_width height (AStar.map self) goal cs start Hx Hy))
    as (_ & _ & _ & Hstart & Hsucc & _).
  simpl in Hstart, Hsucc.
  assert (Hheld : forall x, held [] nodes x -> x ∈ nodes).
  { intros x [Hx'|Hx']; [by apply not_elem_of_nil in Hx'|done]. }
  destruct (latest_state nodes) as (e & He & Hmax).
  { intros ->. by apply Hheld, not_elem_of_nil in Hstart. }
  destruct (expands_generated map_width (AStar.map self) goal cs start _ nodes _ Hex
              (entry_generated map_width (AStar.map self) goal cs start)) as [_ Hgen].
  rewrite Forall_forall in Hgen.
  destruct (generated_reaches map_width height (AStar.map self) goal cs start Hreg
              e (Hgen e He)) as (n & Hwalk & _).
  exists n, e. split; [exact Hwalk|].
  destruct (successors (AStar.map self) e cs) as [|child l] eqn:Hchildren; [done|].
  assert (Hchild : child ∈ successors (AStar.map self) e cs) by (rewrite Hchildren; by left).
  destruct (Hsucc e child He Hchild) as (x & Hx' & Heq).
  apply State_eq_spec in Heq as (_ & _ & Hg).
  pose proof (regular_g _ _ _ _ Hreg e child Hchild).
  pose proof (Hmax x (Hheld x Hx')). lia.
Qed.

Lemma search_failure_needs_dead_end_witness :
  let cs := Some forbid_first_moves in
  AStar.returned (AStar.search 3 5 (AStar.init corridor) (State_init 0 0) (State_init 2 0) cs)
  = Done (-1, None) /\
  exists n e, reaches corridor cs (State_init 0 0) n e /\ successors corridor e cs = [].
Proof.
  intros cs.
  assert (Hrun : AStar.returned (AStar.search 3 5 (AStar.init corridor) (State_init 0 0)
                                   (State_init 2 0) cs) = Done (-1, None))
    by (vm_compute; reflexivity).
  split; [exact Hrun|].
  apply (search_failure_needs_dead_end 3 1 5 (AStar.init corridor) (State_init 0 0)
           (State_init 2 0) cs (-1) (gridded_regular 3 1 _ cs)); [|simpl; lia|simpl; lia|exact Hrun].
  apply (bool_decide_unpack _). vm_compute. exact I.
Defined.

(** * The cost of a node *)

Lemma search_failed_cost (map_width : Z) (fuel : nat) (self : AStar.t) (start goal : State)
    (cs : option Constraints) (c : Z) :
  AStar.returned (AStar.search map_width fuel self start goal cs) = Done (c, None) ->
  c = -1.
Proof.
  intros Hrun. apply returned_search in Hrun as [oc' Hrun].
  apply (search_loop_Done map_width (AStar.map self) goal cs fuel
           (AStar.entry map_width start goal)) in Hrun
    as (nodes & OPEN' & CLOSED' & _ & _ & Hres).
  by destruct Hres as [(_ & [= ->] & _)|(node & OPEN'' & _ & _ & [=] & _)].
Qed.

Lemma total_cost_ext (result : nat -> Z * option (list State)) (f : nat -> Z)
    (js : list nat) :
  (forall j, j ∈ js -> (result j).1 = f j) ->
  total_cost result js = foldr (fun j acc => f j + acc) 0 js.
Proof.
  induction js as [|j js IH]; intros Hf; [done|]. simpl.
  rewrite <- IH by (intros i Hi; by apply Hf, list_elem_of_further).
  rewrite <- (Hf j (list_elem_of_here _ _)). done.
Qed.

(** The cost of a node is the sum of the moves of its paths: when the
    map stamps [g + 1] on every successor and the starts are at time 0
    without a parent, [compute_cost] adds to the cost of the node, for
    every agent, the number of moves of the path it files for the agent,
    and [-1] for an agent it files no path for. *)
Theorem compute_cost_sums_moves
    (map_width : Z) (fuel : nat) (self self' : CBSState.t) (r : Paths * Z) :
  (forall cs n child,
     child ∈ successors (CBSState.map self) n cs -> get_g child = get_g n + 1) ->
  (forall s, s ∈ CBSState.starts self -> get_g s = 0 /\ get_parent s = None) ->
  CBSState.compute_cost map_width fuel self = Done (r, self') ->
  CBSState.cost self'
  = CBSState.cost self + foldr (fun j acc => moves self' j + acc) 0 (seq 0 (CBSState.k self)) /\
  r = (CBSState.paths self', CBSState.cost self').
Proof.
  intros Hg Hstarts Hrun.
  destruct (compute_cost_inv _ _ _ _ _ Hrun) as (Hall & Hr & Hself'). split; [|exact Hr].
  rewrite <- (total_cost_ext (result_of map_width fuel self)); [by rewrite Hself'|].
  intros j Hj. pose proof Hj as Hj'%elem_of_seq.
  destruct (Hall j ltac:(lia)) as (start & goal & cs & Hstart & _ & _ & Hsearch).
  unfold moves. rewrite Hself'. simpl. rewrite fold_insert_lookup, decide_True by done.
  destruct (result_of map_width fuel self j) as [c [p|]]; simpl.
  - destruct (search_found _ _ _ _ _ _ _ _ Hsearch) as (node & Hgen & _ & -> & ->).
    destruct (Hstarts start (list_elem_of_lookup_2 _ _ _ Hstart)) as [Hg0 Hroot].
    simpl in Hgen. unfold AStar._recover_path. rewrite length_reverse.
    pose proof (generated_g _ goal (Some cs) start node (Hg (Some cs)) Hroot Hgen). lia.
  - by apply search_failed_cost in Hsearch.
Qed.

Lemma compute_cost_sums_moves_witness :
  exists r self',
    CBSState.compute_cost 3 5 walled_in = Done (r, self') /\
    CBSState.cost self' = 0 + (moves self' 0 + (moves self' 1 + 0)).
Proof.
  destruct (CBSState.compute_cost 3 5 walled_in) as [[r self']| |] eqn:Hrun;
    [|refute_run (@is_done (Paths * Z * CBSState.t)) Hrun..].
  exists r, self'. split; [reflexivity|].
  destruct (compute_cost_sums_moves 3 5 walled_in self' r) as [Hcost _]; [| |exact Hrun|exact Hcost].
  - intros cs n child. apply (gridded_successors_g 3 1).
  - intros s Hs. by destruct (head_on_starts s Hs) as [? _].
Defined.
